(** * Migration agent (src/agent.py): response parsing, API retry loop,
      and the apply step, embedded shallowly and verified.

    The development follows the source file top to bottom:
    - [PyStr]      Python [str] values as lists of code points, with the
                   two string methods the source uses ([lstrip("/")], [strip()]);
    - [Re]         the fragment of Python's [re] used by [parse_file_blocks]
                   (literals, [\s], [[^c]], [.] under DOTALL, the quantifiers
                   [+], [*], [*?] on a single character class, capture groups)
                   as a backtracking matcher, and [finditer];
    - [Parser]     [parse_file_blocks];
    - [Client]     [call_cursor_api] against a scripted service;
    - [Fs], [Os]   a filesystem without symbolic links, with the pathlib and
                   shutil calls used by [step_apply_changes];
    - [Applier]    [iter_source_files] and [step_apply_changes];
    - [Sample]     a small project on which the statements are exercised;
    - [Text], [Batch], [Reader], [Analysis], [Context]
                   substring tests, [batch], [read_file_safe], [uses_convex],
                   [step_analyze] and [build_context_summary];
    - [Migration], [Schema], [Report], [Main]
                   [step_migrate_files], [step_generate_schema],
                   [write_report] and [main];
    - [Budget], [Safety]
                   notions used in the statements about the retry loop and
                   about the apply step.

    The properties follow in the same order: [ReFacts], [ParserFacts],
    [ClientFacts], [OsFacts], [ApplierFacts].  The statements that settle
    a numbered claim of the specification carry its number.  Further
    properties of the same code and of the rest of the source file come
    after them, numbered X1, X2, ...: [TextFacts], [ParserShape],
    [ParserOrder] (which also holds the statement on the order of the
    parser's result), [ClientBudget], [BatchFacts], [ReaderFacts],
    [AnalysisFacts], [ContextFacts], [SafetyFacts], [ApplierMore],
    [MigrationFacts], [MainFacts]. *)

From Stdlib Require Import String Ascii.
From Stdlib Require Import List Sorted NArith ZArith Bool Arith Lia.
Import ListNotations.

(* ------------------------------------------------------------------ *)
(** ** Python strings *)

Module PyStr.

(** A Python [str] is a sequence of Unicode code points. *)
Definition char := N.
Definition pystr := list char.

Definition char_eqb (a b : char) : bool := N.eqb a b.

(** ASCII text written as a Rocq string literal. *)
Definition lit (s : string) : pystr :=
  map N_of_ascii (list_ascii_of_string s).

(** The characters the source mentions by themselves. *)
Definition dquote : char := 34%N.   (* the double quote *)
Definition slash  : char := 47%N.   (* "/" *)
Definition langle : char := 60%N.   (* "<" *)

Definition quoted (s : pystr) : pystr := dquote :: s ++ [dquote].

(** [str.isspace] on one code point, which is also what [\s] matches in a
    [str] pattern: the ASCII table of CPython ([\t \n \v \f \r], the four
    separators 0x1C..0x1F and the blank) and the Unicode white space. *)
Definition is_space (c : char) : bool :=
  ((9 <=? c) && (c <=? 13))%N
  || ((28 <=? c) && (c <=? 32))%N
  || (c =? 133)%N || (c =? 160)%N || (c =? 5760)%N
  || ((8192 <=? c) && (c <=? 8202))%N
  || (c =? 8232)%N || (c =? 8233)%N || (c =? 8239)%N
  || (c =? 8287)%N || (c =? 12288)%N.

(** [s.lstrip(chars)] for a one-character [chars], and [s.lstrip()]. *)
Fixpoint lstrip_by (p : char -> bool) (s : pystr) : pystr :=
  match s with
  | c :: s' => if p c then lstrip_by p s' else s
  | [] => []
  end.

Definition rstrip_by (p : char -> bool) (s : pystr) : pystr :=
  rev (lstrip_by p (rev s)).

(** [path.lstrip("/")] *)
Definition lstrip_slash (s : pystr) : pystr := lstrip_by (char_eqb slash) s.

(** [content.strip()] *)
Definition strip (s : pystr) : pystr := rstrip_by is_space (lstrip_by is_space s).

Definition pystr_eq_dec : forall a b : pystr, {a = b} + {a <> b} :=
  list_eq_dec N.eq_dec.

Definition pystr_eqb (a b : pystr) : bool :=
  if pystr_eq_dec a b then true else false.

End PyStr.
Import PyStr.

(* ------------------------------------------------------------------ *)
(** ** The regular expressions of [parse_file_blocks] *)

Module Re.

(** One-character classes. *)
Inductive cls :=
| Chr (c : char)        (* a literal character *)
| Space                 (* \s *)
| NotChr (c : char)     (* [^c] *)
| Any.                  (* . with re.DOTALL: every character, newline too *)

Definition cls_ok (k : cls) (c : char) : bool :=
  match k with
  | Chr d => char_eqb d c
  | Space => is_space c
  | NotChr d => negb (char_eqb d c)
  | Any => true
  end.

(** Quantifiers, all applied to a single class in the source patterns. *)
Inductive quant :=
| Once                  (* k   *)
| Plus                  (* k+  greedy *)
| Star                  (* k*  greedy *)
| StarLazy.             (* k*? lazy   *)

(** A pattern is a sequence of quantified classes; [it_group] says that a
    capture group encloses the item.  Groups are numbered in order. *)
Record item := Item { it_cls : cls; it_quant : quant; it_group : bool }.

Definition regex := list item.

Definition chars (s : string) : regex :=
  map (fun c => Item (Chr c) Once false) (lit s).
Definition one (k : cls) : regex := [Item k Once false].
Definition plus (k : cls) : regex := [Item k Plus false].
Definition star (k : cls) : regex := [Item k Star false].
Definition lazy (k : cls) : regex := [Item k StarLazy false].
Definition group (r : regex) : regex :=
  map (fun it => Item (it_cls it) (it_quant it) true) r.

(** The state of a match attempt: captured groups so far (in group order)
    and the text still to be read. *)
Definition caps := list pystr.
Definition cont := pystr -> pystr -> option (caps * pystr).

(** Greedy repetition: take one more character when the class allows it and
    the rest of the pattern then matches; otherwise stop here, provided the
    minimum count was reached.  [acc] is the text taken so far, reversed. *)
Fixpoint greedy (k : cls) (need : bool) (kont : cont) (acc s : pystr)
  : option (caps * pystr) :=
  let stop := if need then None else kont (rev acc) s in
  match s with
  | c :: s' =>
      if cls_ok k c then
        match greedy k false kont (c :: acc) s' with
        | Some r => Some r
        | None => stop
        end
      else stop
  | [] => stop
  end.

(** Lazy repetition: first try to go on with the rest of the pattern, and
    take one more character only when that fails. *)
Fixpoint lazily (k : cls) (kont : cont) (acc s : pystr)
  : option (caps * pystr) :=
  match kont (rev acc) s with
  | Some r => Some r
  | None =>
      match s with
      | c :: s' => if cls_ok k c then lazily k kont (c :: acc) s' else None
      | [] => None
      end
  end.

(** Backtracking match of a pattern at the start of [s]: the captures and
    the unread rest of the first successful path, in the priority order of
    Python's matcher. *)
Fixpoint run (r : regex) (cs : caps) (s : pystr) : option (caps * pystr) :=
  match r with
  | [] => Some (cs, s)
  | it :: r' =>
      let kont : cont := fun taken rest =>
        run r' (if it_group it then cs ++ [taken] else cs) rest in
      match it_quant it with
      | Once =>
          match s with
          | c :: s' => if cls_ok (it_cls it) c then kont [c] s' else None
          | [] => None
          end
      | Plus => greedy (it_cls it) true kont [] s
      | Star => greedy (it_cls it) false kont [] s
      | StarLazy => lazily (it_cls it) kont [] s
      end
  end.

(** A match object: [m.start()], [m.end()] and the groups. *)
Record rmatch := Match { m_start : nat; m_end : nat; m_groups : caps }.

(** [m.group(i)] for [i >= 1]. *)
Definition mgroup (i : nat) (m : rmatch) : pystr := nth (pred i) (m_groups m) [].

(** [pattern.finditer(s)]: scan from left to right; at every position try
    the pattern; after a match resume at its end.  [skip] counts the
    characters of the last match still to be passed over, [pos] is the
    offset of [s] in the whole text. *)
Fixpoint scan (r : regex) (pos skip : nat) (s : pystr) : list rmatch :=
  match s with
  | [] => []
  | _ :: s' =>
      match skip with
      | S k => scan r (S pos) k s'
      | O =>
          match run r [] s with
          | Some (cs, rest) =>
              let len := length s - length rest in
              Match pos (pos + len) cs :: scan r (S pos) (pred len) s'
          | None => scan r (S pos) 0 s'
          end
      end
  end.

Definition finditer (r : regex) (s : pystr) : list rmatch := scan r 0 0 s.

(** *** What a match means *)

(** The text one item may take. *)
Definition takes (it : item) (w : pystr) : Prop :=
  forallb (cls_ok (it_cls it)) w = true /\
  match it_quant it with
  | Once => length w = 1
  | Plus => w <> []
  | Star | StarLazy => True
  end.

(** The groups a successful match adds: the pieces of the grouped items. *)
Fixpoint captured (r : regex) (pieces : list pystr) : caps :=
  match r, pieces with
  | it :: r', w :: pieces' =>
      if it_group it then w :: captured r' pieces' else captured r' pieces'
  | _, _ => []
  end.

(** [pieces] cuts a text into one piece per item of [r]. *)
Definition spells (r : regex) (pieces : list pystr) : Prop :=
  Forall2 takes r pieces.

(** The next character does not belong to the class. *)
Definition stops (k : cls) (rest : pystr) : Prop :=
  match rest with
  | c :: _ => cls_ok k c = false
  | [] => True
  end.

(** Matches come in the order of the text and do not overlap. *)
Definition before (a b : rmatch) : Prop :=
  m_start a < m_start b /\ m_end a <= m_start b.

Definition in_document_order (ms : list rmatch) : Prop :=
  StronglySorted before ms.

End Re.
Import Re.

(* ------------------------------------------------------------------ *)
(** ** [parse_file_blocks] *)

Module Parser.

Inductive action := write | delete.

(** The dictionaries appended to [changes]. *)
Record change := Change { c_action : action; c_path : pystr; c_content : pystr }.

(** [<FILE\s+path=Q([^Q]+)Q>(.*?)</FILE>] compiled with [re.DOTALL], where
    Q stands for the double quote character. *)
Definition file_pattern : regex :=
  chars "<FILE" ++ plus Space ++ chars "path=" ++ one (Chr dquote)
  ++ group (plus (NotChr dquote)) ++ one (Chr dquote) ++ chars ">"
  ++ group (lazy Any) ++ chars "</FILE>".

(** [<DELETE\s+path=Q([^Q]+)Q\s*/>], Q again the double quote. *)
Definition delete_pattern : regex :=
  chars "<DELETE" ++ plus Space ++ chars "path=" ++ one (Chr dquote)
  ++ group (plus (NotChr dquote)) ++ one (Chr dquote)
  ++ star Space ++ chars "/>".

Definition write_change (m : rmatch) : change :=
  Change write (lstrip_slash (mgroup 1 m)) (strip (mgroup 2 m)).

Definition delete_change (m : rmatch) : change :=
  Change delete (lstrip_slash (mgroup 1 m)) [].

Definition parse_file_blocks (response : pystr) : list change :=
  let changes := [] in
  let changes := changes ++ map write_change (finditer file_pattern response) in
  let changes := changes ++ map delete_change (finditer delete_pattern response) in
  changes.

(** Does a path start with the separator? *)
Definition leading_separator (p : pystr) : bool :=
  match p with
  | c :: _ => char_eqb slash c
  | [] => false
  end.

(** Texts without the character that opens a marker. *)
Definition no_langle (s : pystr) : Prop :=
  forallb (fun c => negb (char_eqb langle c)) s = true.

(** Does the text start with [<] followed by the letter [d]? *)
Definition starts_tag (d : char) (t : pystr) : bool :=
  match t with
  | c :: c2 :: _ => char_eqb langle c && char_eqb d c2
  | _ => false
  end.

(** No position of the text starts with [<] followed by [d]. *)
Fixpoint no_tag (d : char) (t : pystr) : bool :=
  match t with
  | [] => true
  | _ :: t' => negb (starts_tag d t) && no_tag d t'
  end.

(** *** The markup, as the prompt describes it *)

(** A write-marker: the opening tag with white space before the attribute,
    the quoted path, the content and the closing tag. *)
Definition write_marker (ws path body : pystr) : pystr :=
  lit "<FILE" ++ ws ++ lit "path=" ++ quoted path ++ lit ">" ++ body
  ++ lit "</FILE>".

(** A delete-marker: self-closing, with optional white space before [/>]. *)
Definition delete_marker (ws path ws' : pystr) : pystr :=
  lit "<DELETE" ++ ws ++ lit "path=" ++ quoted path ++ ws' ++ lit "/>".

Definition blank (ws : pystr) : Prop := forallb is_space ws = true.

(** A text cut into its characters. *)
Definition letters (l : pystr) : list pystr := map (fun c => [c]) l.

(** A path attribute: not empty and without a double quote. *)
Definition path_text (p : pystr) : Prop :=
  p <> [] /\ forallb (fun c => negb (char_eqb dquote c)) p = true.

(** [txt] lies in [s] from offset [i] up to offset [j]. *)
Definition occurs_at (txt s : pystr) (i j : nat) : Prop :=
  exists pre post, s = pre ++ txt ++ post /\ length pre = i /\ i + length txt = j.

Definition has_write_marker (s : pystr) : Prop :=
  exists ws p body i j,
    ws <> [] /\ blank ws /\ path_text p /\
    occurs_at (write_marker ws p body) s i j.

Definition has_delete_marker (s : pystr) : Prop :=
  exists ws p ws' i j,
    ws <> [] /\ blank ws /\ path_text p /\ blank ws' /\
    occurs_at (delete_marker ws p ws') s i j.

(** The match [m] is a write-marker of [s], with its groups. *)
Definition write_marker_at (s : pystr) (m : rmatch) : Prop :=
  exists ws,
    ws <> [] /\ blank ws /\ path_text (mgroup 1 m) /\
    occurs_at (write_marker ws (mgroup 1 m) (mgroup 2 m)) s (m_start m) (m_end m).

Definition delete_marker_at (s : pystr) (m : rmatch) : Prop :=
  exists ws ws',
    ws <> [] /\ blank ws /\ path_text (mgroup 1 m) /\ blank ws' /\
    occurs_at (delete_marker ws (mgroup 1 m) ws') s (m_start m) (m_end m).

(** A response whose path climbs out of the target root. *)
Definition traversal_response : pystr :=
  write_marker (lit " ") (lit "../outside.txt") (lit "x").

End Parser.
Import Parser.

(* ------------------------------------------------------------------ *)
(** ** [call_cursor_api] *)

Module Client.

(** What one [requests.post] plus [raise_for_status] plus the reading of the
    JSON body comes to. *)
Inductive response :=
| Completed (content : pystr)   (* data["choices"][0]["message"]["content"] *)
| HttpError (status_code : Z)   (* raise_for_status raised HTTPError *)
| TimedOut.                     (* requests.exceptions.Timeout *)

(** The external service, scripted: its answer to the n-th request. *)
Definition service := nat -> response.

(** The exceptions of [requests] that the loop catches. *)
Inductive requests_exception :=
| HTTPError (status_code : Z)
| Timeout.

Inductive exn :=
| RuntimeError (retries : Z) (cause : requests_exception)
                                  (* raise RuntimeError(...) from e *)
| Reraised (e : requests_exception).
                                  (* the bare [raise] of a handler *)

Inductive outcome :=
| Returned (text : pystr)
| Raised (e : exn).

Inductive event :=
| Post                          (* requests.post *)
| Sleep (seconds : Z).          (* time.sleep *)

(** Requests issued so far, and everything done, oldest first. *)
Record world := World { issued : nat; trace : list event }.

Definition post (w : world) : world := World (S (issued w)) (trace w ++ [Post]).
Definition sleep (n : Z) (w : world) : world := World (issued w) (trace w ++ [Sleep n]).

(** [range(n)] *)
Definition range (n : Z) : list Z := map Z.of_nat (seq 0 (Z.to_nat n)).

(** The body of [for attempt in range(retries)], and what follows the loop. *)
Fixpoint attempts (svc : service) (retries : Z) (todo : list Z) (w : world)
  : outcome * world :=
  match todo with
  | [] => (Returned [], w)
  | attempt :: todo' =>
      let w1 := post w in
      match svc (issued w) with
      | Completed content => (Returned content, w1)
      | HttpError status_code =>
          if (status_code =? 429)%Z then
            let wait := (10 * (attempt + 1))%Z in
            attempts svc retries todo' (sleep wait w1)
          else if (attempt <? retries - 1)%Z then
            attempts svc retries todo' (sleep 3 w1)
          else (Raised (RuntimeError retries (HTTPError status_code)), w1)
      | TimedOut =>
          if (attempt <? retries - 1)%Z then
            attempts svc retries todo' (sleep 5 w1)
          else (Raised (Reraised Timeout), w1)
      end
  end.

(** The prompt texts and the key only travel in the request; the control
    flow depends on [retries] and on the answers. *)
Definition call_cursor_api (svc : service) (retries : Z) (w : world)
  : outcome * world :=
  attempts svc retries (range retries) w.

Definition default_retries : Z := 3.

Definition fresh : world := World 0 [].

Definition sleeps (w : world) : list Z :=
  flat_map (fun e => match e with Sleep n => [n] | Post => [] end) (trace w).

Definition posts (w : world) : nat :=
  length (filter (fun e => match e with Post => true | _ => false end) (trace w)).

(** A service that answers the first requests from a list and then repeats
    its last word. *)
Definition script (l : list response) (last : response) : service :=
  fun n => nth n l last.

(** An attempt that did not produce a completion. *)
Definition failed (r : response) : Prop :=
  match r with
  | Completed _ => False
  | _ => True
  end.

End Client.
Import Client.

(* ------------------------------------------------------------------ *)
(** ** Files and directories *)

Module Fs.

(** Path components, as [pathlib] keeps them in [parts] (the anchor "/" of an
    absolute path is left implicit: every path here is absolute). *)
Definition segment := pystr.
Definition path := list segment.

Definition dotdot : segment := lit "..".

Definition path_eq_dec : forall a b : path, {a = b} + {a <> b} :=
  list_eq_dec pystr_eq_dec.

(** A location is a path without [..]: the place of an entry in the tree. *)
Definition loc := path.

Inductive node :=
| File (data : pystr)
| Dir.

(** The tree: what lies at each location.  The root is always a directory.
    There are no symbolic links, and permissions, quotas and limits on names
    never get in the way. *)
Definition fs := loc -> option node.

Definition node_at (f : fs) (l : loc) : option node :=
  match l with
  | [] => Some Dir
  | _ => f l
  end.

Definition update (f : fs) (l : loc) (n : option node) : fs :=
  fun l' => if path_eq_dec l l' then n else f l'.

Definition empty : fs := fun _ => None.

Inductive exn :=
| FileNotFoundError
| NotADirectoryError     (* also stands for FileExistsError raised by mkdir *)
| IsADirectoryError
| SameFileError
| ValueError.

(** Computations on the tree that may raise; the tree survives the
    exception in the state it had reached. *)
Definition M (A : Type) := fs -> (exn + A) * fs.

Definition ret {A} (a : A) : M A := fun f => (inr a, f).
Definition raise {A} (e : exn) : M A := fun f => (inl e, f).
Definition bind {A B} (m : M A) (k : A -> M B) : M B :=
  fun f => match m f with
           | (inr a, f') => k a f'
           | (inl e, f') => (inl e, f')
           end.

End Fs.
Import Fs.

Declare Scope fs_scope.
Delimit Scope fs_scope with fs.
Notation "x <- m ;; k" := (Fs.bind m (fun x => k))
  (at level 61, m at next level, right associativity) : fs_scope.
Notation "m ;;; k" := (Fs.bind m (fun _ => k))
  (at level 61, right associativity) : fs_scope.
Open Scope fs_scope.

Module Os.

(** *** pathlib, on parts *)

Fixpoint split_on (sep : char) (s : pystr) : list pystr :=
  match s with
  | [] => [[]]
  | c :: s' =>
      if char_eqb sep c then [] :: split_on sep s'
      else match split_on sep s' with
           | seg :: segs => (c :: seg) :: segs
           | [] => [[c]]
           end
  end.

(** Parsing a string into parts drops empty components and [.] *)
Definition parts_of (s : pystr) : path :=
  filter (fun seg => negb (pystr_eqb seg [] || pystr_eqb seg (lit ".")))
         (split_on slash s).

(** [root / s] for a string [s]: an absolute [s] replaces [root]. *)
Definition joinpath (root : path) (s : pystr) : path :=
  match s with
  | c :: _ => if char_eqb slash c then parts_of s else root ++ parts_of s
  | [] => root
  end.

(** [p.parent] *)
Definition parent (p : path) : path := removelast p.

(** [p.name] *)
Definition name (p : path) : segment := last p [].

(** Index of the last [.] of a name, if any. *)
Fixpoint rfind_dot (s : pystr) (i : nat) : option nat :=
  match s with
  | [] => None
  | c :: s' =>
      match rfind_dot s' (S i) with
      | Some j => Some j
      | None => if char_eqb 46%N c then Some i else None
      end
  end.

(** [p.suffix]: the last dot of the name and what follows, unless the dot
    starts or ends the name. *)
Definition suffix (p : path) : pystr :=
  let n := name p in
  match rfind_dot n 0 with
  | Some i => if (0 <? i) && (i <? length n - 1) then skipn i n else []
  | None => []
  end.

Fixpoint strip_prefix (root p : path) : option path :=
  match root, p with
  | [], _ => Some p
  | r :: root', s :: p' => if pystr_eq_dec r s then strip_prefix root' p' else None
  | _ :: _, [] => None
  end.

(** [p.relative_to(root)] *)
Definition relative_to (p root : path) : M path :=
  match strip_prefix root p with
  | Some rel => ret rel
  | None => raise ValueError
  end.

(** Does a relative path climb above the directory it is joined to?
    [depth] counts the components below that directory reached so far. *)
Fixpoint climbs_out (depth : nat) (p : path) : bool :=
  match p with
  | [] => false
  | seg :: p' =>
      if pystr_eq_dec seg dotdot then
        match depth with
        | O => true
        | S d => climbs_out d p'
        end
      else climbs_out (S depth) p'
  end.

Definition escapes_root (s : pystr) : bool := climbs_out 0 (parts_of s).

(** *** The operating system's view *)

(** Following a path from location [cur]: each component is looked up in a
    directory; [..] climbs. *)
Fixpoint resolve (f : fs) (cur : loc) (p : path) : exn + loc :=
  match p with
  | [] => inr cur
  | seg :: p' =>
      match node_at f cur with
      | Some Dir =>
          resolve f (if pystr_eq_dec seg dotdot then removelast cur
                     else cur ++ [seg]) p'
      | Some (File _) => inl NotADirectoryError
      | None => inl FileNotFoundError
      end
  end.

(** Where a path leads by its components alone. *)
Fixpoint norm (cur : loc) (p : path) : loc :=
  match p with
  | [] => cur
  | seg :: p' =>
      norm (if pystr_eq_dec seg dotdot then removelast cur else cur ++ [seg]) p'
  end.

Definition locate (p : path) : loc := norm [] p.

(** Paths without [..], as [Path.resolve] and [rglob] give them. *)
Definition clean (p : path) : Prop := ~ In dotdot p.

(** The same, as a test. *)
Definition cleanb (p : path) : bool := negb (existsb (pystr_eqb dotdot) p).

(** [l] is [root] or lies below it. *)
Definition under (root l : loc) : Prop := exists q, l = root ++ q.

(** [l] lies strictly below [root]. *)
Definition below (root l : loc) : Prop := exists q, q <> [] /\ l = root ++ q.

(** A regular file lies at [l]. *)
Definition is_file (f : fs) (l : loc) : Prop :=
  exists data, node_at f l = Some (File data).

(** Trees that keep every entry of [f]. *)
Definition extends (f f' : fs) : Prop := forall l, f l <> None -> f' l = f l.

(** [p.exists()] *)
Definition exists_ (p : path) : M bool :=
  fun f => match resolve f [] p with
           | inr l => (inr (match node_at f l with Some _ => true | None => false end), f)
           | inl _ => (inr false, f)
           end.

(** [p.is_dir()] *)
Definition is_dir (p : path) : M bool :=
  fun f => match resolve f [] p with
           | inr l => (inr (match node_at f l with Some Dir => true | _ => false end), f)
           | inl _ => (inr false, f)
           end.

(** [p.mkdir(parents=True, exist_ok=True)]: walk down [p] from [cur],
    creating the directories that are missing. *)
Fixpoint mkdirs (cur : loc) (p : path) : M unit :=
  match p with
  | [] => ret tt
  | seg :: p' =>
      if pystr_eq_dec seg dotdot then mkdirs (removelast cur) p'
      else
        let next := cur ++ [seg] in
        fun f =>
          match node_at f next with
          | Some Dir => mkdirs next p' f
          | Some (File _) => (inl NotADirectoryError, f)
          | None => mkdirs next p' (update f next (Some Dir))
          end
  end.

Definition mkdir_parents (p : path) : M unit := mkdirs [] p.

(** Opening [p] for writing and storing [data]: [p.write_text(data)]. *)
Definition write_text (p : path) (data : pystr) : M unit :=
  fun f => match resolve f [] p with
           | inl e => (inl e, f)
           | inr l =>
               match node_at f l with
               | Some Dir => (inl IsADirectoryError, f)
               | _ => (inr tt, update f l (Some (File data)))
               end
           end.

(** Opening [p] for reading. *)
Definition read (p : path) : M pystr :=
  fun f => match resolve f [] p with
           | inl e => (inl e, f)
           | inr l =>
               match node_at f l with
               | Some (File data) => (inr data, f)
               | Some Dir => (inl IsADirectoryError, f)
               | None => (inl FileNotFoundError, f)
               end
           end.

(** [p.unlink()] *)
Definition unlink (p : path) : M unit :=
  fun f => match resolve f [] p with
           | inl e => (inl e, f)
           | inr l =>
               match node_at f l with
               | Some (File _) => (inr tt, update f l None)
               | Some Dir => (inl IsADirectoryError, f)
               | None => (inl FileNotFoundError, f)
               end
           end.

(** [os.path.samefile] as [shutil] uses it: false when either is missing. *)
Definition samefile (a b : path) : M bool :=
  fun f => match resolve f [] a, resolve f [] b with
           | inr la, inr lb =>
               (inr (match node_at f la, node_at f lb with
                     | Some _, Some _ => if path_eq_dec la lb then true else false
                     | _, _ => false
                     end), f)
           | _, _ => (inr false, f)
           end.

(** [shutil.copy2(src, dst)]: into [dst] when it is a directory, refusing to
    copy a file onto itself; the metadata it also copies is not modelled. *)
Definition copy2 (src dst : path) : M unit :=
  d <- is_dir dst ;;
  let dst := if d then dst ++ [name src] else dst in
  same <- samefile src dst ;;
  if same then raise SameFileError
  else data <- read src ;; write_text dst data.

End Os.
Import Os.

(* ------------------------------------------------------------------ *)
(** ** [iter_source_files] and [step_apply_changes] *)

Module Applier.

Definition IGNORE_DIRS : list pystr :=
  map lit ["node_modules"; ".git"; ".expo"; "dist"; "build";
           ".next"; "__pycache__"; ".convex"; ".cache"; "android"; "ios"]%string.

Definition IGNORE_EXTENSIONS : list pystr :=
  map lit [".png"; ".jpg"; ".jpeg"; ".gif"; ".ico"; ".ttf"; ".otf";
           ".woff"; ".woff2"; ".mp4"; ".mp3"; ".zip"; ".tar"; ".gz";
           ".lock"]%string.

Definition mem (s : pystr) (l : list pystr) : bool := existsb (pystr_eqb s) l.

(** The two static tests of [iter_source_files] on one path. *)
Definition ignored (p : path) : bool :=
  existsb (fun part => mem part IGNORE_DIRS) p || mem (suffix p) IGNORE_EXTENSIONS.

(** [iter_source_files(root)] run to the end on the tree [f], where
    [listing] is [sorted(root.rglob("*"))]. *)
Definition enumerated (f : fs) (p : path) : bool :=
  negb (match is_dir p f with (inr b, _) => b | _ => false end)
  && negb (ignored p).

Definition iter_source_files (listing : list path) (f : fs) : list path :=
  filter (enumerated f) listing.

Record stats := Stats { copied : nat; written : nat; deleted : nat; skipped : nat }.

Definition inc_copied (st : stats) := Stats (S (copied st)) (written st) (deleted st) (skipped st).
Definition inc_written (st : stats) := Stats (copied st) (S (written st)) (deleted st) (skipped st).
Definition inc_deleted (st : stats) := Stats (copied st) (written st) (S (deleted st)) (skipped st).
Definition inc_skipped (st : stats) := Stats (copied st) (written st) (deleted st) (S (skipped st)).

Definition convex : segment := lit "convex".

Definition is_action (a : action) (c : change) : bool :=
  match a, c_action c with
  | write, write => true
  | delete, delete => true
  | _, _ => false
  end.

(** [rel.parts and rel.parts[0] == "convex"] *)
Definition under_convex (rel : path) : bool :=
  match rel with
  | part0 :: _ => pystr_eqb part0 convex
  | [] => false
  end.

(** Step 1: the loop over the generator.  The generator is consumed while
    the loop runs, so its [is_dir] test sees the tree as it is then. *)
Fixpoint copy_loop (source_root target_root : path) (listing : list path)
         (st : stats) : M stats :=
  match listing with
  | [] => ret st
  | src_file :: more =>
      d <- is_dir src_file ;;
      if d || ignored src_file then copy_loop source_root target_root more st
      else
        rel <- relative_to src_file source_root ;;
        if under_convex rel then copy_loop source_root target_root more st
        else
          let dest := target_root ++ rel in
          mkdir_parents (parent dest) ;;;
          copy2 src_file dest ;;;
          copy_loop source_root target_root more (inc_copied st)
  end.

(** Step 2: the loop over [all_changes]. *)
Fixpoint apply_loop (target_root : path) (all_changes : list change)
         (st : stats) : M stats :=
  match all_changes with
  | [] => ret st
  | change :: more =>
      let dest := joinpath target_root (c_path change) in
      match c_action change with
      | write =>
          mkdir_parents (parent dest) ;;;
          write_text dest (c_content change) ;;;
          apply_loop target_root more (inc_written st)
      | delete =>
          e <- exists_ dest ;;
          if e then unlink dest ;;; apply_loop target_root more (inc_deleted st)
          else apply_loop target_root more (inc_skipped st)
      end
  end.

Definition step_apply_changes (source_root target_root : path)
           (listing : list path) (all_changes : list change) (dry_run : bool)
  : M stats :=
  let st := Stats 0 0 0 0 in
  if dry_run then
    ret (Stats (copied st)
               (length (filter (is_action write) all_changes))
               (length (filter (is_action delete) all_changes))
               (skipped st))
  else
    st <- copy_loop source_root target_root listing st ;;
    apply_loop target_root all_changes st.

(** *** Notions used in the statements about the copy loop *)

(** The body of that loop for one path: was the file copied? *)
Definition copy_one (source_root target_root src_file : path) : M bool :=
  d <- is_dir src_file ;;
  if d || ignored src_file then ret false
  else
    rel <- relative_to src_file source_root ;;
    if under_convex rel then ret false
    else
      let dest := target_root ++ rel in
      mkdir_parents (parent dest) ;;;
      copy2 src_file dest ;;;
      ret true.

(** What [rglob] yields: paths strictly below the root, without [..]. *)
Definition listed_below (source_root : path) (listing : list path) : Prop :=
  Forall (fun e => exists rel, e = source_root ++ rel /\ rel <> [] /\ clean rel)
         listing.

(** The enumerated files outside the legacy backend directory. *)
Definition to_copy (source_root : path) (listing : list path) (f : fs)
  : list path :=
  filter (fun e => match strip_prefix source_root e with
                   | Some rel => negb (under_convex rel)
                   | None => true
                   end)
         (iter_source_files listing f).

(** The state of the tree while the copy loop runs from the tree [f0] with
    an empty target: what [f0] held is still there; a directory that [f0]
    did not hold lies on the way to the target root or to the copy of a
    listed path; the files of [done] that were due have their copy. *)
Definition dirs_accounted (source_root target_root : path)
           (listing : list path) (f0 f : fs) : Prop :=
  forall l, f l = Some Dir ->
    f0 l = Some Dir \/
    (exists q, target_root = l ++ q) \/
    (exists rel a q, In (source_root ++ rel) listing /\
                     rel = a ++ q /\ q <> [] /\ l = target_root ++ a).

Definition copies_present (source_root target_root : path)
           (done : list path) (f0 f : fs) : Prop :=
  forall e rel, In e done -> e = source_root ++ rel ->
    under_convex rel = false -> enumerated f0 e = true ->
    exists d, read e f0 = (inr d, f0) /\
              read (target_root ++ rel) f = (inr d, f).

(** A file that [f0] did not hold is the copy of a listed file. *)
Definition files_accounted (source_root target_root : path)
           (listing : list path) (f0 f : fs) : Prop :=
  forall l d, f l = Some (File d) ->
    f0 l <> None \/
    (exists rel, In (source_root ++ rel) listing /\
                 fst (is_dir (source_root ++ rel) f0) = inr false /\
                 l = target_root ++ rel).

Definition copy_inv (source_root target_root : path) (listing done : list path)
           (f0 f : fs) : Prop :=
  extends f0 f /\
  dirs_accounted source_root target_root listing f0 f /\
  files_accounted source_root target_root listing f0 f /\
  copies_present source_root target_root done f0 f.

(** [listed_below], as a test. *)
Definition listed_belowb (source_root : path) (listing : list path) : bool :=
  forallb (fun e => match strip_prefix source_root e with
                    | Some (part0 :: rel) => cleanb (part0 :: rel)
                    | _ => false
                    end) listing.

End Applier.
Import Applier.

(* ------------------------------------------------------------------ *)
(** ** A small project, used to exercise the statements *)

Module Sample.

Definition pth (s : string) : path := parts_of (lit s).

(** A tree given by its entries. *)
Definition tree (entries : list (path * node)) : fs :=
  fold_right (fun e f => update f (fst e) (Some (snd e))) empty entries.

Definition source_root : path := pth "/work/app".
Definition target_root : path := pth "/work/out".

Definition disk : fs :=
  tree [ (pth "/work", Dir);
         (pth "/work/app", Dir);
         (pth "/work/app/App.tsx", File (lit "import { useQuery } from 'convex/react'"));
         (pth "/work/app/convex", Dir);
         (pth "/work/app/convex/schema.ts", File (lit "defineSchema"));
         (pth "/work/app/package.json", File (lit "{}"));
         (pth "/work/out", Dir) ].

(** [sorted(source_root.rglob("*"))] on that tree. *)
Definition listing : list path :=
  [ pth "/work/app/App.tsx"; pth "/work/app/convex";
    pth "/work/app/convex/schema.ts"; pth "/work/app/package.json" ].

Definition plan : list change :=
  [ Change write (lit "supabase/config.ts") (lit "v1");
    Change write (lit "supabase/config.ts") (lit "v2");
    Change delete (lit "App.tsx") [];
    Change delete (lit "missing.ts") [] ].

(** The tree once the copy step has run. *)
Definition copied_tree : fs :=
  snd (copy_loop source_root target_root listing (Stats 0 0 0 0) disk).

End Sample.


(* ------------------------------------------------------------------ *)
(** ** Substrings *)

Module Text.

(** [hay.startswith(needle)] *)
Fixpoint starts_with (needle hay : pystr) : bool :=
  match needle, hay with
  | [], _ => true
  | c :: needle', d :: hay' => char_eqb c d && starts_with needle' hay'
  | _ :: _, [] => false
  end.

(** [needle in hay] for two strings. *)
Fixpoint contains (needle hay : pystr) : bool :=
  match hay with
  | [] => starts_with needle []
  | _ :: hay' => starts_with needle hay || contains needle hay'
  end.

(** [needle] lies somewhere in [hay]. *)
Definition occurs (needle hay : pystr) : Prop :=
  exists pre post, hay = pre ++ needle ++ post.

(** A text that neither starts nor ends with white space. *)
Definition trimmed (s : pystr) : Prop :=
  match s with c :: _ => is_space c = false | [] => True end /\
  match rev s with c :: _ => is_space c = false | [] => True end.

(** The tag that closes a write-marker. *)
Definition closing_tag : pystr := lit "</FILE>".

End Text.
Import Text.
(* ------------------------------------------------------------------ *)
(** ** Notions used in the statements about the retry loop *)

Module Budget.

(** What a run of the loop adds to the world, whatever the service. *)
Definition within (retries : Z) (budget : nat) (w w' : world) : Prop :=
  issued w <= issued w' <= issued w + budget /\
  posts w' = posts w + (issued w' - issued w) /\
  (exists evs, trace w' = trace w ++ evs) /\
  exists new, sleeps w' = sleeps w ++ new /\
              length new <= issued w' - issued w /\
              Forall (fun n => (3 <= n <= 10 * retries)%Z) new.

End Budget.
Import Budget.
(* ------------------------------------------------------------------ *)
(** ** [batch] *)

Module Batch.

(** [range(start, stop, step)]: a zero step raises [ValueError]. *)
Definition range3 (start stop step : Z) : exn + list Z :=
  if (step =? 0)%Z then inl ValueError
  else
    let count :=
      (if 0 <? step then (stop - start + step - 1) / step
       else (start - stop - step - 1) / (- step))%Z in
    inr (map (fun k => start + Z.of_nat k * step)%Z (seq 0 (Z.to_nat count))).

(** [items[i:j]] for [0 <= i] and [0 <= j]: the bounds are clipped to the
    list. *)
Definition slice {A} (items : list A) (i j : Z) : list A :=
  firstn (Z.to_nat j - Z.to_nat i) (skipn (Z.to_nat i) items).

(** [list(batch(items, size))] *)
Definition batch {A} (items : list A) (size : Z) : exn + list (list A) :=
  match range3 0 (Z.of_nat (length items)) size with
  | inl e => inl e
  | inr starts => inr (map (fun i => slice items i (i + size)) starts)
  end.

End Batch.
Import Batch.
(* ------------------------------------------------------------------ *)
(** ** [read_file_safe] and [uses_convex] *)

Module Reader.

(** What the interpreter and the operating system decide: the size that
    [stat] reports for a directory, and the text of an exception raised
    for a path. *)
Record platform := Platform {
  dir_size : N;
  message : exn -> path -> pystr
}.

(** Decimal digits, as an f-string prints an [int]. *)
Fixpoint digits (u : Decimal.uint) : pystr :=
  match u with
  | Decimal.Nil => []
  | Decimal.D0 u' => 48%N :: digits u'
  | Decimal.D1 u' => 49%N :: digits u'
  | Decimal.D2 u' => 50%N :: digits u'
  | Decimal.D3 u' => 51%N :: digits u'
  | Decimal.D4 u' => 52%N :: digits u'
  | Decimal.D5 u' => 53%N :: digits u'
  | Decimal.D6 u' => 54%N :: digits u'
  | Decimal.D7 u' => 55%N :: digits u'
  | Decimal.D8 u' => 56%N :: digits u'
  | Decimal.D9 u' => 57%N :: digits u'
  end.

Definition decimal (n : N) : pystr := digits (N.to_uint n).

(** Bytes of one code point in UTF-8; the files hold text in that
    encoding. *)
Definition utf8_len (c : char) : N :=
  if (c <? 128)%N then 1 else if (c <? 2048)%N then 2
  else if (c <? 65536)%N then 3 else 4.

Definition utf8_size (data : pystr) : N :=
  fold_right (fun c n => (utf8_len c + n)%N) 0%N data.

(** [p.stat().st_size] *)
Definition stat_size (pf : platform) (p : path) : M N :=
  fun f => match resolve f [] p with
           | inl e => (inl e, f)
           | inr l =>
               match node_at f l with
               | Some (File data) => (inr (utf8_size data), f)
               | Some Dir => (inr (dir_size pf), f)
               | None => (inl FileNotFoundError, f)
               end
           end.

(** Reading in text mode turns [\r\n] and a lone [\r] into [\n]. *)
Fixpoint universal_newlines (s : pystr) : pystr :=
  match s with
  | [] => []
  | c :: s' =>
      if (c =? 13)%N then
        10%N :: match s' with
                | d :: s'' => if (d =? 10)%N then universal_newlines s''
                              else universal_newlines s'
                | [] => []
                end
      else c :: universal_newlines s'
  end.

(** [p.read_text(encoding="utf-8", errors="replace")] *)
Definition read_text (p : path) : M pystr :=
  data <- read p ;; ret (universal_newlines data).

Definition too_large (size : N) : pystr :=
  lit "[FILE TOO LARGE: " ++ decimal size ++ lit " bytes, skipped]".

Definition error_reading (pf : platform) (e : exn) (p : path) : pystr :=
  lit "[ERROR READING: " ++ message pf e p ++ lit "]".

(** The body of the [try], and the handler that turns every exception
    into a text. *)
Definition read_file_safe (pf : platform) (p : path) (max_bytes : Z) : M pystr :=
  fun f =>
    match (size <- stat_size pf p ;;
           if (max_bytes <? Z.of_N size)%Z then ret (too_large size)
           else read_text p) f with
    | (inr text, f') => (inr text, f')
    | (inl e, f') => (inr (error_reading pf e p), f')
    end.

Definition default_max_bytes : Z := 80000.

Definition convex_markers : list pystr :=
  [ lit "from 'convex"; lit "from " ++ [dquote] ++ lit "convex";
    lit "useQuery"; lit "useMutation"; lit "useAction";
    lit "ConvexProvider"; lit "ConvexReactClient";
    lit "api."; lit "convex/" ].

Definition uses_convex (content : pystr) : bool :=
  existsb (fun marker => contains marker content) convex_markers.

End Reader.
Import Reader.

(* ------------------------------------------------------------------ *)
(** ** [step_analyze] *)

Module Analysis.

Definition CODE_EXTENSIONS : list pystr :=
  map lit [".ts"; ".tsx"; ".js"; ".jsx"; ".json"; ".md";
           ".env"; ".example"; ".sql"]%string.

(** [sep.join(parts)] *)
Fixpoint join (sep : pystr) (parts : list pystr) : pystr :=
  match parts with
  | [] => []
  | p :: rest =>
      match rest with
      | [] => p
      | _ :: _ => p ++ sep ++ join sep rest
      end
  end.

(** [str(rel)] for a relative path. *)
Definition path_str (rel : path) : pystr :=
  match rel with
  | [] => lit "."
  | _ :: _ => join [slash] rel
  end.

(** [str(rel).split("/")[0]] *)
Definition first_component (rel : path) : pystr :=
  hd [] (split_on slash (path_str rel)).

(** A list comprehension with a condition that reads the tree. *)
Fixpoint filterM {A} (test : A -> M bool) (l : list A) : M (list A) :=
  match l with
  | [] => ret []
  | x :: l' =>
      b <- test x ;;
      rest <- filterM test l' ;;
      ret (if b then x :: rest else rest)
  end.

(** The conditions of the two comprehensions. *)
Definition is_backend (source_root f : path) : M bool :=
  rel <- relative_to f source_root ;;
  ret (contains convex (first_component rel)).

Definition is_candidate (pf : platform) (f : path) : M bool :=
  if mem (suffix f) CODE_EXTENSIONS then
    content <- read_file_safe pf f default_max_bytes ;;
    ret (uses_convex content)
  else ret false.

(** The value of a condition on the tree [f]; an exception counts as
    false. *)
Definition holds (test : M bool) (f : fs) : bool :=
  match fst (test f) with
  | inr b => b
  | inl _ => false
  end.

Record analysis := Analysis {
  all_files : list path;
  convex_files : list path;
  convex_using : list path
}.

(** [step_analyze(source_root)], where [listing] is
    [sorted(source_root.rglob("*"))]. *)
Definition step_analyze (pf : platform) (source_root : path)
           (listing : list path) : M analysis :=
  fun f =>
    let all_files := iter_source_files listing f in
    (convex_files <- filterM (is_backend source_root) all_files ;;
     convex_using <- filterM (is_candidate pf) all_files ;;
     ret (Analysis all_files convex_files convex_using)) f.

End Analysis.
Import Analysis.

(* ------------------------------------------------------------------ *)
(** ** A second project, used to exercise the statements on the analysis *)

Module Project.

(** A project with a dotfile, a large file and a directory whose name
    only contains the word. *)
Definition posix : platform := Platform 4096 (fun _ _ => lit "error").

(** Eighty thousand blanks. *)
Definition padding : pystr := repeat 32%N (Z.to_nat default_max_bytes).

Definition project : fs :=
  Sample.tree
    [ (Sample.pth "/work", Dir);
      (Sample.pth "/work/app", Dir);
      (Sample.pth "/work/app/.env", File (lit "URL=https://api.example.dev"));
      (Sample.pth "/work/app/App.tsx",
       File (lit "import { useQuery } from 'convex/react'"));
      (Sample.pth "/work/app/convex", Dir);
      (Sample.pth "/work/app/convex/schema.ts", File (lit "defineSchema"));
      (Sample.pth "/work/app/myconvex", Dir);
      (Sample.pth "/work/app/myconvex/util.ts", File (lit "export const x = 1"));
      (Sample.pth "/work/app/notes.md", File (lit "useQuery" ++ padding)) ].

Definition project_listing : list path :=
  [ Sample.pth "/work/app/.env"; Sample.pth "/work/app/App.tsx";
    Sample.pth "/work/app/convex"; Sample.pth "/work/app/convex/schema.ts";
    Sample.pth "/work/app/myconvex"; Sample.pth "/work/app/myconvex/util.ts";
    Sample.pth "/work/app/notes.md" ].

End Project.
Import Project.
(* ------------------------------------------------------------------ *)
(** ** [build_context_summary] *)

Module Context.

Definition newline : char := 10%N.

Definition priority_files : list pystr :=
  map lit ["package.json"; "app.json"; "tsconfig.json";
           "App.tsx"; "app/_layout.tsx"; "app/index.tsx"]%string.

Definition truncated_mark : pystr := newline :: lit "...[truncated]".

(** The text appended to [parts] for one file. *)
Definition section (name content : pystr) : pystr :=
  lit "=== " ++ name ++ lit " ===" ++ [newline] ++ content.

(** [content[:limit] + mark] when [content] is longer than [limit]. *)
Definition clip (limit : nat) (mark content : pystr) : pystr :=
  if limit <? length content then firstn limit content ++ mark else content.

(** The loop over [priority_files]: the list [parts] it builds. *)
Fixpoint context_parts (pf : platform) (source_root : path)
         (names : list pystr) : M (list pystr) :=
  match names with
  | [] => ret []
  | name :: more =>
      let p := joinpath source_root name in
      e <- exists_ p ;;
      if e then
        content <- read_file_safe pf p default_max_bytes ;;
        let content := clip 2000 truncated_mark content in
        rest <- context_parts pf source_root more ;;
        ret (section name content :: rest)
      else context_parts pf source_root more
  end.

Definition build_context_summary (pf : platform) (source_root : path) : M pystr :=
  parts <- context_parts pf source_root priority_files ;;
  let summary := join [newline; newline] parts in
  ret (clip 4000 [] summary).

End Context.
Import Context.
(* ------------------------------------------------------------------ *)
(** ** Notions used in the statements about the apply step *)

Module Safety.

(** The path of an operation is relative and does not climb above the
    directory it is joined to. *)
Definition stays_inside (c : change) : Prop :=
  leading_separator (c_path c) = false /\ escapes_root (c_path c) = false.

(** From [f] to [f'] nothing changed outside [root], and no directory
    was removed or replaced. *)
Definition confined (root : loc) (f f' : fs) : Prop :=
  (forall l, ~ under root l -> f' l = f l) /\
  (forall l, f l = Some Dir -> f' l = Some Dir).

(** The root and the directories that lead to it are there. *)
Definition rooted (root : loc) (f : fs) : Prop :=
  forall q x, root = q ++ x -> node_at f q = Some Dir.

End Safety.
Import Safety.
(* ------------------------------------------------------------------ *)
(** ** [step_migrate_files] *)

Module Migration.

(** [REQUEST_DELAY_SECONDS], 1.0 in the source. *)
Definition REQUEST_DELAY_SECONDS : Z := 1.

(** The service as a call sees it: its answer to the n-th request, given
    the system text and the user text of the request. *)
Definition prompted_service := nat -> pystr -> pystr -> response.

(** What ends a step early: an exception of the client or of the path
    and file operations. *)
Inductive run_error :=
| ApiError (e : Client.exn)
| OsError (e : Fs.exn).

(** The inner loop: one section per file of the batch. *)
Fixpoint files_content (pf : platform) (source_root : path)
         (file_batch : list path) : M (list pystr) :=
  match file_batch with
  | [] => ret []
  | f :: more =>
      rel <- relative_to f source_root ;;
      content <- read_file_safe pf f default_max_bytes ;;
      rest <- files_content pf source_root more ;;
      ret (section (path_str rel) content :: rest)
  end.

Definition migrate_prompt (context_summary : pystr) (files : list pystr) : pystr :=
  lit "## Project context (for reference)" ++ [newline]
  ++ context_summary ++ [newline; newline]
  ++ lit "---" ++ [newline; newline]
  ++ lit "## Files to migrate" ++ [newline; newline]
  ++ lit "Migrate each of the following files from Convex to Supabase." ++ [newline]
  ++ lit "Import the Supabase client from `../../supabase/config` (adjust relative path as needed)."
  ++ [newline]
  ++ lit "Import types from `../../supabase/types` (adjust relative path as needed)."
  ++ [newline; newline]
  ++ join [newline] files.

(** The loop over the batches.  The files are only read, so the tree [f]
    is the same throughout; the world records the requests and the
    sleeps. *)
Fixpoint migrate_batches (svc : prompted_service) (pf : platform)
         (SYSTEM_PROMPT : pystr) (source_root : path) (context_summary : pystr)
         (file_batches : list (list path)) (all_changes : list change)
         (f : fs) (w : world) : (run_error + list change) * world :=
  match file_batches with
  | [] => (inr all_changes, w)
  | file_batch :: more =>
      match fst (files_content pf source_root file_batch f) with
      | inl e => (inl (OsError e), w)
      | inr files =>
          let prompt := migrate_prompt context_summary files in
          match call_cursor_api (fun n => svc n SYSTEM_PROMPT prompt)
                                default_retries w with
          | (Raised e, w1) => (inl (ApiError e), w1)
          | (Returned response, w1) =>
              let changes := parse_file_blocks response in
              migrate_batches svc pf SYSTEM_PROMPT source_root context_summary
                              more (all_changes ++ changes) f
                              (sleep REQUEST_DELAY_SECONDS w1)
          end
      end
  end.

Definition step_migrate_files (svc : prompted_service) (pf : platform)
           (SYSTEM_PROMPT : pystr) (source_root : path)
           (convex_using : list path) (context_summary : pystr)
           (f : fs) (w : world) : (run_error + list change) * world :=
  match batch convex_using 5 with
  | inl e => (inl (OsError e), w)
  | inr file_batches =>
      migrate_batches svc pf SYSTEM_PROMPT source_root context_summary
                      file_batches [] f w
  end.

(** What one round of the loop adds to the record when the request is
    answered at once, and when every attempt is rate limited. *)
Definition answered_round : list event := [Post; Sleep REQUEST_DELAY_SECONDS].

Definition rate_limited_round : list event :=
  [Post; Sleep 10; Post; Sleep 20; Post; Sleep 30; Sleep REQUEST_DELAY_SECONDS].

End Migration.
Import Migration.
(* ------------------------------------------------------------------ *)
(** ** [step_generate_schema] *)

Module Schema.

Definition emdash : char := 8212%N.
Definition arrow : char := 8594%N.

(** [convex_content]: the sections of the files of [ts_listing], which is
    [sorted(convex_dir.rglob("*.ts"))], or one of two notes. *)
Definition convex_content (pf : platform) (source_root : path)
           (ts_listing : list path) : M pystr :=
  let convex_dir := joinpath source_root (lit "convex") in
  e <- exists_ convex_dir ;;
  if negb e then ret (lit "(No convex/ directory found)")
  else
    parts <- files_content pf source_root ts_listing ;;
    ret (match parts with
         | [] => lit "(convex/ is empty)"
         | _ :: _ => join [newline; newline] parts
         end).

Definition schema_prompt (pkg_json app_json convex_content : pystr) : pystr :=
  lit "Analyze this Convex backend and generate the complete Supabase foundation files."
  ++ [newline; newline]
  ++ lit "## package.json" ++ [newline] ++ pkg_json ++ [newline; newline]
  ++ lit "## app.json" ++ [newline] ++ app_json ++ [newline; newline]
  ++ lit "## Convex backend files" ++ [newline] ++ convex_content
  ++ [newline; newline]
  ++ lit "Please generate ALL of the following files:" ++ [newline]
  ++ lit "1. `supabase/migrations/001_initial.sql` " ++ [emdash]
  ++ lit " Full schema with CREATE TABLE, RLS policies, and indexes" ++ [newline]
  ++ lit "2. `supabase/types.ts` " ++ [emdash]
  ++ lit " TypeScript types matching every table" ++ [newline]
  ++ lit "3. `supabase/config.ts` " ++ [emdash]
  ++ lit " Supabase client singleton (use EXPO_PUBLIC_ prefixed env vars for Expo)"
  ++ [newline]
  ++ lit "4. `.env.example` " ++ [emdash]
  ++ lit " Template with EXPO_PUBLIC_SUPABASE_URL and EXPO_PUBLIC_SUPABASE_ANON_KEY"
  ++ [newline]
  ++ lit "5. Updated `package.json` " ++ [emdash]
  ++ lit " Remove convex packages, add @supabase/supabase-js".

(** The three reads that feed the prompt. *)
Definition schema_inputs (pf : platform) (source_root : path)
           (ts_listing : list path) : M pystr :=
  content <- convex_content pf source_root ts_listing ;;
  pkg_json <- read_file_safe pf (joinpath source_root (lit "package.json"))
                             default_max_bytes ;;
  let app_json_path := joinpath source_root (lit "app.json") in
  e <- exists_ app_json_path ;;
  app_json <- (if e then read_file_safe pf app_json_path default_max_bytes
               else ret []) ;;
  ret (schema_prompt pkg_json app_json content).

Definition step_generate_schema (svc : prompted_service) (pf : platform)
           (SYSTEM_PROMPT : pystr) (source_root : path) (ts_listing : list path)
           (f : fs) (w : world) : (run_error + list change) * world :=
  match fst (schema_inputs pf source_root ts_listing f) with
  | inl e => (inl (OsError e), w)
  | inr prompt =>
      match call_cursor_api (fun n => svc n SYSTEM_PROMPT prompt)
                            default_retries w with
      | (Raised e, w1) => (inl (ApiError e), w1)
      | (Returned response, w1) => (inr (parse_file_blocks response), w1)
      end
  end.

End Schema.
Import Schema.

(* ------------------------------------------------------------------ *)
(** ** [write_report] *)

Module Report.

(** [str(b)] for a [bool]. *)
Definition bool_str (b : bool) : pystr := if b then lit "True" else lit "False".

(** [str(p)] for an absolute path. *)
Definition abs_path_str (p : path) : pystr := slash :: join [slash] p.

Definition count (n : nat) : pystr := decimal (N.of_nat n).

Definition listed (c : change) : pystr := lit "- `" ++ c_path c ++ lit "`".

Definition report_lines (source_root : path) (all_changes : list change)
           (st : stats) (dry_run : bool) : list pystr :=
  let written := filter (is_action write) all_changes in
  let deleted := filter (is_action delete) all_changes in
  [ lit "# Migration Report: Convex " ++ [arrow] ++ lit " Supabase";
    [];
    lit "**Source:** `" ++ abs_path_str source_root ++ lit "`";
    lit "**Dry run:** `" ++ bool_str dry_run ++ lit "`";
    [];
    lit "## Summary";
    [];
    lit "| Action | Count |";
    lit "|--------|-------|";
    lit "| Files copied (unchanged) | " ++ count (Applier.copied st) ++ lit " |";
    lit "| Files written/created by AI | " ++ count (Applier.written st) ++ lit " |";
    lit "| Files deleted | " ++ count (Applier.deleted st) ++ lit " |";
    [];
    lit "## Files Created / Modified";
    [] ]
  ++ map listed written
  ++ match deleted with
     | [] => []
     | _ :: _ => [ []; lit "## Files Deleted"; [] ] ++ map listed deleted
     end
  ++ [ [];
       lit "## Next Steps";
       [];
       lit "1. Create a Supabase project at https://supabase.com";
       lit "2. Run `supabase/migrations/001_initial.sql` in the SQL Editor";
       lit "3. Copy `.env.example` " ++ [arrow]
         ++ lit " `.env` and fill in your Supabase credentials";
       lit "4. Run `npm install` then `npx expo start`";
       lit "5. Review RLS policies in the migration SQL " ++ [emdash]
         ++ lit " tighten as needed" ].

(** The report goes to the working directory [cwd]. *)
Definition report_path (cwd : path) : path :=
  joinpath cwd (lit "migration_report.md").

Definition write_report (cwd source_root : path) (all_changes : list change)
           (st : stats) (dry_run : bool) : M unit :=
  write_text (report_path cwd)
             (join [newline] (report_lines source_root all_changes st dry_run)).

End Report.

(* ------------------------------------------------------------------ *)
(** ** [main] *)

Module Main.
Import Report.

(** How a run ends: it returns, [sys.exit] is called, or an exception
    leaves it. *)
Inductive ending :=
| Finished (st : stats)
| Exited (code : Z)
| Crashed (e : run_error).

(** What a run is given: the service, the platform, the system prompt,
    the working directory, the two roots after [resolve()], the flag, the
    key, and the two directory listings. *)
Record setting := Setting {
  svc : prompted_service;
  pf : platform;
  SYSTEM_PROMPT : pystr;
  cwd : path;
  source_root : path;
  target_root : path;
  dry_run : bool;
  api_key : pystr;
  listing : list path;       (* sorted(source_root.rglob("*")) *)
  ts_listing : list path     (* sorted((source_root / "convex").rglob("*.ts")) *)
}.

(** The same setting with another value of the flag. *)
Definition with_dry_run (b : bool) (s : setting) : setting :=
  Setting (svc s) (pf s) (SYSTEM_PROMPT s) (cwd s) (source_root s)
          (target_root s) b (api_key s) (listing s) (ts_listing s).

(** Steps 5 and 6. *)
Definition apply_and_report (s : setting) (all_changes : list change)
           (f : fs) : ending * fs :=
  match step_apply_changes (source_root s) (target_root s) (listing s)
                           all_changes (dry_run s) f with
  | (inl e, f1) => (Crashed (OsError e), f1)
  | (inr st, f1) =>
      match write_report (cwd s) (source_root s) all_changes st (dry_run s) f1 with
      | (inl e, f2) => (Crashed (OsError e), f2)
      | (inr _, f2) => (Finished st, f2)
      end
  end.

(** Steps 3 and 4: the changes that the service proposes. *)
Definition gather_changes (s : setting) (convex_using : list path)
           (context_summary : pystr) (f : fs) (w : world)
  : (run_error + list change) * world :=
  match step_generate_schema (svc s) (pf s) (SYSTEM_PROMPT s) (source_root s)
                             (ts_listing s) f w with
  | (inl e, w1) => (inl e, w1)
  | (inr schema_changes, w1) =>
      let w2 := sleep REQUEST_DELAY_SECONDS w1 in
      match step_migrate_files (svc s) (pf s) (SYSTEM_PROMPT s) (source_root s)
                               convex_using context_summary f w2 with
      | (inl e, w3) => (inl e, w3)
      | (inr app_changes, w3) => (inr (schema_changes ++ app_changes), w3)
      end
  end.

(** [main] once the arguments are parsed.  The analysis and the context
    summary only read the tree; the requests are recorded in the world; the
    tree changes in steps 5 and 6 only. *)
Definition main (s : setting) (f : fs) (w : world) : ending * fs * world :=
  match api_key s with
  | [] => (Exited 1, f, w)
  | _ :: _ =>
      match fst (step_analyze (pf s) (source_root s) (listing s) f) with
      | inl e => (Crashed (OsError e), f, w)
      | inr analysis =>
          match convex_files analysis, convex_using analysis with
          | [], [] => (Exited 0, f, w)
          | _, _ =>
              match fst (build_context_summary (pf s) (source_root s) f) with
              | inl e => (Crashed (OsError e), f, w)
              | inr context_summary =>
                  match gather_changes s (convex_using analysis)
                                       context_summary f w with
                  | (inl e, w') => (Crashed e, f, w')
                  | (inr all_changes, w') =>
                      let (r, f') := apply_and_report s all_changes f in
                      (r, f', w')
                  end
              end
          end
      end
  end.

(** A run on the project of the analysis examples, against a service that
    rate limits every request. *)
Definition rate_limited_setting : setting :=
  Setting (fun _ _ _ => HttpError 429) posix (lit "system")
          (Sample.pth "/work") Sample.source_root Sample.target_root
          false (lit "key") project_listing
          [Sample.pth "/work/app/convex/schema.ts"].

(** The same run without a key. *)
Definition no_key_setting : setting :=
  Setting (fun _ _ _ => HttpError 429) posix (lit "system")
          (Sample.pth "/work") Sample.source_root Sample.target_root
          false [] project_listing
          [Sample.pth "/work/app/convex/schema.ts"].

(** A project that has nothing to do with Convex, and a run on it with a
    key and a service that would answer. *)
Definition plain_project : fs :=
  Sample.tree
    [ (Sample.pth "/work", Dir);
      (Sample.pth "/work/app", Dir);
      (Sample.pth "/work/app/README.md", File (lit "A plain project."));
      (Sample.pth "/work/app/index.ts", File (lit "export const answer = 42"));
      (Sample.pth "/work/out", Dir) ].

Definition plain_setting : setting :=
  Setting (fun _ _ _ => Completed (lit "nothing to do")) posix (lit "system")
          (Sample.pth "/work") Sample.source_root Sample.target_root
          false (lit "key")
          [Sample.pth "/work/app/README.md"; Sample.pth "/work/app/index.ts"]
          [].

End Main.


(* ================================================================== *)
(** * Properties *)

(* ------------------------------------------------------------------ *)
(** ** Strings *)

Section StripFacts.

Variable p : char -> bool.

Lemma lstrip_by_head (s : pystr) :
  match lstrip_by p s with
  | c :: _ => p c = false
  | [] => True
  end.
Proof.
  induction s as [|c s IH]; simpl; auto.
  destruct (p c) eqn:E; auto.
Qed.

Lemma lstrip_by_all (ws s : pystr) :
  forallb p ws = true -> lstrip_by p (ws ++ s) = lstrip_by p s.
Proof.
  induction ws as [|c ws IH]; simpl; auto.
  intros H. apply andb_prop in H. destruct H as [Hc Hws].
  rewrite Hc. auto.
Qed.

Lemma lstrip_by_stop (c : char) (s : pystr) :
  p c = false -> lstrip_by p (c :: s) = c :: s.
Proof. intros H. simpl. now rewrite H. Qed.

Lemma rstrip_by_all (s ws : pystr) :
  forallb p ws = true -> rstrip_by p (s ++ ws) = rstrip_by p s.
Proof.
  intros H. unfold rstrip_by. rewrite rev_app_distr.
  rewrite lstrip_by_all; auto.
  rewrite forallb_forall in *. intros x Hx. apply H. now apply in_rev.
Qed.

Lemma rstrip_by_stop (s : pystr) (c : char) :
  p c = false -> rstrip_by p (s ++ [c]) = s ++ [c].
Proof.
  intros H. unfold rstrip_by. rewrite rev_app_distr. simpl.
  rewrite H. simpl. now rewrite rev_involutive.
Qed.

End StripFacts.

(* ------------------------------------------------------------------ *)
(** ** The matcher *)

Module ReFacts.

Lemma greedy_sound k kont : forall s need acc res,
  greedy k need kont acc s = Some res ->
  exists taken rest,
    s = taken ++ rest /\ forallb (cls_ok k) taken = true /\
    (need = true -> taken <> []) /\
    kont (rev acc ++ taken) rest = Some res.
Proof.
  induction s as [|c s IH]; intros need acc res H; simpl in H.
  - destruct need; [discriminate|].
    exists [], []. rewrite !app_nil_r. repeat split; auto. discriminate.
  - destruct (cls_ok k c) eqn:Ec.
    + destruct (greedy k false kont (c :: acc) s) eqn:Eg.
      * inversion H; subst. apply IH in Eg.
        destruct Eg as (taken & rest & -> & Hall & _ & Hk).
        exists (c :: taken), rest. simpl in *. rewrite Ec, Hall.
        repeat split; auto; [discriminate|].
        now rewrite <- app_assoc in Hk.
      * destruct need; [discriminate|].
        exists [], (c :: s). rewrite !app_nil_r.
        repeat split; auto. discriminate.
    + destruct need; [discriminate|].
      exists [], (c :: s). rewrite !app_nil_r.
      repeat split; auto. discriminate.
Qed.

Lemma lazily_sound k kont : forall s acc res,
  lazily k kont acc s = Some res ->
  exists taken rest,
    s = taken ++ rest /\ forallb (cls_ok k) taken = true /\
    kont (rev acc ++ taken) rest = Some res.
Proof.
  induction s as [|c s IH]; intros acc res H; simpl in H.
  - destruct (kont (rev acc) []) eqn:Ek; [|discriminate].
    inversion H; subst. exists [], []. now rewrite !app_nil_r.
  - destruct (kont (rev acc) (c :: s)) eqn:Ek.
    + inversion H; subst. exists [], (c :: s). now rewrite !app_nil_r.
    + destruct (cls_ok k c) eqn:Ec; [|discriminate].
      apply IH in H. destruct H as (taken & rest & -> & Hall & Hk).
      exists (c :: taken), rest. simpl in *. rewrite Ec, Hall.
      repeat split; auto. now rewrite <- app_assoc in Hk.
Qed.

(** Soundness: a successful run cuts the text it read into pieces that the
    items allow, and records the pieces of the groups. *)
Theorem run_sound : forall r cs s cs' rest,
  run r cs s = Some (cs', rest) ->
  exists pieces,
    spells r pieces /\ s = concat pieces ++ rest /\
    cs' = cs ++ captured r pieces.
Proof.
  induction r as [|it r IH]; intros cs s cs' rest H; simpl in H.
  - inversion H; subst. exists []. repeat split; [constructor | now rewrite app_nil_r].
  - assert (Hstep : exists w rest0,
              s = w ++ rest0 /\ takes it w /\
              run r (if it_group it then cs ++ [w] else cs) rest0
              = Some (cs', rest)).
    { unfold takes. destruct (it_quant it) eqn:Eq.
      - destruct s as [|c s]; [discriminate|].
        destruct (cls_ok (it_cls it) c) eqn:Ec; [|discriminate].
        exists [c], s. simpl. rewrite Ec. auto.
      - apply greedy_sound in H. destruct H as (w & rest0 & -> & Hall & Hne & Hk).
        exists w, rest0. auto.
      - apply greedy_sound in H. destruct H as (w & rest0 & -> & Hall & Hne & Hk).
        exists w, rest0. auto.
      - apply lazily_sound in H. destruct H as (w & rest0 & -> & Hall & Hk).
        exists w, rest0. auto. }
    destruct Hstep as (w & rest0 & -> & Hw & Hrun).
    apply IH in Hrun. destruct Hrun as (pieces & Hsp & -> & ->).
    exists (w :: pieces). split; [now constructor|]. simpl.
    split; [now rewrite app_assoc|].
    destruct (it_group it); auto. now rewrite <- app_assoc.
Qed.

Corollary run_suffix r cs s cs' rest :
  run r cs s = Some (cs', rest) -> exists mid, s = mid ++ rest.
Proof.
  intros H. apply run_sound in H. destruct H as (pieces & _ & -> & _).
  eauto.
Qed.

Lemma greedy_complete k kont : forall taken rest need acc,
  forallb (cls_ok k) taken = true ->
  (need = true -> taken <> []) ->
  kont (rev acc ++ taken) rest <> None ->
  greedy k need kont acc (taken ++ rest) <> None.
Proof.
  induction taken as [|c taken IH]; intros rest need acc Hall Hne Hk.
  - destruct need; [now exfalso; apply Hne|].
    rewrite app_nil_r in Hk. simpl.
    destruct rest as [|c s]; simpl; auto.
    destruct (cls_ok k c); auto.
    destruct (greedy k false kont (c :: acc) s); auto. discriminate.
  - simpl in *. apply andb_prop in Hall. destruct Hall as [Hc Hall].
    rewrite Hc.
    assert (Hin : greedy k false kont (c :: acc) (taken ++ rest) <> None).
    { apply IH; auto; [discriminate|]. simpl. now rewrite <- app_assoc. }
    destruct (greedy k false kont (c :: acc) (taken ++ rest)); [discriminate|].
    now exfalso.
Qed.

Lemma lazily_complete k kont : forall taken rest acc,
  forallb (cls_ok k) taken = true ->
  kont (rev acc ++ taken) rest <> None ->
  lazily k kont acc (taken ++ rest) <> None.
Proof.
  induction taken as [|c taken IH]; intros rest acc Hall Hk.
  - rewrite app_nil_r in Hk. simpl.
    destruct rest; simpl; destruct (kont (rev acc) _); auto; discriminate.
  - simpl in *. apply andb_prop in Hall. destruct Hall as [Hc Hall].
    destruct (kont (rev acc) (c :: taken ++ rest)); [discriminate|].
    rewrite Hc. apply IH; auto. simpl. now rewrite <- app_assoc.
Qed.

(** Completeness: when the text can be cut into pieces that the items
    allow, the run finds a match (of these pieces or of others that come
    first in the matcher's order). *)
Theorem run_complete : forall r pieces rest cs,
  spells r pieces -> run r cs (concat pieces ++ rest) <> None.
Proof.
  induction r as [|it r IH]; intros pieces rest cs H; inversion H; subst; simpl.
  - discriminate.
  - rename y into w, l' into ws. destruct H2 as [Hall Hq].
    rewrite <- app_assoc.
    destruct (it_quant it) eqn:Eq.
    + destruct w as [|c [|? ?]]; try discriminate. simpl in *.
      rewrite andb_true_r in Hall. rewrite Hall. now apply IH.
    + apply greedy_complete; auto; apply IH; auto.
    + apply greedy_complete; auto; try discriminate; apply IH; auto.
    + apply lazily_complete; auto; apply IH; auto.
Qed.

(** *** Runs that cannot go another way *)

Lemma greedy_exact k kont : forall taken rest need acc res,
  forallb (cls_ok k) taken = true ->
  (need = true -> taken <> []) ->
  stops k rest ->
  kont (rev acc ++ taken) rest = Some res ->
  greedy k need kont acc (taken ++ rest) = Some res.
Proof.
  induction taken as [|c taken IH]; intros rest need acc res Hall Hne Hst Hk.
  - destruct need; [now exfalso; apply Hne|].
    rewrite app_nil_r in Hk. cbn [app].
    destruct rest as [|c s]; simpl; auto.
    simpl in Hst. now rewrite Hst.
  - simpl in *. apply andb_prop in Hall. destruct Hall as [Hc Hall].
    rewrite Hc. rewrite (IH rest false (c :: acc) res); auto.
    + discriminate.
    + simpl. now rewrite <- app_assoc.
Qed.

Lemma lazily_exact k kont : forall body rest acc res,
  forallb (cls_ok k) body = true ->
  (forall x c y, In c body -> kont x (c :: y) = None) ->
  kont (rev acc ++ body) rest = Some res ->
  lazily k kont acc (body ++ rest) = Some res.
Proof.
  induction body as [|c body IH]; intros rest acc res Hall Hno Hk.
  - rewrite app_nil_r in Hk. cbn [app].
    destruct rest; simpl; now rewrite Hk.
  - simpl in *. apply andb_prop in Hall. destruct Hall as [Hc Hall].
    rewrite Hno by auto. rewrite Hc. apply IH; auto.
    simpl. now rewrite <- app_assoc.
Qed.

Lemma run_chars : forall l r cs s,
  run (map (fun c => Item (Chr c) Once false) l ++ r) cs (l ++ s) = run r cs s.
Proof.
  induction l as [|c l IH]; intros r cs s; simpl; auto.
  unfold char_eqb. rewrite N.eqb_refl. apply IH.
Qed.

Lemma run_chr_miss d g r cs c s :
  c <> d -> run (Item (Chr d) Once g :: r) cs (c :: s) = None.
Proof.
  intros H. simpl. unfold char_eqb.
  destruct (N.eqb_spec d c); congruence.
Qed.

Lemma run_plus_exact k (g : bool) r cs taken rest res :
  forallb (cls_ok k) taken = true -> taken <> [] -> stops k rest ->
  run r (if g then cs ++ [taken] else cs) rest = Some res ->
  run (Item k Plus g :: r) cs (taken ++ rest) = Some res.
Proof. intros. simpl. apply greedy_exact; auto. Qed.

Lemma run_star_exact k (g : bool) r cs taken rest res :
  forallb (cls_ok k) taken = true -> stops k rest ->
  run r (if g then cs ++ [taken] else cs) rest = Some res ->
  run (Item k Star g :: r) cs (taken ++ rest) = Some res.
Proof. intros. simpl. apply greedy_exact; auto. discriminate. Qed.

Lemma run_lazy_exact k (g : bool) r cs body rest res :
  forallb (cls_ok k) body = true ->
  (forall cs' c y, In c body -> run r cs' (c :: y) = None) ->
  run r (if g then cs ++ [body] else cs) rest = Some res ->
  run (Item k StarLazy g :: r) cs (body ++ rest) = Some res.
Proof. intros. simpl. apply lazily_exact; auto. Qed.

(** *** [finditer] *)

(** Passing over the rest of the last match. *)
Lemma scan_skip r : forall pre pos s,
  scan r pos (length pre) (pre ++ s) = scan r (pos + length pre) 0 s.
Proof.
  induction pre as [|c pre IH]; intros pos s; simpl.
  - now rewrite Nat.add_0_r.
  - rewrite IH. f_equal. lia.
Qed.

Lemma scan_try r pos c s :
  scan r pos 0 (c :: s) =
  match run r [] (c :: s) with
  | Some (cs, rest) =>
      let len := length (c :: s) - length rest in
      Match pos (pos + len) cs :: scan r (S pos) (pred len) s
  | None => scan r (S pos) 0 s
  end.
Proof. reflexivity. Qed.

Lemma scan_hit r pos mid rest cs :
  mid <> [] ->
  run r [] (mid ++ rest) = Some (cs, rest) ->
  scan r pos 0 (mid ++ rest)
  = Match pos (pos + length mid) cs :: scan r (pos + length mid) 0 rest.
Proof.
  intros Hne H. destruct mid as [|c mid]; [congruence|].
  assert (Hl : length ((c :: mid) ++ rest) - length rest = S (length mid)).
  { rewrite length_app. cbn [length]. lia. }
  change ((c :: mid) ++ rest) with (c :: (mid ++ rest)) in *.
  rewrite scan_try, H. cbv zeta. rewrite Hl.
  change (pred (S (length mid))) with (length mid).
  rewrite scan_skip. change (length (c :: mid)) with (S (length mid)).
  replace (S pos + length mid) with (pos + S (length mid)) by lia.
  reflexivity.
Qed.

(** Every match reported is a match of the pattern at its offsets. *)
Lemma scan_sound r : forall s pos skip m,
  In m (scan r pos skip s) ->
  exists pre mid rest,
    s = pre ++ mid ++ rest /\
    m_start m = pos + length pre /\ m_end m = m_start m + length mid /\
    run r [] (mid ++ rest) = Some (m_groups m, rest).
Proof.
  induction s as [|c s IH]; intros pos skip m H; [contradiction|].
  assert (Hnext : forall k, In m (scan r (S pos) k s) ->
            exists pre mid rest,
              c :: s = pre ++ mid ++ rest /\
              m_start m = pos + length pre /\ m_end m = m_start m + length mid /\
              run r [] (mid ++ rest) = Some (m_groups m, rest)).
  { intros k Hk. apply IH in Hk.
    destruct Hk as (pre & mid & rest & -> & Hs & He & Hr).
    exists (c :: pre), mid, rest. cbn [app length].
    repeat split; auto. lia. }
  destruct skip as [|k]; [|apply (Hnext k); exact H].
  rewrite scan_try in H.
  destruct (run r [] (c :: s)) as [[cs rest]|] eqn:Er; [|eauto].
  cbv zeta in H. destruct H as [<-|H]; [|eauto].
  destruct (run_suffix _ _ _ _ _ Er) as [mid Hmid].
  assert (Hl : length (c :: s) - length rest = length mid).
  { rewrite Hmid, length_app. lia. }
  exists [], mid, rest. cbn [m_start m_end m_groups]. rewrite Hl.
  cbn [app length]. rewrite <- Hmid. repeat split; auto; lia.
Qed.

Lemma scan_starts r : forall s pos skip m,
  In m (scan r pos skip s) -> pos + skip <= m_start m.
Proof.
  induction s as [|c s IH]; intros pos skip m H; [contradiction|].
  destruct skip as [|k].
  - rewrite scan_try in H.
    destruct (run r [] (c :: s)) as [[cs rest]|].
    + destruct H as [<-|H]; cbn [m_start]; [lia|]. apply IH in H. lia.
    + apply IH in H. lia.
  - apply (IH (S pos) k) in H. lia.
Qed.

Lemma scan_ordered r : forall s pos skip,
  in_document_order (scan r pos skip s).
Proof.
  induction s as [|c s IH]; intros pos skip; [constructor|].
  destruct skip as [|k]; [|apply (IH (S pos) k)].
  rewrite scan_try.
  destruct (run r [] (c :: s)) as [[cs rest]|]; [|apply IH].
  constructor; [apply IH|].
  apply Forall_forall. intros m Hm. apply scan_starts in Hm.
  unfold before; cbn [m_start m_end]. lia.
Qed.

(** Something is reported when the pattern matches at some position. *)
Lemma scan_some r : forall pre suf pos,
  run r [] suf <> None -> suf <> [] -> scan r pos 0 (pre ++ suf) <> [].
Proof.
  induction pre as [|c pre IH]; intros suf pos H Hne.
  - destruct suf as [|c s]; [congruence|]. cbn [app]. rewrite scan_try.
    destruct (run r [] (c :: s)) as [[cs rest]|]; [discriminate|congruence].
  - cbn [app]. rewrite scan_try.
    destruct (run r [] (c :: pre ++ suf)) as [[cs rest]|]; [discriminate|].
    now apply IH.
Qed.

End ReFacts.

(* ------------------------------------------------------------------ *)
(** ** The parser *)

Module ParserFacts.
Import ReFacts.

Lemma takes_chr d g w : takes (Item (Chr d) Once g) w -> w = [d].
Proof.
  intros [Hall Hlen]. simpl in *.
  destruct w as [|c [|? ?]]; try discriminate. simpl in Hall.
  rewrite andb_true_r in Hall. apply N.eqb_eq in Hall. now subst.
Qed.

Lemma takes_plus k g w :
  takes (Item k Plus g) w -> w <> [] /\ forallb (cls_ok k) w = true.
Proof. intros [Hall Hne]. auto. Qed.

Lemma takes_star k g w :
  takes (Item k Star g) w -> forallb (cls_ok k) w = true.
Proof. now intros [Hall _]. Qed.

Lemma Forall2_cons_iff_l {A B} (R : A -> B -> Prop) a l l' :
  Forall2 R (a :: l) l' ->
  exists b m, R a b /\ Forall2 R l m /\ l' = b :: m.
Proof. intros H. inversion H; subst. eauto. Qed.

Lemma Forall2_nil_l {A B} (R : A -> B -> Prop) l' :
  Forall2 R [] l' -> l' = [].
Proof. intros H. now inversion H. Qed.

Ltac cut_pieces H :=
  repeat match type of H with
         | Forall2 _ (_ :: _) _ =>
             let w := fresh "w" in
             let ws := fresh "ws" in
             let Hw := fresh "Hw" in
             let E := fresh "E" in
             apply Forall2_cons_iff_l in H;
             destruct H as (w & ws & Hw & H & E); subst
         | Forall2 _ [] _ => apply Forall2_nil_l in H; subst
         end.


Ltac text_eq :=
  unfold write_marker, delete_marker, quoted, letters;
  repeat (progress (cbn; rewrite <- ?app_assoc)); reflexivity.

Ltac explicit r H :=
  let r' := eval vm_compute in r in change r with r' in H.

Lemma file_pattern_sound s cs rest :
  run file_pattern [] s = Some (cs, rest) ->
  exists ws p body,
    s = write_marker ws p body ++ rest /\ cs = [p; body] /\
    ws <> [] /\ blank ws /\ path_text p.
Proof.
  intros H. apply run_sound in H. destruct H as (pieces & Hsp & -> & ->).
  unfold spells in Hsp. explicit file_pattern Hsp. cut_pieces Hsp.
  repeat match goal with
         | H : takes (Item (Chr _) Once _) _ |- _ => apply takes_chr in H; subst
         | H : takes (Item _ Plus _) _ |- _ => apply takes_plus in H; destruct H
         | H : takes (Item _ Star _) _ |- _ => apply takes_star in H
         end.
  match goal with
  | Hs : forallb (cls_ok Space) ?a = true,
    Hp : forallb (cls_ok (NotChr _)) ?b = true,
    Hb : takes (Item Any StarLazy _) ?c |- _ => exists a, b, c
  end.
  repeat split; auto. text_eq.
Qed.

Lemma delete_pattern_sound s cs rest :
  run delete_pattern [] s = Some (cs, rest) ->
  exists ws p ws',
    s = delete_marker ws p ws' ++ rest /\ cs = [p] /\
    ws <> [] /\ blank ws /\ path_text p /\ blank ws'.
Proof.
  intros H. apply run_sound in H. destruct H as (pieces & Hsp & -> & ->).
  unfold spells in Hsp. explicit delete_pattern Hsp. cut_pieces Hsp.
  repeat match goal with
         | H : takes (Item (Chr _) Once _) _ |- _ => apply takes_chr in H; subst
         | H : takes (Item _ Plus _) _ |- _ => apply takes_plus in H; destruct H
         | H : takes (Item _ Star _) _ |- _ => apply takes_star in H
         end.
  match goal with
  | Hp : forallb (cls_ok (NotChr _)) ?b = true,
    Hs : ?a <> [], Hs' : forallb (cls_ok Space) ?a = true,
    Hb : forallb (cls_ok Space) ?c = true |- _ =>
      exists a, b, c
  end.
  repeat split; auto. text_eq.
Qed.

Lemma spells_letters l r pieces :
  spells r pieces ->
  spells (map (fun c => Item (Chr c) Once false) l ++ r) (letters l ++ pieces).
Proof.
  intros H. induction l as [|c l IH]; simpl; auto.
  constructor; auto. split; simpl; auto.
  unfold char_eqb. now rewrite N.eqb_refl.
Qed.

Lemma file_pattern_complete ws p body rest cs :
  ws <> [] -> blank ws -> path_text p ->
  run file_pattern cs (write_marker ws p body ++ rest) <> None.
Proof.
  intros Hne Hws [Hp Hq].
  replace (write_marker ws p body ++ rest)
    with (concat (letters (lit "<FILE") ++ [ws] ++ letters (lit "path=")
                  ++ [[dquote]; p; [dquote]] ++ letters (lit ">")
                  ++ [body] ++ letters (lit "</FILE>")) ++ rest)
    by text_eq.
  apply run_complete. unfold file_pattern, chars.
  apply spells_letters. constructor; [split; auto|].
  apply spells_letters. constructor; [split; reflexivity|].
  constructor; [split; auto|].
  constructor; [split; reflexivity|].
  apply spells_letters.
  constructor; [split; cbn; auto; now apply forallb_forall|].
  rewrite <- (app_nil_r (map _ (lit "</FILE>"))),
          <- (app_nil_r (letters (lit "</FILE>"))).
  apply spells_letters. constructor.
Qed.

Lemma delete_pattern_complete ws p ws' rest cs :
  ws <> [] -> blank ws -> path_text p -> blank ws' ->
  run delete_pattern cs (delete_marker ws p ws' ++ rest) <> None.
Proof.
  intros Hne Hws [Hp Hq] Hws'.
  replace (delete_marker ws p ws' ++ rest)
    with (concat (letters (lit "<DELETE") ++ [ws] ++ letters (lit "path=")
                  ++ [[dquote]; p; [dquote]] ++ [ws']
                  ++ letters (lit "/>")) ++ rest)
    by text_eq.
  apply run_complete. unfold delete_pattern, chars.
  apply spells_letters. constructor; [split; auto|].
  apply spells_letters. constructor; [split; reflexivity|].
  constructor; [split; auto|].
  constructor; [split; reflexivity|].
  constructor; [split; cbn; auto|].
  rewrite <- (app_nil_r (map _ (lit "/>"))),
          <- (app_nil_r (letters (lit "/>"))).
  apply spells_letters. constructor.
Qed.

(** Every match of the write pattern is a write-marker of the text. *)
Lemma finditer_file_markers s :
  Forall (write_marker_at s) (finditer file_pattern s).
Proof.
  apply Forall_forall. intros m Hm. apply scan_sound in Hm.
  destruct Hm as (pre & mid & rest & -> & Hs & He & Hr).
  destruct (file_pattern_sound _ _ _ Hr) as (ws & p & body & E & Hg & Hne & Hws & Hp).
  apply app_inv_tail in E. subst mid.
  exists ws. unfold mgroup. rewrite Hg. cbn [pred nth].
  repeat split; auto; try apply Hp.
  exists pre, rest. repeat split; auto; lia.
Qed.

Lemma finditer_delete_markers s :
  Forall (delete_marker_at s) (finditer delete_pattern s).
Proof.
  apply Forall_forall. intros m Hm. apply scan_sound in Hm.
  destruct Hm as (pre & mid & rest & -> & Hs & He & Hr).
  destruct (delete_pattern_sound _ _ _ Hr)
    as (ws & p & ws' & E & Hg & Hne & Hws & Hp & Hws').
  apply app_inv_tail in E. subst mid.
  exists ws, ws'. unfold mgroup. rewrite Hg. cbn [pred nth].
  repeat split; auto; try apply Hp.
  exists pre, rest. repeat split; auto; lia.
Qed.

Lemma finditer_file_nil s :
  finditer file_pattern s = [] <-> ~ has_write_marker s.
Proof.
  split.
  - intros E (ws & p & body & i & j & Hne & Hws & Hp & pre & post & -> & _).
    revert E. apply scan_some.
    + now apply file_pattern_complete.
    + discriminate.
  - intros H. destruct (finditer file_pattern s) as [|m ms] eqn:E; auto.
    exfalso. apply H.
    pose proof (finditer_file_markers s) as Hall. rewrite E in Hall.
    inversion Hall as [|? ? (ws & Hne & Hws & Hp & Hocc) _]; subst.
    exists ws, (mgroup 1 m), (mgroup 2 m), (m_start m), (m_end m). auto.
Qed.

Lemma finditer_delete_nil s :
  finditer delete_pattern s = [] <-> ~ has_delete_marker s.
Proof.
  split.
  - intros E (ws & p & ws' & i & j & Hne & Hws & Hp & Hws' & pre & post & -> & _).
    revert E. apply scan_some.
    + now apply delete_pattern_complete.
    + discriminate.
  - intros H. destruct (finditer delete_pattern s) as [|m ms] eqn:E; auto.
    exfalso. apply H.
    pose proof (finditer_delete_markers s) as Hall. rewrite E in Hall.
    inversion Hall as [|? ? (ws & ws' & Hne & Hws & Hp & Hws' & Hocc) _]; subst.
    exists ws, (mgroup 1 m), ws', (m_start m), (m_end m). auto.
Qed.

(** *** A text with a single marker *)

Lemma run_needs_tag d g1 g2 r cs t :
  starts_tag d t = false ->
  run (Item (Chr langle) Once g1 :: Item (Chr d) Once g2 :: r) cs t = None.
Proof.
  intros H.
  destruct t as [|c [|c2 t]];
    cbn [run it_quant it_cls it_group cls_ok starts_tag] in *; auto.
  - now destruct (char_eqb langle c).
  - destruct (char_eqb langle c); auto.
    cbn [andb] in H. now rewrite H.
Qed.

Lemma scan_no_tag d g1 g2 r : forall t pos,
  no_tag d t = true ->
  scan (Item (Chr langle) Once g1 :: Item (Chr d) Once g2 :: r) pos 0 t = [].
Proof.
  induction t as [|c t IH]; intros pos H; auto.
  cbn [no_tag] in H. apply andb_prop in H. destruct H as [H1 H2].
  apply negb_true_iff in H1.
  rewrite scan_try, (run_needs_tag _ _ _ _ _ _ H1). now apply IH.
Qed.

Lemma no_tag_app d : forall a b,
  no_langle a -> no_tag d (a ++ b) = no_tag d b.
Proof.
  unfold no_langle.
  induction a as [|c a IH]; intros b H; auto.
  cbn [forallb] in H. apply andb_prop in H. destruct H as [Hc Ha].
  cbn [app no_tag]. rewrite IH by auto.
  apply negb_true_iff in Hc.
  destruct (a ++ b); cbn [starts_tag]; auto. now rewrite Hc.
Qed.

Lemma scan_no_langle g r : forall pre s pos,
  no_langle pre ->
  scan (Item (Chr langle) Once g :: r) pos 0 (pre ++ s)
  = scan (Item (Chr langle) Once g :: r) (pos + length pre) 0 s.
Proof.
  unfold no_langle.
  induction pre as [|c pre IH]; intros s pos H.
  - cbn [app length]. now rewrite Nat.add_0_r.
  - cbn [forallb] in H. apply andb_prop in H. destruct H as [Hc Hpre].
    cbn [app]. rewrite scan_try, run_chr_miss, IH; auto.
    + cbn [length]. f_equal. lia.
    + apply negb_true_iff in Hc. unfold char_eqb in Hc.
      apply N.eqb_neq in Hc. congruence.
Qed.

Lemma blank_no_langle ws : blank ws -> no_langle ws.
Proof.
  unfold blank, no_langle. rewrite !forallb_forall.
  intros H c Hc. specialize (H c Hc).
  unfold char_eqb, langle. destruct (N.eqb_spec 60 c); auto.
  subst. discriminate.
Qed.

Lemma no_langle_app a b : no_langle a -> no_langle b -> no_langle (a ++ b).
Proof. unfold no_langle. rewrite forallb_app. now intros -> ->. Qed.

Lemma no_langle_in s c : no_langle s -> In c s -> c <> langle.
Proof.
  unfold no_langle. rewrite forallb_forall. intros H Hc E. subst.
  specialize (H _ Hc). discriminate.
Qed.

Lemma file_pattern_exact ws p body rest :
  ws <> [] -> blank ws -> path_text p -> no_langle body ->
  run file_pattern [] (write_marker ws p body ++ rest) = Some ([p; body], rest).
Proof.
  intros Hne Hws [Hp Hq] Hb.
  unfold file_pattern, write_marker, quoted, chars, plus, one, lazy, group.
  rewrite <- !app_assoc. cbn [map app it_cls it_quant].
  rewrite run_chars.
  apply run_plus_exact; auto; try reflexivity.
  rewrite run_chars.
  change (run (Item (Chr dquote) Once false :: ?r) ?cs (dquote :: ?t))
    with (run r cs t).
  rewrite <- app_assoc.
  apply run_plus_exact; auto; try reflexivity. cbn [app].
  change (run (Item (Chr dquote) Once false :: ?r) ?cs (dquote :: ?t))
    with (run r cs t).
  rewrite run_chars.
  apply run_lazy_exact.
  - now apply forallb_forall.
  - intros cs' c y Hc. apply run_chr_miss. now apply (no_langle_in _ _ Hb).
  - rewrite <- (app_nil_r (map _ (lit "</FILE>"))). now rewrite run_chars.
Qed.

Lemma delete_pattern_exact ws p ws' rest :
  ws <> [] -> blank ws -> path_text p -> blank ws' ->
  run delete_pattern [] (delete_marker ws p ws' ++ rest) = Some ([p], rest).
Proof.
  intros Hne Hws [Hp Hq] Hws'.
  unfold delete_pattern, delete_marker, quoted, chars, plus, one, star, group.
  rewrite <- !app_assoc. cbn [map app it_cls it_quant].
  rewrite run_chars.
  apply run_plus_exact; auto; try reflexivity.
  rewrite run_chars.
  change (run (Item (Chr dquote) Once false :: ?r) ?cs (dquote :: ?t))
    with (run r cs t).
  rewrite <- app_assoc.
  apply run_plus_exact; auto; try reflexivity. cbn [app].
  change (run (Item (Chr dquote) Once false :: ?r) ?cs (dquote :: ?t))
    with (run r cs t).
  apply run_star_exact; auto; reflexivity.
Qed.

Lemma no_tag_glue d : forall a b,
  last a 0%N <> langle ->
  no_tag d a = true -> no_tag d b = true -> no_tag d (a ++ b) = true.
Proof.
  induction a as [|c a IH]; intros b Hl Ha Hb; auto.
  destruct a as [|c2 a].
  - cbn [app no_tag]. rewrite Hb. cbn [last] in Hl.
    destruct b; cbn [starts_tag]; auto.
    unfold char_eqb. destruct (N.eqb_spec langle c); auto; congruence.
  - cbn [no_tag] in Ha. apply andb_prop in Ha. destruct Ha as [H1 H2].
    change ((c :: c2 :: a) ++ b) with (c :: (c2 :: a) ++ b).
    cbn [no_tag]. rewrite IH; auto.
    cbn [app starts_tag] in *. now rewrite H1.
Qed.

Lemma no_langle_last a : no_langle a -> last a 0%N <> langle.
Proof.
  intros H. destruct a as [|c a]; [discriminate|].
  apply (no_langle_in _ _ H).
  destruct (@exists_last _ (c :: a)) as (a' & z & E); [discriminate|].
  rewrite E, last_last. apply in_or_app. right. now left.
Qed.

Lemma no_langle_no_tag d a : no_langle a -> no_tag d a = true.
Proof.
  intros H. rewrite <- (app_nil_r a). now rewrite no_tag_app.
Qed.

Ltac piece :=
  first [ reflexivity
        | discriminate
        | now apply no_langle_last
        | now apply no_langle_no_tag
        | now apply no_langle_last, blank_no_langle
        | now apply no_langle_no_tag, blank_no_langle ].

Ltac pieces := repeat (apply no_tag_glue; [piece | piece | ]); piece.

Lemma finditer_single_hit g r pre mid post cs :
  no_langle pre -> no_langle post -> mid <> [] ->
  run (Item (Chr langle) Once g :: r) [] (mid ++ post) = Some (cs, post) ->
  finditer (Item (Chr langle) Once g :: r) (pre ++ mid ++ post)
  = [Match (length pre) (length pre + length mid) cs].
Proof.
  intros Hpre Hpost Hne Hrun. unfold finditer.
  rewrite scan_no_langle by auto. rewrite scan_hit with (cs := cs) by auto.
  rewrite <- (app_nil_r post). now rewrite scan_no_langle.
Qed.

Lemma parse_single_write pre post ws p body :
  no_langle pre -> no_langle post ->
  ws <> [] -> blank ws -> path_text p -> no_langle p -> no_langle body ->
  parse_file_blocks (pre ++ write_marker ws p body ++ post)
  = [Change write (lstrip_slash p) (strip body)].
Proof.
  intros Hpre Hpost Hne Hws Hp Hpl Hb. unfold parse_file_blocks.
  assert (Hf : finditer file_pattern (pre ++ write_marker ws p body ++ post)
               = [Match (length pre) (length pre + length (write_marker ws p body))
                        [p; body]]).
  { change file_pattern with (Item (Chr langle) Once false :: tl file_pattern).
    apply finditer_single_hit; auto; [discriminate|].
    now apply file_pattern_exact. }
  assert (Hd : finditer delete_pattern (pre ++ write_marker ws p body ++ post) = []).
  { change delete_pattern
      with (Item (Chr langle) Once false :: Item (Chr 68%N) Once false
            :: tl (tl delete_pattern)).
    apply scan_no_tag.
    replace (pre ++ write_marker ws p body ++ post)
      with (pre ++ lit "<FILE" ++ ws ++ lit "path=" ++ [dquote] ++ p
            ++ [dquote] ++ lit ">" ++ body ++ lit "</FILE>" ++ post)
      by text_eq.
    pieces. }
  rewrite Hf, Hd. reflexivity.
Qed.

Lemma parse_single_delete pre post ws p ws' :
  no_langle pre -> no_langle post ->
  ws <> [] -> blank ws -> path_text p -> no_langle p -> blank ws' ->
  parse_file_blocks (pre ++ delete_marker ws p ws' ++ post)
  = [Change delete (lstrip_slash p) []].
Proof.
  intros Hpre Hpost Hne Hws Hp Hpl Hws'. unfold parse_file_blocks.
  assert (Hd : finditer delete_pattern (pre ++ delete_marker ws p ws' ++ post)
               = [Match (length pre) (length pre + length (delete_marker ws p ws'))
                        [p]]).
  { change delete_pattern with (Item (Chr langle) Once false :: tl delete_pattern).
    apply finditer_single_hit; auto; [discriminate|].
    now apply delete_pattern_exact. }
  assert (Hf : finditer file_pattern (pre ++ delete_marker ws p ws' ++ post) = []).
  { change file_pattern
      with (Item (Chr langle) Once false :: Item (Chr 70%N) Once false
            :: tl (tl file_pattern)).
    apply scan_no_tag.
    replace (pre ++ delete_marker ws p ws' ++ post)
      with (pre ++ lit "<DELETE" ++ ws ++ lit "path=" ++ [dquote] ++ p
            ++ [dquote] ++ ws' ++ lit "/>" ++ post)
      by text_eq.
    pieces. }
  rewrite Hf, Hd. reflexivity.
Qed.

Lemma strip_blank_around ws1 ws2 c body d :
  blank ws1 -> blank ws2 -> is_space c = false -> is_space d = false ->
  strip (ws1 ++ (c :: body ++ [d]) ++ ws2) = c :: body ++ [d].
Proof.
  intros H1 H2 Hc Hd. unfold strip.
  rewrite lstrip_by_all by auto.
  change ((c :: body ++ [d]) ++ ws2) with (c :: (body ++ [d]) ++ ws2).
  rewrite lstrip_by_stop by auto.
  change (c :: (body ++ [d]) ++ ws2) with ((c :: body ++ [d]) ++ ws2).
  rewrite rstrip_by_all by auto.
  change (c :: body ++ [d]) with ((c :: body) ++ [d]).
  now rewrite rstrip_by_stop.
Qed.

(** *** The claims about [parse_file_blocks] *)

(** C4. [parse_file_blocks] is a total function, and on a text that holds
    neither a write-marker nor a delete-marker it returns the empty list. *)
Theorem parse_no_marker_empty (s : pystr) :
  ~ has_write_marker s -> ~ has_delete_marker s ->
  parse_file_blocks s = [].
Proof.
  intros Hw Hd. unfold parse_file_blocks.
  apply finditer_file_nil in Hw. apply finditer_delete_nil in Hd.
  now rewrite Hw, Hd.
Qed.

(** The converse: an empty result means that the text holds no marker. *)
Lemma parse_empty_no_marker (s : pystr) :
  parse_file_blocks s = [] -> ~ has_write_marker s /\ ~ has_delete_marker s.
Proof.
  unfold parse_file_blocks. cbn [app]. intros H.
  apply app_eq_nil in H. destruct H as [Hw Hd].
  apply map_eq_nil in Hw. apply map_eq_nil in Hd.
  split; [now apply finditer_file_nil | now apply finditer_delete_nil].
Qed.

Lemma no_langle_no_marker (s : pystr) :
  ~ In langle s -> ~ has_write_marker s /\ ~ has_delete_marker s.
Proof.
  intros H. split.
  - intros (ws & p & body & i & j & _ & _ & _ & pre & post & -> & _).
    apply H. apply in_or_app. right. now left.
  - intros (ws & p & ws' & i & j & _ & _ & _ & _ & pre & post & -> & _).
    apply H. apply in_or_app. right. now left.
Qed.

Lemma parse_no_marker_empty_witness :
  parse_file_blocks (lit "Nothing to migrate in this batch.") = [].
Proof.
  apply parse_no_marker_empty;
    apply no_langle_no_marker; cbn; intuition discriminate.
Defined.

Lemma lstrip_slash_relative (p : pystr) :
  leading_separator (lstrip_slash p) = false.
Proof.
  unfold lstrip_slash, leading_separator.
  pose proof (lstrip_by_head (char_eqb slash) p) as H.
  now destruct (lstrip_by (char_eqb slash) p).
Qed.

(** C1, as the code has it. Every path of a parsed operation is relative:
    it does not start with the separator.  Components [..] are kept. *)
Theorem parse_paths_relative (s : pystr) (c : change) :
  In c (parse_file_blocks s) -> leading_separator (c_path c) = false.
Proof.
  unfold parse_file_blocks. cbn [app]. intros H.
  apply in_app_or in H. destruct H as [H|H];
    apply in_map_iff in H; destruct H as (m & <- & _);
    apply lstrip_slash_relative.
Qed.

Lemma parse_paths_relative_witness :
  leading_separator (lit "../outside.txt") = false.
Proof.
  apply (parse_paths_relative traversal_response
           (Change write (lit "../outside.txt") (lit "x"))).
  vm_compute. now left.
Defined.

(** C1, as stated, fails: a path that leaves the target root is kept. *)
Lemma parse_path_escapes_root :
  ~ (forall c, In c (parse_file_blocks traversal_response) ->
               leading_separator (c_path c) = false /\
               escapes_root (c_path c) = false).
Proof.
  intros H.
  destruct (H (Change write (lit "../outside.txt") (lit "x"))) as [_ E].
  - vm_compute. now left.
  - vm_compute in E. discriminate.
Qed.

(** C9. A response whose only marker is the write-marker for [a/b.txt]
    with content [hello], possibly surrounded by white space, parses to
    exactly that write operation with the content stripped; and a response
    whose only marker is the delete-marker for [/x/y] parses to exactly
    one delete operation for [x/y]. *)
Theorem parse_single_marker (pre post ws1 ws2 : pystr) :
  no_langle pre -> no_langle post -> blank ws1 -> blank ws2 ->
  parse_file_blocks
    (pre ++ write_marker (lit " ") (lit "a/b.txt")
                         (ws1 ++ lit "hello" ++ ws2) ++ post)
  = [Change write (lit "a/b.txt") (lit "hello")]
  /\
  parse_file_blocks
    (pre ++ delete_marker (lit " ") (lit "/x/y") (lit " ") ++ post)
  = [Change delete (lit "x/y") []].
Proof.
  intros Hpre Hpost H1 H2. split.
  - rewrite parse_single_write; auto; try discriminate; try reflexivity.
    + f_equal. f_equal.
      exact (strip_blank_around ws1 ws2 104%N (lit "ell") 111%N
               H1 H2 eq_refl eq_refl).
    + split; [discriminate|reflexivity].
    + apply no_langle_app; [now apply blank_no_langle|].
      apply no_langle_app; [reflexivity|now apply blank_no_langle].
  - rewrite parse_single_delete; auto; try discriminate; try reflexivity.
    split; [discriminate|reflexivity].
Qed.

Lemma parse_single_marker_witness :
  parse_file_blocks
    (lit "<FILE path=" ++ quoted (lit "a/b.txt") ++ lit ">hello</FILE>")
  = [Change write (lit "a/b.txt") (lit "hello")]
  /\
  parse_file_blocks (lit "<DELETE path=" ++ quoted (lit "/x/y") ++ lit " />")
  = [Change delete (lit "x/y") []].
Proof.
  apply (parse_single_marker [] [] [] []); reflexivity.
Defined.

(** C10. A delete-marker inside the content of a write-marker is an
    operation of its own: the write keeps the marker's text in its content
    and the delete is reported as well. *)
Theorem embedded_delete_extracted :
  let inner := delete_marker (lit " ") (lit "b") (lit " ") in
  let response := write_marker (lit " ") (lit "a") (lit "x" ++ inner ++ lit "y") in
  parse_file_blocks response
  = [Change write (lit "a") (lit "x" ++ inner ++ lit "y");
     Change delete (lit "b") []].
Proof. vm_compute. reflexivity. Qed.

End ParserFacts.

(* ------------------------------------------------------------------ *)
(** ** The retry loop *)

Module ClientFacts.

Lemma range_unfold (n : nat) (a : nat) :
  map Z.of_nat (seq a (S n)) = Z.of_nat a :: map Z.of_nat (seq (S a) n).
Proof. reflexivity. Qed.

(** The loop from attempt [a] on, when none of the [n] remaining attempts
    gets a completion. *)
Lemma attempts_all_failed svc retries : forall n a w,
  Z.of_nat (a + S n) = retries ->
  (forall k, k < S n -> failed (svc (issued w + k))) ->
  let last := svc (issued w + n) in
  let (out, w') := attempts svc retries (map Z.of_nat (seq a (S n))) w in
  issued w' = issued w + S n /\
  (forall code, last = HttpError code -> code <> 429%Z ->
                out = Raised (RuntimeError retries (HTTPError code))) /\
  (last = TimedOut -> out = Raised (Reraised Timeout)).
Proof.
  induction n as [|n IH]; intros a w Hr Hall; rewrite range_unfold.
  - cbn [seq map attempts]. rewrite Nat.add_0_r.
    assert (Hlt : (Z.of_nat a <? retries - 1)%Z = false).
    { apply Z.ltb_ge. lia. }
    pose proof (Hall 0 ltac:(lia)) as Hf. rewrite Nat.add_0_r in Hf.
    destruct (svc (issued w)) as [txt|code|]; [contradiction| |].
    + destruct (Z.eqb_spec code 429).
      * cbn. repeat split; try lia; try discriminate.
        intros c E. inversion E; subst. congruence.
      * rewrite Hlt. cbn. repeat split; try lia; try discriminate.
        intros c E. now inversion E.
    + rewrite Hlt. cbn. repeat split; try lia; discriminate.
  - assert (Hlt : (Z.of_nat a <? retries - 1)%Z = true).
    { apply Z.ltb_lt. lia. }
    cbn [attempts].
    assert (Hnext : forall w1, issued w1 = S (issued w) ->
              let (out, w') :=
                attempts svc retries (map Z.of_nat (seq (S a) (S n))) w1 in
              issued w' = issued w + S (S n) /\
              (forall code, svc (issued w + S n) = HttpError code ->
                 code <> 429%Z ->
                 out = Raised (RuntimeError retries (HTTPError code))) /\
              (svc (issued w + S n) = TimedOut ->
                 out = Raised (Reraised Timeout))).
    { intros w1 Hw1.
      specialize (IH (S a) w1 ltac:(lia)). cbv zeta in IH.
      rewrite Hw1 in IH.
      replace (S (issued w) + n) with (issued w + S n) in IH by lia.
      assert (Hwin : forall k, k < S n -> failed (svc (S (issued w) + k))).
      { intros k Hk. replace (S (issued w) + k) with (issued w + S k) by lia.
        apply Hall. lia. }
      specialize (IH Hwin).
      destruct (attempts svc retries (map Z.of_nat (seq (S a) (S n))) w1)
        as [out w'].
      destruct IH as (Hi & Hh & Ht). repeat split; auto. lia. }
    pose proof (Hall 0 ltac:(lia)) as Hf. rewrite Nat.add_0_r in Hf.
    destruct (svc (issued w)) as [txt|code|]; [contradiction| |].
    + destruct (Z.eqb_spec code 429); [|rewrite Hlt]; now apply Hnext.
    + rewrite Hlt. now apply Hnext.
Qed.

(** C2, as the code has it. With a budget of at least one attempt, when
    no attempt gets a completion and the last one fails by an HTTP error
    other than 429 or by a timeout, the call makes exactly [retries] requests
    and raises: a [RuntimeError] that wraps the HTTP error, or the timeout
    exception itself, not wrapped. *)
Theorem exhausted_retries_raise (svc : service) (retries : Z) (w : world) :
  (1 <= retries)%Z ->
  (forall k, k < Z.to_nat retries -> failed (svc (issued w + k))) ->
  let last := svc (issued w + (Z.to_nat retries - 1)) in
  let (out, w') := call_cursor_api svc retries w in
  issued w' = issued w + Z.to_nat retries /\
  (forall code, last = HttpError code -> code <> 429%Z ->
                out = Raised (RuntimeError retries (HTTPError code))) /\
  (last = TimedOut -> out = Raised (Reraised Timeout)).
Proof.
  intros Hr Hall. unfold call_cursor_api, range.
  destruct (Z.to_nat retries) as [|n] eqn:En; [lia|].
  replace (S n - 1) with n by lia.
  apply attempts_all_failed; auto. lia.
Qed.

Lemma exhausted_retries_raise_witness :
  fst (call_cursor_api (script [HttpError 500; TimedOut] (HttpError 503))
                       default_retries fresh)
  = Raised (RuntimeError 3 (HTTPError 503)).
Proof.
  pose proof (exhausted_retries_raise
                (script [HttpError 500; TimedOut] (HttpError 503))
                default_retries fresh) as H.
  cbv zeta in H.
  destruct (call_cursor_api _ _ _) as [out w'].
  destruct H as (_ & H & _).
  - unfold default_retries. lia.
  - intros k Hk. change (Z.to_nat default_retries) with 3 in Hk.
    destruct k as [|[|[|k]]]; cbn; auto; lia.
  - apply (H 503%Z); [reflexivity|discriminate].
Defined.

(** C2, as stated, fails: when every attempt times out, the exception that
    leaves the call is the timeout itself, not an error that wraps it. *)
Lemma timeouts_leave_unwrapped :
  (forall k, failed (script [] TimedOut k)) /\
  ~ (exists n cause,
        fst (call_cursor_api (script [] TimedOut) default_retries fresh)
        = Raised (RuntimeError n cause)).
Proof.
  split.
  - intros k. unfold script. destruct k; exact I.
  - intros (n & cause & H). vm_compute in H. discriminate.
Qed.

(** When the last attempt is rate limited, the loop ends after its sleep
    and the call returns the empty string. *)
Lemma rate_limited_to_the_end :
  call_cursor_api (script [] (HttpError 429)) default_retries fresh
  = (Returned [], World 3 [Post; Sleep 10; Post; Sleep 20; Post; Sleep 30]).
Proof. reflexivity. Qed.

(** C3, as the code has it. With a budget of at least four attempts, three
    rate-limited requests followed by a success give exactly three sleeps,
    of 10, 20 and 30 seconds, and the text of the fourth answer. *)
Theorem three_rate_limits_then_success
        (svc : service) (retries : Z) (text : pystr) :
  (4 <= retries)%Z ->
  svc 0 = HttpError 429 -> svc 1 = HttpError 429 -> svc 2 = HttpError 429 ->
  svc 3 = Completed text ->
  call_cursor_api svc retries fresh
  = (Returned text,
     World 4 [Post; Sleep 10; Post; Sleep 20; Post; Sleep 30; Post]).
Proof.
  intros Hr H0 H1 H2 H3. unfold call_cursor_api, range.
  destruct (Z.to_nat retries) as [|[|[|[|n]]]] eqn:En; try lia.
  cbn [seq map attempts fresh issued post sleep trace].
  rewrite H0. cbn [Z.eqb Pos.eqb issued post sleep trace].
  rewrite H1. cbn [Z.eqb Pos.eqb issued post sleep trace].
  rewrite H2. cbn [Z.eqb Pos.eqb issued post sleep trace].
  rewrite H3. reflexivity.
Qed.

Lemma three_rate_limits_then_success_witness :
  call_cursor_api
    (script [HttpError 429; HttpError 429; HttpError 429] (Completed (lit "ok")))
    4 fresh
  = (Returned (lit "ok"),
     World 4 [Post; Sleep 10; Post; Sleep 20; Post; Sleep 30; Post]).
Proof.
  apply three_rate_limits_then_success; [lia | reflexivity ..].
Defined.

(** C3, as stated, fails: with the default budget of three attempts the
    fourth request is never made, and the text of the successful answer is
    not what the call returns. *)
Lemma default_budget_stops_before_success :
  let svc := script [HttpError 429; HttpError 429; HttpError 429]
                    (Completed (lit "ok")) in
  let (out, w) := call_cursor_api svc default_retries fresh in
  ~ (sleeps w = [10; 20; 30]%Z /\ out = Returned (lit "ok")) /\ posts w = 3.
Proof.
  vm_compute. split; [|reflexivity]. intros [_ H]. discriminate.
Qed.

End ClientFacts.

(* ------------------------------------------------------------------ *)
(** ** The filesystem calls *)

Module OsFacts.

Lemma bind_inr {A B} (m : M A) (k : A -> M B) f b f' :
  Fs.bind m k f = (inr b, f') ->
  exists a f1, m f = (inr a, f1) /\ k a f1 = (inr b, f').
Proof.
  unfold Fs.bind. destruct (m f) as [[e|a] f1]; [discriminate|]. eauto.
Qed.

Lemma node_at_update f l n l' :
  l <> [] ->
  node_at (update f l n) l' = if path_eq_dec l l' then n else node_at f l'.
Proof.
  intros Hl. unfold node_at, update. destruct l' as [|x l'].
  - destruct (path_eq_dec l []); congruence.
  - reflexivity.
Qed.

Lemma node_at_update_same f l n : l <> [] -> node_at (update f l n) l = n.
Proof.
  intros Hl. rewrite node_at_update by auto.
  destruct (path_eq_dec l l); congruence.
Qed.

Lemma node_at_update_other f l n l' :
  l <> l' -> node_at (update f l n) l' = node_at f l'.
Proof.
  intros Hl. unfold node_at, update. destruct l' as [|x l']; auto.
  destruct (path_eq_dec l (x :: l')); congruence.
Qed.

Lemma node_at_not_dir_nonroot f l : node_at f l <> Some Dir -> l <> [].
Proof. intros H ->. now apply H. Qed.

(** *** Resolution *)

Lemma resolve_norm f : forall p cur l, resolve f cur p = inr l -> l = norm cur p.
Proof.
  induction p as [|seg p IH]; intros cur l H; simpl in *.
  - now inversion H.
  - destruct (node_at f cur) as [[d|]|]; try discriminate. now apply IH.
Qed.

Lemma resolve_locate f p l : resolve f [] p = inr l -> l = locate p.
Proof. apply resolve_norm. Qed.

Lemma norm_clean : forall p cur, clean p -> norm cur p = cur ++ p.
Proof.
  unfold clean.
  induction p as [|seg p IH]; intros cur H; simpl.
  - now rewrite app_nil_r.
  - destruct (pystr_eq_dec seg dotdot) as [->|_].
    + exfalso. apply H. now left.
    + rewrite IH; [now rewrite <- app_assoc | intros Hin; apply H; now right].
Qed.

Lemma locate_clean p : clean p -> locate p = p.
Proof. intros H. unfold locate. now rewrite norm_clean. Qed.

Lemma clean_app a b : clean a -> clean b -> clean (a ++ b).
Proof. unfold clean. intros Ha Hb H. apply in_app_or in H. tauto. Qed.

Lemma clean_app_inv a b : clean (a ++ b) -> clean a /\ clean b.
Proof. unfold clean. intros H. split; intros Hin; apply H, in_or_app; auto. Qed.

(** Changing what lies at a place that is not a directory leaves every
    successful resolution as it was: only directories are walked through. *)
Lemma resolve_update f l n : forall p cur l',
  node_at f l <> Some Dir ->
  resolve f cur p = inr l' -> resolve (update f l n) cur p = inr l'.
Proof.
  intros p. induction p as [|seg p IH]; intros cur l' Hl H; simpl in *; auto.
  destruct (node_at f cur) as [[d|]|] eqn:E; try discriminate.
  rewrite node_at_update_other by congruence.
  rewrite E. now apply IH.
Qed.

Lemma write_text_inr p d f f' :
  write_text p d f = (inr tt, f') ->
  exists l, resolve f [] p = inr l /\ node_at f l <> Some Dir /\
            f' = update f l (Some (File d)).
Proof.
  unfold write_text. destruct (resolve f [] p) as [e|l]; [discriminate|].
  intros H. exists l.
  destruct (node_at f l) as [[d0|]|] eqn:E; inversion H; subst;
    repeat split; auto; discriminate.
Qed.

(** What was written can be read back. *)
Lemma write_then_read p d f f' :
  write_text p d f = (inr tt, f') -> read p f' = (inr d, f').
Proof.
  intros H. apply write_text_inr in H. destruct H as (l & Hr & Hn & ->).
  unfold read. rewrite (resolve_update _ _ _ _ _ _ Hn Hr).
  rewrite node_at_update_same by now apply node_at_not_dir_nonroot with f.
  reflexivity.
Qed.

Lemma read_inr p d f f' :
  read p f = (inr d, f') ->
  f' = f /\ exists l, resolve f [] p = inr l /\ node_at f l = Some (File d).
Proof.
  unfold read. destruct (resolve f [] p) as [e|l]; [discriminate|].
  destruct (node_at f l) as [[d0|]|] eqn:E; intros H; inversion H; subst.
  eauto.
Qed.

(** *** Creating directories *)

(** [mkdirs] only turns missing entries into directories, also when it
    stops on an error. *)
Lemma mkdirs_grows : forall p cur f r f',
  mkdirs cur p f = (r, f') ->
  forall l, f' l = f l \/ (f l = None /\ f' l = Some Dir).
Proof.
  induction p as [|seg p IH]; intros cur f r f' H l; cbn [mkdirs] in H.
  - inversion H; auto.
  - destruct (pystr_eq_dec seg dotdot); [now apply (IH _ _ _ _ H)|].
    destruct (node_at f (cur ++ [seg])) as [[d|]|] eqn:E.
    + inversion H; auto.
    + now apply (IH _ _ _ _ H).
    + destruct (IH _ _ _ _ H l) as [Hl|[Hl1 Hl2]].
      * rewrite Hl. unfold update.
        destruct (path_eq_dec (cur ++ [seg]) l) as [<-|]; auto.
        right. split; auto.
        unfold node_at in E. now destruct (cur ++ [seg]).
      * unfold update in Hl1.
        destruct (path_eq_dec (cur ++ [seg]) l) as [<-|]; [discriminate|auto].
Qed.

(** Along a path without [..], the directories created lie on the path. *)
Lemma mkdirs_elsewhere : forall p cur f r f',
  clean p -> mkdirs cur p f = (r, f') ->
  forall l, (forall q q', p = q ++ q' -> q <> [] -> l <> cur ++ q) ->
            f' l = f l.
Proof.
  induction p as [|seg p IH]; intros cur f r f' Hc H l Hl; cbn [mkdirs] in H.
  - now inversion H.
  - destruct (pystr_eq_dec seg dotdot) as [->|_]; [exfalso; apply Hc; now left|].
    assert (Hc' : clean p) by (intros Hin; apply Hc; now right).
    assert (Hrec : forall f0, mkdirs (cur ++ [seg]) p f0 = (r, f') ->
                              f' l = f0 l).
    { intros f0 H0. apply (IH _ _ _ _ Hc' H0).
      intros q q' -> Hq E. apply (Hl (seg :: q) q'); auto; [discriminate|].
      now rewrite E, <- app_assoc. }
    destruct (node_at f (cur ++ [seg])) as [[d|]|] eqn:E.
    + now inversion H.
    + now apply Hrec.
    + rewrite (Hrec _ H). unfold update.
      destruct (path_eq_dec (cur ++ [seg]) l) as [<-|]; auto.
      exfalso. apply (Hl [seg] p); auto. discriminate.
Qed.

Lemma mkdirs_keeps p cur f r f' l :
  mkdirs cur p f = (r, f') -> f l <> None -> f' l = f l.
Proof.
  intros H Hl. destruct (mkdirs_grows _ _ _ _ _ H l) as [E|[E _]]; congruence.
Qed.

Lemma node_at_keeps f f' l :
  (f l <> None -> f' l = f l) -> node_at f l <> None -> node_at f' l = node_at f l.
Proof. destruct l; simpl; auto. Qed.

Lemma extends_refl f : extends f f.
Proof. now intros l _. Qed.

Lemma extends_trans f g h : extends f g -> extends g h -> extends f h.
Proof.
  intros H1 H2 l Hl. rewrite H2; [now apply H1|]. rewrite H1; auto.
Qed.

Lemma mkdirs_extends p cur f r f' : mkdirs cur p f = (r, f') -> extends f f'.
Proof. intros H l Hl. eapply mkdirs_keeps; eauto. Qed.

Lemma extends_node_at f f' l :
  extends f f' -> node_at f l <> None -> node_at f' l = node_at f l.
Proof. intros H. apply node_at_keeps. apply H. Qed.

Lemma extends_resolve f f' : forall p cur l,
  extends f f' -> resolve f cur p = inr l -> resolve f' cur p = inr l.
Proof.
  induction p as [|seg p IH]; intros cur l He H; simpl in *; auto.
  destruct (node_at f cur) as [[d|]|] eqn:E; try discriminate.
  rewrite (extends_node_at f f' cur He) by congruence.
  rewrite E. now apply IH.
Qed.

Lemma extends_read f f' p d :
  extends f f' -> read p f = (inr d, f) -> read p f' = (inr d, f').
Proof.
  intros He H. apply read_inr in H. destruct H as (_ & l & Hr & Hn).
  unfold read. rewrite (extends_resolve _ _ _ _ _ He Hr).
  rewrite (extends_node_at f f' l He) by congruence. now rewrite Hn.
Qed.

Lemma extends_is_dir f f' p :
  extends f f' -> fst (exists_ p f) = inr true ->
  fst (is_dir p f') = fst (is_dir p f).
Proof.
  unfold exists_, is_dir. intros He H.
  destruct (resolve f [] p) as [e|l] eqn:Hr; [discriminate|].
  rewrite (extends_resolve _ _ _ _ _ He Hr).
  destruct (node_at f l) as [n|] eqn:Hn; [|discriminate].
  rewrite (extends_node_at f f' l He) by congruence. now rewrite Hn.
Qed.

(** A path that resolves goes through directories only. *)
Lemma resolve_through f : forall p q cur l,
  clean p -> q <> [] ->
  resolve f cur (p ++ q) = inr l -> node_at f (cur ++ p) = Some Dir.
Proof.
  induction p as [|seg p IH]; intros q cur l Hc Hq H.
  - rewrite app_nil_r. destruct q as [|s q]; [congruence|]. simpl in H.
    destruct (node_at f cur) as [[d|]|]; try discriminate. reflexivity.
  - cbn [app resolve] in H.
    destruct (node_at f cur) as [[d|]|]; try discriminate.
    destruct (pystr_eq_dec seg dotdot) as [->|_]; [exfalso; apply Hc; now left|].
    replace (cur ++ seg :: p) with ((cur ++ [seg]) ++ p)
      by now rewrite <- app_assoc.
    apply (IH q _ l); auto. intros Hin. apply Hc. now right.
Qed.

Lemma mkdirs_grows_where : forall p cur f r f',
  clean p -> mkdirs cur p f = (r, f') ->
  forall l, f' l = f l \/
            (f l = None /\ f' l = Some Dir /\
             exists q q', p = q ++ q' /\ q <> [] /\ l = cur ++ q).
Proof.
  induction p as [|seg p IH]; intros cur f r f' Hc H l; cbn [mkdirs] in H.
  - inversion H; auto.
  - destruct (pystr_eq_dec seg dotdot) as [->|_]; [exfalso; apply Hc; now left|].
    assert (Hc' : clean p) by (intros Hin; apply Hc; now right).
    assert (Hrec : forall f0, mkdirs (cur ++ [seg]) p f0 = (r, f') ->
              f' l = f0 l \/
              (f0 l = None /\ f' l = Some Dir /\
               exists q q', seg :: p = q ++ q' /\ q <> [] /\ l = cur ++ q)).
    { intros f0 H0.
      destruct (IH _ _ _ _ Hc' H0 l) as [E|(E1 & E2 & q & q' & -> & Hq & ->)];
        auto.
      right. repeat split; auto.
      exists (seg :: q), q'. rewrite <- app_assoc.
      repeat split; auto. discriminate. }
    destruct (node_at f (cur ++ [seg])) as [[d|]|] eqn:E.
    + inversion H; auto.
    + now apply Hrec.
    + destruct (Hrec _ H) as [E1|(E1 & E2 & Hq)].
      * rewrite E1. unfold update.
        destruct (path_eq_dec (cur ++ [seg]) l) as [<-|]; auto.
        right. repeat split.
        -- unfold node_at in E. now destruct (cur ++ [seg]).
        -- exists [seg], p. repeat split; auto. discriminate.
      * unfold update in E1.
        destruct (path_eq_dec (cur ++ [seg]) l); [discriminate|].
        right. auto.
Qed.

Lemma resolve_snoc f : forall p cur l seg,
  resolve f cur p = inr l -> node_at f l = Some Dir -> seg <> dotdot ->
  resolve f cur (p ++ [seg]) = inr (l ++ [seg]).
Proof.
  induction p as [|s p IH]; intros cur l seg H Hl Hseg; simpl in *.
  - inversion H; subst. rewrite Hl.
    now destruct (pystr_eq_dec seg dotdot).
  - destruct (node_at f cur) as [[d|]|]; try discriminate. now apply IH.
Qed.

(** [mkdirs] succeeds when no file lies on the path, and then the path
    leads to a directory. *)
Lemma mkdirs_ok : forall p cur f,
  clean p -> node_at f cur = Some Dir ->
  (forall q q' d, p = q ++ q' -> q <> [] ->
                  node_at f (cur ++ q) <> Some (File d)) ->
  exists f', mkdirs cur p f = (inr tt, f') /\
             resolve f' cur p = inr (cur ++ p) /\
             node_at f' (cur ++ p) = Some Dir.
Proof.
  induction p as [|seg p IH]; intros cur f Hc Hcur Hno.
  - exists f. rewrite app_nil_r. repeat split; auto.
  - cbn [mkdirs].
    destruct (pystr_eq_dec seg dotdot) as [->|Hseg]; [exfalso; apply Hc; now left|].
    assert (Hc' : clean p) by (intros Hin; apply Hc; now right).
    assert (Hnext : cur ++ [seg] <> cur).
    { intros E. apply (f_equal (@length _)) in E. rewrite length_app in E.
      cbn [length] in E. lia. }
    assert (Hstep : forall f1,
              node_at f1 (cur ++ [seg]) = Some Dir ->
              node_at f1 cur = Some Dir ->
              (forall q q' d, p = q ++ q' -> q <> [] ->
                              node_at f1 ((cur ++ [seg]) ++ q) <> Some (File d)) ->
              exists f', mkdirs (cur ++ [seg]) p f1 = (inr tt, f') /\
                         resolve f' cur (seg :: p) = inr (cur ++ seg :: p) /\
                         node_at f' (cur ++ seg :: p) = Some Dir).
    { intros f1 Hn1 Hc1 Hno1.
      destruct (IH (cur ++ [seg]) f1 Hc' Hn1 Hno1) as (f' & Hm & Hr & Hd).
      exists f'. rewrite <- app_assoc in Hr, Hd. cbn [app] in Hr, Hd.
      repeat split; auto. cbn [resolve].
      rewrite (extends_node_at f1 f' cur (mkdirs_extends _ _ _ _ _ Hm))
        by congruence.
      rewrite Hc1. now destruct (pystr_eq_dec seg dotdot). }
    destruct (node_at f (cur ++ [seg])) as [[d|]|] eqn:E.
    + exfalso. apply (Hno [seg] p d); auto. discriminate.
    + apply Hstep; auto. intros q q' d -> Hq.
      rewrite <- app_assoc. apply (Hno (seg :: q) q'); auto. discriminate.
    + apply Hstep.
      * apply node_at_update_same. now destruct cur.
      * now rewrite node_at_update_other.
      * intros q q' d -> Hq. rewrite node_at_update_other.
        -- rewrite <- app_assoc. apply (Hno (seg :: q) q'); auto. discriminate.
        -- intros Eq. apply (f_equal (@length _)) in Eq.
           rewrite !length_app in Eq. destruct q; [congruence|].
           cbn [length] in Eq. lia.
Qed.

Lemma is_dir_true p f :
  clean p -> fst (is_dir p f) = inr true ->
  resolve f [] p = inr p /\ node_at f p = Some Dir.
Proof.
  unfold is_dir. intros Hc H.
  destruct (resolve f [] p) as [e|l] eqn:Hr; [discriminate|].
  pose proof (resolve_locate _ _ _ Hr) as El.
  rewrite locate_clean in El by auto. subst l. split; auto.
  destruct (node_at f p) as [[d|]|]; try discriminate. reflexivity.
Qed.

Lemma exists_resolve p f :
  clean p -> fst (exists_ p f) = inr true ->
  resolve f [] p = inr p /\ node_at f p <> None.
Proof.
  unfold exists_. intros Hc H.
  destruct (resolve f [] p) as [e|l] eqn:Hr; [discriminate|].
  pose proof (resolve_locate _ _ _ Hr) as El.
  rewrite locate_clean in El by auto. subst l. split; auto.
  now destruct (node_at f p).
Qed.

Lemma read_update_other p d f l n :
  read p f = (inr d, f) -> node_at f l <> Some Dir -> locate p <> l ->
  read p (update f l n) = (inr d, update f l n).
Proof.
  intros H Hn Hl. apply read_inr in H. destruct H as (_ & l' & Hr & Hd).
  unfold read. rewrite (resolve_update _ _ _ _ _ _ Hn Hr).
  apply resolve_locate in Hr. subst l'.
  rewrite node_at_update_other by congruence. now rewrite Hd.
Qed.

Lemma read_update_same p d f l :
  resolve f [] p = inr l -> node_at f l <> Some Dir ->
  read p (update f l (Some (File d))) = (inr d, update f l (Some (File d))).
Proof.
  intros Hr Hn. unfold read. rewrite (resolve_update _ _ _ _ _ _ Hn Hr).
  rewrite node_at_update_same by now apply node_at_not_dir_nonroot with f.
  reflexivity.
Qed.

Lemma extends_read_back f f' p d :
  extends f f' -> clean p -> fst (exists_ p f) = inr true ->
  read p f' = (inr d, f') -> read p f = (inr d, f).
Proof.
  intros He Hc Hx H. destruct (exists_resolve _ _ Hc Hx) as [Hr Hn].
  apply read_inr in H. destruct H as (_ & l & Hr' & Hd).
  rewrite (extends_resolve _ _ _ _ _ He Hr) in Hr'. inversion Hr'; subst l.
  rewrite (extends_node_at _ _ _ He Hn) in Hd.
  unfold read. now rewrite Hr, Hd.
Qed.

End OsFacts.

(* ------------------------------------------------------------------ *)
(** ** The apply step *)

Module ApplierFacts.
Import OsFacts.

(** The operations are applied one after the other, in the order of the
    list. *)
Lemma apply_loop_app tgt : forall a b st f,
  apply_loop tgt (a ++ b) st f =
  match apply_loop tgt a st f with
  | (inr st', f') => apply_loop tgt b st' f'
  | (inl e, f') => (inl e, f')
  end.
Proof.
  induction a as [|c a IH]; intros b st f; cbn [app apply_loop].
  - unfold ret. reflexivity.
  - destruct (c_action c); unfold Fs.bind.
    + destruct (mkdir_parents _ f) as [[e|[]] f1]; auto.
      destruct (write_text _ _ f1) as [[e|[]] f2]; auto.
    + destruct (exists_ _ f) as [[e|[|]] f1]; auto.
      destruct (unlink _ f1) as [[e|[]] f2]; auto.
Qed.

(** C7. In dry-run mode the tree is left as it is, whatever the plan; the
    statistics count the write and the delete operations of the plan and
    report nothing copied or skipped; a second dry run gives the same
    statistics. *)
Theorem dry_run_counts (source_root target_root : path)
        (listing : list path) (all_changes : list change) (f : fs) :
  let expected :=
    Stats 0 (length (filter (is_action write) all_changes))
            (length (filter (is_action delete) all_changes)) 0 in
  step_apply_changes source_root target_root listing all_changes true f
  = (inr expected, f) /\
  (let (_, f1) :=
     step_apply_changes source_root target_root listing all_changes true f in
   step_apply_changes source_root target_root listing all_changes true f1
   = (inr expected, f)).
Proof. split; reflexivity. Qed.

(** The example of the specification: four writes and two deletes. *)
Lemma dry_run_four_writes_two_deletes (source_root target_root : path)
      (listing : list path) (f : fs) (p1 p2 p3 p4 p5 p6 c1 c2 c3 c4 : pystr) :
  step_apply_changes source_root target_root listing
    [Change write p1 c1; Change delete p5 []; Change write p2 c2;
     Change write p3 c3; Change delete p6 []; Change write p4 c4] true f
  = (inr (Stats 0 4 2 0), f).
Proof. reflexivity. Qed.

Lemma apply_two_writes tgt p v1 v2 st f st' f' :
  apply_loop tgt [Change write p v1; Change write p v2] st f = (inr st', f') ->
  read (joinpath tgt p) f' = (inr v2, f') /\
  st' = inc_written (inc_written st).
Proof.
  cbn [apply_loop c_action c_path c_content]. intros H.
  apply bind_inr in H. destruct H as ([] & f1 & _ & H).
  apply bind_inr in H. destruct H as ([] & f2 & _ & H).
  apply bind_inr in H. destruct H as ([] & f3 & _ & H).
  apply bind_inr in H. destruct H as ([] & f4 & Hw & H).
  inversion H; subst. split; auto. eapply write_then_read; eauto.
Qed.

Lemma apply_delete_present tgt p c st f data :
  read (joinpath tgt p) f = (inr data, f) ->
  exists f',
    apply_loop tgt [Change delete p c] st f = (inr (inc_deleted st), f') /\
    exists_ (joinpath tgt p) f' = (inr false, f') /\
    (forall l, l <> locate (joinpath tgt p) -> f' l = f l).
Proof.
  intros H. apply read_inr in H. destruct H as (_ & l & Hr & Hn).
  assert (Hnd : node_at f l <> Some Dir) by congruence.
  exists (update f l None).
  cbn [apply_loop c_action c_path]. unfold Fs.bind, exists_, unlink.
  rewrite Hr, Hn. rewrite Hr, Hn. unfold ret.
  rewrite (resolve_update _ _ _ _ _ _ Hnd Hr).
  rewrite node_at_update_same by now apply node_at_not_dir_nonroot with f.
  repeat split.
  intros l' Hl'. unfold update.
  destruct (path_eq_dec l l') as [<-|]; auto.
  apply resolve_locate in Hr. congruence.
Qed.

Lemma apply_delete_absent tgt p c st f :
  exists_ (joinpath tgt p) f = (inr false, f) ->
  apply_loop tgt [Change delete p c] st f = (inr (inc_skipped st), f).
Proof.
  intros H. cbn [apply_loop c_action c_path]. unfold Fs.bind.
  now rewrite H.
Qed.

(** *** The copy loop, one path at a time *)

Lemma copy_loop_cons src tgt e more st f :
  copy_loop src tgt (e :: more) st f =
  match copy_one src tgt e f with
  | (inr b, f') => copy_loop src tgt more (if b then inc_copied st else st) f'
  | (inl err, f') => (inl err, f')
  end.
Proof.
  cbn [copy_loop]. unfold copy_one, Fs.bind.
  destruct (is_dir e f) as [[err|d] f1]; auto.
  destruct (d || ignored e); auto.
  destruct (relative_to e src f1) as [[err|rel] f2]; auto.
  destruct (under_convex rel); auto.
  destruct (mkdir_parents _ f2) as [[err|[]] f3]; auto.
  destruct (copy2 _ _ f3) as [[err|[]] f4]; auto.
Qed.

Lemma strip_prefix_app src : forall rel, strip_prefix src (src ++ rel) = Some rel.
Proof.
  induction src as [|x src IH]; intros rel; simpl; auto.
  destruct (pystr_eq_dec x x); [apply IH|congruence].
Qed.

Lemma is_dir_inr p f : exists b, is_dir p f = (inr b, f).
Proof.
  unfold is_dir. destruct (resolve f [] p); eauto.
Qed.

Lemma samefile_inr a b f : exists r, samefile a b f = (inr r, f).
Proof.
  unfold samefile. destruct (resolve f [] a), (resolve f [] b); eauto.
Qed.

Lemma write_text_cases p d f r f' :
  write_text p d f = (r, f') ->
  (f' = f /\ r <> inr tt) \/
  (r = inr tt /\ exists l, resolve f [] p = inr l /\
                   node_at f l <> Some Dir /\ f' = update f l (Some (File d))).
Proof.
  intros H. destruct r as [e|[]].
  - left. unfold write_text in H.
    destruct (resolve f [] p) as [e0|l]; [inversion H; split; auto; discriminate|].
    destruct (node_at f l) as [[d0|]|]; inversion H; split; auto; discriminate.
  - right. split; auto. now apply write_text_inr.
Qed.

(** What [copy2] does to the tree: nothing, or one file written, at the
    destination or inside it when it is a directory. *)
Lemma copy2_cases src dst f r f' :
  copy2 src dst f = (r, f') ->
  (f' = f /\ r <> inr tt) \/
  (r = inr tt /\ exists dst' l d,
     (fst (is_dir dst f) = inr false /\ dst' = dst \/
      fst (is_dir dst f) = inr true /\ dst' = dst ++ [name src]) /\
     read src f = (inr d, f) /\
     resolve f [] dst' = inr l /\ node_at f l <> Some Dir /\
     f' = update f l (Some (File d))).
Proof.
  unfold copy2, Fs.bind.
  destruct (is_dir_inr dst f) as [b Hb]. rewrite Hb.
  set (dst' := if b then dst ++ [name src] else dst).
  destruct (samefile_inr src dst' f) as [same Hs]. rewrite Hs.
  destruct same; [intros H; inversion H; left; split; auto; discriminate|].
  destruct (read src f) as [[e|d] f1] eqn:Hr.
  - intros H. inversion H; subst. left.
    unfold read in Hr. destruct (resolve f [] src) as [e0|l].
    + inversion Hr; split; auto; discriminate.
    + destruct (node_at f l) as [[d0|]|]; inversion Hr; split; auto; discriminate.
  - destruct (read_inr _ _ _ _ Hr) as [-> _].
    intros H. apply write_text_cases in H.
    destruct H as [[-> Hne]|[-> (l & Hl & Hn & ->)]]; [left; auto|].
    right. split; auto. exists dst', l, d. repeat split; auto.
    destruct b; [right|left]; auto.
Qed.

Lemma parent_app tgt rel : rel <> [] -> parent (tgt ++ rel) = tgt ++ removelast rel.
Proof. intros H. unfold parent. now apply removelast_app. Qed.

Lemma clean_removelast p : clean p -> clean (removelast p).
Proof.
  unfold clean. induction p as [|x p IH]; auto.
  intros H Hin. destruct p as [|y p]; [contradiction|].
  cbn [removelast] in Hin. destruct Hin as [E|Hin].
  - apply H. now left.
  - apply IH; auto. intros Hy. apply H. now right.
Qed.

Lemma name_app src rel : rel <> [] -> name (src ++ rel) = last rel [].
Proof.
  intros H. unfold name. destruct (exists_last H) as (a & z & ->).
  now rewrite app_assoc, !last_last.
Qed.

Lemma last_in (rel : path) : rel <> [] -> In (last rel []) rel.
Proof.
  intros Hne. destruct (exists_last Hne) as (a & z & ->).
  rewrite last_last. apply in_or_app. right. now left.
Qed.

Lemma clean_last rel : rel <> [] -> clean rel -> clean [last rel []].
Proof.
  intros Hne Hc [E|[]]. apply Hc. unfold dotdot in *. rewrite <- E.
  now apply last_in.
Qed.

Lemma under_convex_cons rel' : under_convex (convex :: rel') = true.
Proof.
  cbn. unfold pystr_eqb. destruct (pystr_eq_dec convex convex); congruence.
Qed.

Lemma not_under_convex tgt rel x :
  under_convex rel = false -> rel <> [] ->
  ~ under (tgt ++ [convex]) (tgt ++ rel ++ x).
Proof.
  intros Hu Hne [y E]. rewrite <- app_assoc in E. apply app_inv_head in E.
  destruct rel as [|s rel]; [congruence|]. cbn [app] in E.
  inversion E; subst s. now rewrite under_convex_cons in Hu.
Qed.

Lemma not_under_convex_parent tgt rel q q' :
  under_convex rel = false -> rel <> [] ->
  tgt ++ removelast rel = q ++ q' -> ~ under (tgt ++ [convex]) q.
Proof.
  intros Hu Hne E [y ->]. rewrite <- !app_assoc in E. apply app_inv_head in E.
  cbn [app] in E.
  assert (Er : rel = (convex :: y ++ q') ++ [last rel []]).
  { rewrite <- E. now apply app_removelast_last. }
  rewrite Er in Hu. cbn [app] in Hu. now rewrite under_convex_cons in Hu.
Qed.

(** One path of the loop, seen from a place of the legacy subtree of the
    target: nothing happens there. *)
Lemma copy_one_convex_untouched src tgt e f r f' :
  clean tgt ->
  (exists rel, e = src ++ rel /\ rel <> [] /\ clean rel) ->
  copy_one src tgt e f = (r, f') ->
  forall l, under (tgt ++ [convex]) l -> f' l = f l.
Proof.
  intros Ht (rel & -> & Hne & Hc) H l Hl. unfold copy_one in H.
  destruct (is_dir_inr (src ++ rel) f) as [b Hb].
  unfold Fs.bind in H. rewrite Hb in H.
  destruct (b || ignored (src ++ rel)); [now inversion H|].
  unfold relative_to in H. rewrite strip_prefix_app in H. unfold ret at 1 in H.
  destruct (under_convex rel) eqn:Hu; [now inversion H|].
  rewrite parent_app in H by auto.
  destruct (mkdir_parents (tgt ++ removelast rel) f) as [r1 f1] eqn:Hm.
  assert (H1 : f1 l = f l).
  { apply (mkdirs_elsewhere _ _ _ _ _
             (clean_app _ _ Ht (clean_removelast _ Hc)) Hm).
    intros q q' E Hq ->. cbn [app] in Hl.
    now apply (not_under_convex_parent tgt rel q q'). }
  destruct r1 as [err|[]]; [inversion H; now subst|].
  destruct (copy2 (src ++ rel) (tgt ++ rel) f1) as [r2 f2] eqn:Hcp.
  assert (H2 : f2 l = f1 l).
  { apply copy2_cases in Hcp.
    destruct Hcp as [[-> _]|[_ (dst' & l' & d & Hd & _ & Hr & _ & ->)]]; auto.
    unfold update. destruct (path_eq_dec l' l) as [->|]; auto.
    exfalso. apply resolve_locate in Hr.
    destruct Hd as [[_ ->]|[_ ->]].
    - rewrite locate_clean in Hr by now apply clean_app.
      subst l. rewrite <- (app_nil_r rel) in Hl.
      now apply (not_under_convex tgt rel []) in Hl.
    - rewrite name_app in Hr by auto.
      rewrite locate_clean in Hr
        by (repeat apply clean_app; auto; now apply clean_last).
      subst l. rewrite <- app_assoc in Hl.
      now apply (not_under_convex tgt rel _) in Hl. }
  destruct r2 as [err|[]]; inversion H; subst; congruence.
Qed.

Lemma copy_loop_convex_untouched src tgt : forall listing st f r f',
  clean tgt -> listed_below src listing ->
  copy_loop src tgt listing st f = (r, f') ->
  forall l, under (tgt ++ [convex]) l -> f' l = f l.
Proof.
  induction listing as [|e more IH]; intros st f r f' Ht Hl H l Hu.
  - now inversion H.
  - rewrite copy_loop_cons in H. inversion Hl as [|? ? He Hmore]; subst.
    destruct (copy_one src tgt e f) as [[err|b] f1] eqn:H1.
    + inversion H; subst. eapply copy_one_convex_untouched; eauto.
    + rewrite (IH _ _ _ _ Ht Hmore H l Hu).
      eapply copy_one_convex_untouched; eauto.
Qed.

(** *** The apply loop and the places it does not write to *)

Lemma unlink_cases p f r f' :
  unlink p f = (r, f') ->
  f' = f \/ exists l, f' = update f l None.
Proof.
  unfold unlink. destruct (resolve f [] p) as [e|l]; [intros H; inversion H; auto|].
  destruct (node_at f l) as [[d|]|]; intros H; inversion H; eauto.
Qed.

Lemma exists_inr p f : exists b, exists_ p f = (inr b, f).
Proof. unfold exists_. destruct (resolve f [] p); eauto. Qed.

Lemma is_file_update_none f l L : ~ is_file f L -> ~ is_file (update f l None) L.
Proof.
  intros H [d Hd]. apply H. exists d.
  destruct (path_eq_dec l L) as [->|Hne].
  - destruct L as [|x L]; [exact Hd|].
    rewrite node_at_update_same in Hd; discriminate.
  - now rewrite node_at_update_other in Hd.
Qed.

Lemma is_file_update_other f l n L :
  l <> L -> ~ is_file f L -> ~ is_file (update f l n) L.
Proof.
  intros Hne H [d Hd]. apply H. exists d.
  now rewrite node_at_update_other in Hd.
Qed.

Lemma is_file_mkdirs p cur f r f' L :
  mkdirs cur p f = (r, f') -> ~ is_file f L -> ~ is_file f' L.
Proof.
  intros Hm H [d Hd]. apply H. exists d.
  destruct L as [|x L]; [exact Hd|]. cbn [node_at] in *.
  destruct (mkdirs_grows _ _ _ _ _ Hm (x :: L)) as [E|[_ E]]; congruence.
Qed.

(** The apply loop puts a file only where a write operation points. *)
Lemma apply_loop_no_file tgt L : forall changes st f r f',
  (forall c, In c changes -> c_action c = write ->
             locate (joinpath tgt (c_path c)) <> L) ->
  apply_loop tgt changes st f = (r, f') ->
  ~ is_file f L -> ~ is_file f' L.
Proof.
  induction changes as [|c more IH]; intros st f r f' Hw H Hn.
  - inversion H; now subst.
  - assert (Hmore : forall c', In c' more -> c_action c' = write ->
                               locate (joinpath tgt (c_path c')) <> L).
    { intros c' Hin. apply Hw. now right. }
    cbn [apply_loop] in H. destruct (c_action c) eqn:Ha.
    + unfold Fs.bind in H.
      destruct (mkdir_parents _ f) as [r1 f1] eqn:Hm.
      pose proof (is_file_mkdirs _ _ _ _ _ L Hm Hn) as Hn1.
      destruct r1 as [err|[]]; [inversion H; now subst|].
      destruct (write_text _ _ f1) as [r2 f2] eqn:Hwt.
      apply write_text_cases in Hwt.
      destruct Hwt as [[-> Hr2]|[-> (l & Hl & _ & ->)]].
      * destruct r2 as [err|[]]; [inversion H; now subst|congruence].
      * apply (IH _ _ _ _ Hmore H).
        apply is_file_update_other; auto.
        apply resolve_locate in Hl. rewrite Hl. apply Hw; auto. now left.
    + unfold Fs.bind in H.
      destruct (exists_inr (joinpath tgt (c_path c)) f) as [b Hb].
      rewrite Hb in H. destruct b; [|now apply (IH _ _ _ _ Hmore H)].
      destruct (unlink _ f) as [r1 f1] eqn:Hu.
      apply unlink_cases in Hu.
      assert (Hn1 : ~ is_file f1 L).
      { destruct Hu as [->|[l ->]]; auto. now apply is_file_update_none. }
      destruct r1 as [err|[]]; [inversion H; now subst|].
      now apply (IH _ _ _ _ Hmore H).
Qed.

(** *** The copy loop on an empty target *)

Section CopyLoop.

Variables (src tgt : path) (listing : list path) (f0 : fs).
Hypothesis Hs : clean src.
Hypothesis Ht : clean tgt.
Hypothesis Hlist : listed_below src listing.
Hypothesis Hex : forall e, In e listing -> fst (exists_ e f0) = inr true.
Hypothesis Htdir : fst (is_dir tgt f0) = inr true.
Hypothesis Hempty : forall l, below tgt l -> f0 l = None.

Lemma listed_entry e :
  In e listing -> exists rel, e = src ++ rel /\ rel <> [] /\ clean rel.
Proof. unfold listed_below in Hlist. rewrite Forall_forall in Hlist. auto. Qed.

Lemma nonroot_node f (l : loc) : l <> [] -> node_at f l = f l.
Proof. now destruct l. Qed.

Lemma target_below_nonroot rel : rel <> [] -> tgt ++ rel <> [].
Proof. intros H E. apply app_eq_nil in E. tauto. Qed.

(** A listed file is not a directory on the way to another listed path. *)
Lemma listed_file_no_children rel q :
  In (src ++ rel) listing -> In (src ++ rel ++ q) listing -> q <> [] ->
  fst (is_dir (src ++ rel) f0) = inr true.
Proof.
  intros H1 H2 Hq.
  destruct (listed_entry _ H1) as (r1 & E1 & _ & Hc1).
  apply app_inv_head in E1. subst r1.
  destruct (listed_entry _ H2) as (r2 & E2 & _ & Hc2).
  apply app_inv_head in E2. subst r2.
  destruct (exists_resolve _ _ (clean_app _ _ Hs Hc1) (Hex _ H1)) as [Hr1 _].
  destruct (exists_resolve _ _ (clean_app _ _ Hs Hc2) (Hex _ H2)) as [Hr2 _].
  rewrite app_assoc in Hr2.
  apply resolve_through in Hr2; auto; [|now apply clean_app].
  cbn [app] in Hr2. unfold is_dir. now rewrite Hr1, Hr2.
Qed.

(** A listed path that is not a directory is a file. *)
Lemma listed_file_read rel :
  In (src ++ rel) listing -> fst (is_dir (src ++ rel) f0) = inr false ->
  exists d, read (src ++ rel) f0 = (inr d, f0).
Proof.
  intros Hin Hd.
  destruct (listed_entry _ Hin) as (r1 & E1 & _ & Hc1).
  apply app_inv_head in E1. subst r1.
  destruct (exists_resolve _ _ (clean_app _ _ Hs Hc1) (Hex _ Hin)) as [Hr Hn].
  unfold is_dir in Hd. unfold read. rewrite Hr in *.
  destruct (node_at f0 (src ++ rel)) as [[d|]|]; try discriminate; eauto.
  congruence.
Qed.

(** The place of a copy is not taken by a directory. *)
Lemma dest_not_dir rel f :
  In (src ++ rel) listing -> rel <> [] -> clean rel ->
  fst (is_dir (src ++ rel) f0) = inr false ->
  dirs_accounted src tgt listing f0 f ->
  f (tgt ++ rel) <> Some Dir.
Proof.
  intros Hin Hne Hc Hd I2 Hn.
  destruct (I2 _ Hn) as [E1|[[q Eq]|(rel2 & a & q & Hin2 & -> & Hq & Ea)]].
  - rewrite Hempty in E1; [discriminate|]. now exists rel.
  - apply (f_equal (@length _)) in Eq. rewrite !length_app in Eq.
    destruct rel; [congruence|cbn [length] in Eq; lia].
  - apply app_inv_head in Ea. subst a.
    pose proof (listed_file_no_children rel q Hin Hin2 Hq) as Hdir.
    rewrite Hd in Hdir. discriminate.
Qed.

(** The directories made for a copy are accounted for. *)
Lemma mkdirs_dirs_accounted rel f fa :
  In (src ++ rel) listing -> rel <> [] -> clean rel ->
  dirs_accounted src tgt listing f0 f ->
  mkdir_parents (tgt ++ removelast rel) f = (inr tt, fa) ->
  dirs_accounted src tgt listing f0 fa.
Proof.
  intros Hin Hne Hc I2 Hm l Hl.
  destruct (mkdirs_grows_where _ _ _ _ _
              (clean_app _ _ Ht (clean_removelast _ Hc)) Hm l)
    as [E|(E1 & E2 & q & q' & Eq & Hq & ->)].
  - apply I2. congruence.
  - cbn [app]. apply app_eq_app in Eq.
    destruct Eq as [x [[Ex _]|[Ex Ex']]].
    + right. left. now exists x.
    + right. right. exists rel, x, (q' ++ [last rel []]).
      repeat split; auto.
      * rewrite app_assoc, <- Ex'. now apply app_removelast_last.
      * now destruct q'.
Qed.

(** No file lies on the way to the place of a copy. *)
Lemma way_has_no_file rel f q q' d :
  In (src ++ rel) listing -> rel <> [] ->
  extends f0 f -> files_accounted src tgt listing f0 f ->
  tgt ++ removelast rel = q ++ q' -> q <> [] ->
  node_at f q <> Some (File d).
Proof.
  intros Hin Hne I1 I4 Eq Hq Hn. rewrite nonroot_node in Hn by auto.
  destruct (is_dir_true _ _ Ht Htdir) as [Hrt Hnt].
  apply app_eq_app in Eq. destruct Eq as [x [[Ex _]|[Ex Ex']]].
  - (* on the way to the target root *)
    assert (Hq0 : node_at f0 q = Some Dir).
    { destruct x as [|s x].
      - rewrite app_nil_r in Ex. now subst q.
      - rewrite Ex in Hrt, Ht. apply clean_app_inv in Ht.
        apply resolve_through in Hrt; [exact Hrt|tauto|discriminate]. }
    rewrite nonroot_node in Hq0 by auto.
    rewrite I1 in Hn; congruence.
  - (* below the target root *)
    subst q. destruct x as [|s x].
    + rewrite app_nil_r in Hn. rewrite nonroot_node in Hnt.
      * rewrite I1 in Hn; congruence.
      * now rewrite app_nil_r in Hq.
    + destruct (I4 _ _ Hn) as [E0|(rel2 & Hin2 & Hd2 & E2)].
      * apply E0, Hempty. exists (s :: x). split; [discriminate|reflexivity].
      * apply app_inv_head in E2. subst rel2.
        assert (Er : rel = (s :: x) ++ q' ++ [last rel []]).
        { rewrite app_assoc, <- Ex'. now apply app_removelast_last. }
        rewrite Er in Hin.
        assert (Hq' : q' ++ [last rel []] <> []) by now destruct q'.
        pose proof (listed_file_no_children _ _ Hin2 Hin Hq') as Hdir.
        rewrite Hd2 in Hdir. discriminate.
Qed.

Lemma copy_one_inv done e f b f1 :
  In e listing -> incl done listing ->
  copy_inv src tgt listing done f0 f ->
  copy_one src tgt e f = (inr b, f1) ->
  copy_inv src tgt listing (e :: done) f0 f1 /\
  b = enumerated f0 e
      && match strip_prefix src e with
         | Some rel => negb (under_convex rel)
         | None => true
         end.
Proof.
  intros Hin Hdone (I1 & I2 & I4 & I3) H.
  destruct (listed_entry e Hin) as (rel & -> & Hne & Hc).
  pose proof (Hex _ Hin) as Hx.
  assert (Hce : clean (src ++ rel)) by now apply clean_app.
  assert (Hcd : clean (tgt ++ rel)) by now apply clean_app.
  pose proof (extends_is_dir f0 f _ I1 Hx) as Hd.
  unfold copy_one, Fs.bind in H.
  destruct (is_dir_inr (src ++ rel) f) as [d Hdf]. rewrite Hdf in H.
  assert (Hd0 : fst (is_dir (src ++ rel) f0) = inr d).
  { rewrite <- Hd, Hdf. reflexivity. }
  assert (Hen : enumerated f0 (src ++ rel)
                = negb d && negb (ignored (src ++ rel))).
  { unfold enumerated.
    destruct (is_dir (src ++ rel) f0) as [r0 f0']. cbn [fst] in Hd0.
    now subst r0. }
  rewrite strip_prefix_app.
  destruct (d || ignored (src ++ rel)) eqn:Hdi.
  { inversion H; subst b f1. split.
    - repeat split; auto.
      intros e' rel' [<-|Hin'] E Hu Henum; [|now apply (I3 e' rel')].
      rewrite Hen in Henum.
      destruct d, (ignored (src ++ rel)); discriminate.
    - rewrite Hen. destruct d, (ignored (src ++ rel)); auto; discriminate. }
  apply orb_false_elim in Hdi. destruct Hdi as [-> Hig].
  unfold relative_to in H. rewrite strip_prefix_app in H. unfold ret at 1 in H.
  destruct (under_convex rel) eqn:Hu.
  { inversion H; subst b f1. split.
    - repeat split; auto.
      intros e' rel' [E'|Hin'] E Hu' Henum; [|now apply (I3 e' rel')].
      subst e'. apply app_inv_head in E. congruence.
    - now rewrite andb_false_r. }
  rewrite parent_app in H by auto.
  destruct (mkdir_parents (tgt ++ removelast rel) f) as [[err|[]] fa] eqn:Hm;
    [discriminate|].
  destruct (copy2 (src ++ rel) (tgt ++ rel) fa) as [[err|[]] fb] eqn:Hcp;
    [discriminate|].
  inversion H; subst b f1. clear H.
  pose proof (mkdirs_extends _ _ _ _ _ Hm) as Hfa.
  assert (I1a : extends f0 fa) by (eapply extends_trans; eauto).
  assert (I2a : dirs_accounted src tgt listing f0 fa)
    by now apply (mkdirs_dirs_accounted rel f fa).
  assert (I4a : files_accounted src tgt listing f0 fa).
  { intros l dd Hl. apply (I4 l dd).
    destruct (mkdirs_grows _ _ _ _ _ Hm l) as [E|[_ E]]; congruence. }
  assert (Hnotdir : fst (is_dir (tgt ++ rel) fa) = inr false).
  { destruct (is_dir_inr (tgt ++ rel) fa) as [[|] Hb]; rewrite Hb; auto.
    exfalso. assert (Hb' : fst (is_dir (tgt ++ rel) fa) = inr true)
      by now rewrite Hb.
    apply is_dir_true in Hb'; auto. destruct Hb' as [_ Hn0].
    rewrite nonroot_node in Hn0 by now apply target_below_nonroot.
    now apply (dest_not_dir rel fa). }
  apply copy2_cases in Hcp.
  destruct Hcp as [[_ Hbad]|[_ (dst' & l & d' & Hd' & Hrd & Hr & Hnd & ->)]];
    [congruence|].
  destruct Hd' as [[_ ->]|[Hdir _]]; [|rewrite Hnotdir in Hdir; discriminate].
  pose proof (resolve_locate _ _ _ Hr) as El.
  rewrite locate_clean in El by auto. subst l.
  assert (Hrd0 : read (src ++ rel) f0 = (inr d', f0))
    by (eapply extends_read_back; eauto).
  split.
  - split; [|split; [|split]].
    + intros l Hl. unfold update.
      destruct (path_eq_dec (tgt ++ rel) l) as [<-|]; [|now apply I1a].
      exfalso. apply Hl. apply Hempty. now exists rel.
    + intros l Hl. unfold update in Hl.
      destruct (path_eq_dec (tgt ++ rel) l); [discriminate|]. now apply I2a.
    + intros l dd Hl. unfold update in Hl.
      destruct (path_eq_dec (tgt ++ rel) l) as [<-|]; [|now apply (I4a l dd)].
      right. now exists rel.
    + intros e' rel' Hin' E' Hu' Hen'.
      destruct (path_eq_dec rel' rel) as [->|Hner].
      * exists d'. subst e'. split; auto. now apply read_update_same.
      * destruct Hin' as [E''|Hin'].
        { subst e'. apply app_inv_head in E'. congruence. }
        destruct (I3 _ _ Hin' E' Hu' Hen') as (d2 & Hr0 & Hrf).
        exists d2. split; auto.
        apply read_update_other; auto.
        -- now apply (extends_read f fa).
        -- destruct (listed_entry _ (Hdone _ Hin')) as (r' & Er & _ & Hcr).
           rewrite E' in Er. apply app_inv_head in Er. subst r'.
           rewrite locate_clean by now apply clean_app.
           intros E. apply app_inv_head in E. congruence.
  - rewrite Hen, Hig. reflexivity.
Qed.

(** On such a tree no step of the loop raises. *)
Lemma copy_one_succeeds done e f :
  In e listing ->
  copy_inv src tgt listing done f0 f ->
  exists b f1, copy_one src tgt e f = (inr b, f1).
Proof.
  intros Hin (I1 & I2 & I4 & I3).
  destruct (listed_entry e Hin) as (rel & -> & Hne & Hc).
  pose proof (Hex _ Hin) as Hx.
  assert (Hce : clean (src ++ rel)) by now apply clean_app.
  assert (Hcd : clean (tgt ++ rel)) by now apply clean_app.
  pose proof (extends_is_dir f0 f _ I1 Hx) as Hd.
  unfold copy_one, Fs.bind.
  destruct (is_dir_inr (src ++ rel) f) as [d Hdf]. rewrite Hdf.
  assert (Hd0 : fst (is_dir (src ++ rel) f0) = inr d).
  { rewrite <- Hd, Hdf. reflexivity. }
  destruct (d || ignored (src ++ rel)) eqn:Hdi; [unfold ret; eauto|].
  apply orb_false_elim in Hdi. destruct Hdi as [-> Hig].
  unfold relative_to. rewrite strip_prefix_app. unfold ret at 1.
  destruct (under_convex rel) eqn:Hu; [unfold ret; eauto|].
  rewrite parent_app by auto.
  destruct (mkdirs_ok (tgt ++ removelast rel) [] f) as (fa & Hm & Hrp & Hnp).
  { apply clean_app; auto. now apply clean_removelast. }
  { reflexivity. }
  { intros q q' dd Eq Hq. cbn [app].
    now apply (way_has_no_file rel f q q' dd). }
  unfold mkdir_parents. rewrite Hm. cbn [app] in Hrp, Hnp.
  pose proof (mkdirs_extends _ _ _ _ _ Hm) as Hfa.
  assert (I1a : extends f0 fa) by (eapply extends_trans; eauto).
  assert (I2a : dirs_accounted src tgt listing f0 fa)
    by now apply (mkdirs_dirs_accounted rel f fa).
  (* the destination resolves, and it is not a directory *)
  assert (Hrd : resolve fa [] (tgt ++ rel) = inr (tgt ++ rel)).
  { assert (Er : tgt ++ rel = (tgt ++ removelast rel) ++ [last rel []]).
    { rewrite <- app_assoc. f_equal. now apply app_removelast_last. }
    rewrite Er. apply resolve_snoc; auto.
    intros E. apply Hc. unfold dotdot in *. rewrite <- E. now apply last_in. }
  assert (Hnd : fa (tgt ++ rel) <> Some Dir) by now apply dest_not_dir.
  assert (Hnd' : node_at fa (tgt ++ rel) <> Some Dir).
  { now rewrite nonroot_node by now apply target_below_nonroot. }
  destruct (listed_file_read rel Hin Hd0) as [dd Hread0].
  pose proof (extends_read _ _ _ _ I1a Hread0) as Hread.
  unfold copy2, Fs.bind. unfold is_dir at 1. rewrite Hrd.
  destruct (node_at fa (tgt ++ rel)) as [[x|]|] eqn:En; try congruence.
  - (* a file is there already: another path than the source *)
    unfold samefile.
    destruct (exists_resolve _ _ Hce Hx) as [Hrs Hns].
    rewrite (extends_resolve _ _ _ _ _ I1a Hrs), Hrd.
    rewrite (extends_node_at _ _ _ I1a Hns), En.
    destruct (node_at f0 (src ++ rel)) as [n|] eqn:En0; [|congruence].
    destruct (path_eq_dec (src ++ rel) (tgt ++ rel)) as [E|_].
    + exfalso. rewrite E in En0.
      rewrite nonroot_node in En0 by now apply target_below_nonroot.
      rewrite Hempty in En0; [discriminate|]. now exists rel.
    + rewrite Hread. unfold write_text. rewrite Hrd, En. unfold ret. eauto.
  - unfold samefile.
    destruct (resolve fa [] (src ++ rel)) as [err|ls]; try rewrite Hrd.
    + rewrite Hread. unfold write_text. rewrite Hrd, En. unfold ret. eauto.
    + rewrite En.
      assert (Hsame : (match node_at fa ls with
                       | Some _ => false
                       | None => false
                       end) = false) by now destruct (node_at fa ls).
      rewrite Hsame, Hread. unfold write_text. rewrite Hrd, En.
      unfold ret. eauto.
Qed.

Lemma to_copy_cons e more :
  to_copy src (e :: more) f0 =
  if enumerated f0 e
     && match strip_prefix src e with
        | Some rel => negb (under_convex rel)
        | None => true
        end
  then e :: to_copy src more f0 else to_copy src more f0.
Proof.
  unfold to_copy, iter_source_files. cbn [filter].
  destruct (enumerated f0 e); cbn [filter andb]; auto.
Qed.

(** The copy loop completes, counts the files that were due and leaves
    their copies in the target. *)
Lemma copy_loop_total : forall more done st f,
  incl more listing -> incl done listing ->
  copy_inv src tgt listing done f0 f ->
  exists f',
    copy_loop src tgt more st f
    = (inr (Stats (copied st + length (to_copy src more f0))
                  (written st) (deleted st) (skipped st)), f') /\
    copy_inv src tgt listing (rev more ++ done) f0 f'.
Proof.
  induction more as [|e more IH]; intros done st f Hm Hd Hinv.
  - exists f. split; auto. cbn. unfold ret.
    destruct st; cbn. now rewrite Nat.add_0_r.
  - assert (Hin : In e listing) by (apply Hm; now left).
    destruct (copy_one_succeeds done e f Hin Hinv) as (b & f1 & H1).
    destruct (copy_one_inv done e f b f1 Hin Hd Hinv H1) as [Hinv1 Hb].
    destruct (IH (e :: done) (if b then inc_copied st else st) f1)
      as (f' & Hl & Hinv'); auto.
    + intros x Hx. apply Hm. now right.
    + intros x [<-|Hx]; auto.
    + exists f'. rewrite copy_loop_cons, H1, Hl. split.
      * rewrite to_copy_cons, <- Hb.
        destruct b; cbn [length inc_copied copied written deleted skipped];
          [rewrite Nat.add_succ_r|]; reflexivity.
      * cbn [rev]. now rewrite <- app_assoc.
Qed.

Lemma copy_inv_start : copy_inv src tgt listing [] f0 f0.
Proof.
  split; [apply extends_refl|split; [|split]].
  - intros l Hl. now left.
  - intros l d Hl. left. congruence.
  - intros e rel [].
Qed.

End CopyLoop.

Lemma copy_loop_written src tgt : forall listing st f st' f',
  copy_loop src tgt listing st f = (inr st', f') ->
  written st' = written st /\ deleted st' = deleted st /\
  skipped st' = skipped st.
Proof.
  induction listing as [|e more IH]; intros st f st' f' H.
  - inversion H; now subst.
  - rewrite copy_loop_cons in H.
    destruct (copy_one src tgt e f) as [[err|b] f1]; [discriminate|].
    apply IH in H. now destruct b.
Qed.

Lemma under_convex_inv rel :
  under_convex rel = true -> exists rel', rel = convex :: rel'.
Proof.
  destruct rel as [|s rel]; [discriminate|].
  cbn [under_convex]. unfold pystr_eqb.
  destruct (pystr_eq_dec s convex) as [->|]; [eauto|discriminate].
Qed.

Lemma is_file_same f f' (L : loc) : f' L = f L -> ~ is_file f L -> ~ is_file f' L.
Proof.
  intros E H [d Hd]. apply H. exists d.
  destruct L; [exact Hd|]. cbn [node_at] in *. congruence.
Qed.

(** C5. The operations are applied in the order given: after a live run
    on two writes to the same path, the file at that path holds the second
    content.  A delete removes the file at its path when there is one and
    counts it as deleted, touching nothing else; when nothing is there it
    changes nothing and counts the operation as skipped. *)
Theorem apply_in_order (target_root : path) :
  (forall source_root listing p v1 v2 f st' f',
     step_apply_changes source_root target_root listing
       [Change write p v1; Change write p v2] false f = (inr st', f') ->
     read (joinpath target_root p) f' = (inr v2, f') /\ written st' = 2)
  /\
  (forall p c st f data,
     read (joinpath target_root p) f = (inr data, f) ->
     exists f1,
       apply_loop target_root [Change delete p c] st f
       = (inr (inc_deleted st), f1) /\
       exists_ (joinpath target_root p) f1 = (inr false, f1) /\
       (forall l, l <> locate (joinpath target_root p) -> f1 l = f l))
  /\
  (forall p c st f,
     exists_ (joinpath target_root p) f = (inr false, f) ->
     apply_loop target_root [Change delete p c] st f
     = (inr (inc_skipped st), f)).
Proof.
  split; [|split].
  - intros source_root listing p v1 v2 f st' f' H.
    unfold step_apply_changes in H.
    apply bind_inr in H. destruct H as (st1 & f1 & Hc & H).
    apply apply_two_writes in H. destruct H as [Hr ->]. split; auto.
    apply copy_loop_written in Hc. destruct Hc as (Hw & _).
    cbn [written inc_written] in *. now rewrite Hw.
  - intros p c st f data. apply apply_delete_present.
  - intros p c st f. apply apply_delete_absent.
Qed.

Lemma apply_in_order_witness :
  (exists f',
     read (Sample.pth "/work/out/supabase/config.ts") f' = (inr (lit "v2"), f'))
  /\
  (exists f1,
     apply_loop Sample.target_root [Change delete (lit "App.tsx") []]
                (Stats 0 0 0 0) Sample.copied_tree
     = (inr (Stats 0 0 1 0), f1))
  /\
  apply_loop Sample.target_root [Change delete (lit "missing.ts") []]
             (Stats 0 0 0 0) Sample.disk
  = (inr (Stats 0 0 0 1), Sample.disk).
Proof.
  destruct (apply_in_order Sample.target_root) as (H1 & H2 & H3).
  split; [|split].
  - exists (snd (step_apply_changes Sample.source_root Sample.target_root
                   Sample.listing
                   [Change write (lit "supabase/config.ts") (lit "v1");
                    Change write (lit "supabase/config.ts") (lit "v2")]
                   false Sample.disk)).
    refine (proj1 (H1 Sample.source_root Sample.listing
                      (lit "supabase/config.ts") (lit "v1") (lit "v2")
                      Sample.disk (Stats 2 2 0 0) _ _)).
    vm_compute. reflexivity.
  - destruct (H2 (lit "App.tsx") [] (Stats 0 0 0 0) Sample.copied_tree
                 (lit "import { useQuery } from 'convex/react'"))
      as (f1 & Hf1 & _).
    + vm_compute. reflexivity.
    + exists f1. exact Hf1.
  - apply H3. vm_compute. reflexivity.
Defined.

(** C6. In a live run the copy step never writes below the legacy backend
    directory of the target.  From a tree where every listed path exists and
    the target is an empty directory, the copy step completes and has copied
    exactly the enumerated files outside the legacy backend directory, each
    with its content.  And a listed file of the legacy backend directory is
    not in the target after the run, completed or not, provided that it was
    not there before and that no write operation points at its place. *)
Theorem legacy_backend_excluded
        (source_root target_root : path) (listing : list path)
        (all_changes : list change) (f0 : fs) :
  clean target_root -> listed_below source_root listing ->
  (forall st l,
     under (target_root ++ [convex]) l ->
     snd (copy_loop source_root target_root listing st f0) l = f0 l)
  /\
  (clean source_root ->
   (forall e, In e listing -> fst (exists_ e f0) = inr true) ->
   fst (is_dir target_root f0) = inr true ->
   (forall l, below target_root l -> f0 l = None) ->
   forall st, exists f1,
     copy_loop source_root target_root listing st f0
     = (inr (Stats (copied st + length (to_copy source_root listing f0))
                   (written st) (deleted st) (skipped st)), f1) /\
     forall e rel,
       In e (to_copy source_root listing f0) -> e = source_root ++ rel ->
       exists d, read e f0 = (inr d, f0) /\
                 read (target_root ++ rel) f1 = (inr d, f1))
  /\
  (forall rel,
     In (source_root ++ rel) listing -> under_convex rel = true ->
     ~ is_file f0 (target_root ++ rel) ->
     (forall c, In c all_changes -> c_action c = write ->
                locate (joinpath target_root (c_path c)) <> target_root ++ rel) ->
     ~ is_file (snd (step_apply_changes source_root target_root listing
                                        all_changes false f0))
               (target_root ++ rel)).
Proof.
  intros Ht Hlist. split; [|split].
  - intros st l Hl.
    destruct (copy_loop source_root target_root listing st f0) as [r f1] eqn:H.
    eapply copy_loop_convex_untouched; eauto.
  - intros Hs Hex Htdir Hempty st.
    destruct (copy_loop_total source_root target_root listing f0
                Hs Ht Hlist Hex Htdir Hempty listing [] st f0)
      as (f1 & H & _ & _ & _ & I3);
      auto using incl_refl, incl_nil_l, copy_inv_start.
    exists f1. split; [exact H|].
    intros e rel Hin E. unfold to_copy in Hin.
    apply filter_In in Hin. destruct Hin as [Hin Hu].
    unfold iter_source_files in Hin. apply filter_In in Hin.
    destruct Hin as [Hin Hen].
    subst e. rewrite strip_prefix_app in Hu. apply negb_true_iff in Hu.
    apply (I3 (source_root ++ rel) rel); auto.
    rewrite app_nil_r. now apply in_rev in Hin.
  - intros rel Hin Hu Hn Hw.
    destruct (under_convex_inv rel Hu) as [rel' ->].
    assert (HL : under (target_root ++ [convex]) (target_root ++ convex :: rel')).
    { exists rel'. now rewrite <- app_assoc. }
    unfold step_apply_changes, Fs.bind.
    destruct (copy_loop source_root target_root listing (Stats 0 0 0 0) f0)
      as [[err|st1] f1] eqn:Hc.
    + cbn [snd]. apply is_file_same with f0; auto.
      eapply copy_loop_convex_untouched; eauto.
    + destruct (apply_loop target_root all_changes st1 f1) as [r f2] eqn:Ha.
      cbn [snd]. apply (apply_loop_no_file _ _ _ _ _ _ _ Hw Ha).
      apply is_file_same with f0; auto.
      eapply copy_loop_convex_untouched; eauto.
Qed.

Lemma cleanb_ok p : cleanb p = true -> clean p.
Proof.
  unfold cleanb, clean. intros H Hin. apply negb_true_iff in H.
  assert (E : existsb (pystr_eqb dotdot) p = true).
  { apply existsb_exists. exists dotdot. split; auto. }
  congruence.
Qed.

Lemma strip_prefix_some : forall root e rel,
  strip_prefix root e = Some rel -> e = root ++ rel.
Proof.
  induction root as [|x root IH]; intros e rel H; simpl in H.
  - now inversion H.
  - destruct e as [|y e]; [discriminate|].
    destruct (pystr_eq_dec x y) as [->|]; [|discriminate].
    cbn [app]. f_equal. now apply IH.
Qed.

Lemma listed_belowb_ok root l : listed_belowb root l = true -> listed_below root l.
Proof.
  unfold listed_belowb, listed_below. rewrite forallb_forall, Forall_forall.
  intros H e He. specialize (H e He).
  destruct (strip_prefix root e) as [[|part0 rel]|] eqn:E; try discriminate.
  exists (part0 :: rel). repeat split.
  - now apply strip_prefix_some.
  - discriminate.
  - now apply cleanb_ok.
Qed.

Ltac other_entry :=
  repeat match goal with
         | |- context [path_eq_dec ?a ?b] =>
             let E := fresh "E" in
             destruct (path_eq_dec a b) as [E|_];
             [exfalso; vm_compute in E; discriminate E|]
         end.

Lemma sample_target_empty l : below Sample.target_root l -> Sample.disk l = None.
Proof.
  intros (q & Hq & ->). destruct q as [|s q]; [congruence|].
  unfold Sample.disk, Sample.tree. cbn [fold_right fst snd]. unfold update.
  other_entry. reflexivity.
Qed.

Lemma sample_listing_exists e :
  In e Sample.listing -> fst (exists_ e Sample.disk) = inr true.
Proof.
  intros H. unfold Sample.listing in H. cbn [In] in H.
  repeat (destruct H as [<-|H]; [vm_compute; reflexivity|]). contradiction.
Qed.

Lemma legacy_backend_excluded_witness :
  (exists f1,
     copy_loop Sample.source_root Sample.target_root Sample.listing
               (Stats 0 0 0 0) Sample.disk
     = (inr (Stats 2 0 0 0), f1) /\
     read (Sample.pth "/work/out/App.tsx") f1
     = (inr (lit "import { useQuery } from 'convex/react'"), f1))
  /\
  ~ is_file (snd (step_apply_changes Sample.source_root Sample.target_root
                                     Sample.listing Sample.plan false
                                     Sample.disk))
            (Sample.pth "/work/out/convex/schema.ts").
Proof.
  destruct (legacy_backend_excluded
              Sample.source_root Sample.target_root Sample.listing
              Sample.plan Sample.disk) as (_ & A2 & B).
  - apply cleanb_ok. reflexivity.
  - apply listed_belowb_ok. reflexivity.
  - split.
    + destruct (A2 (cleanb_ok Sample.source_root eq_refl) sample_listing_exists
                   eq_refl sample_target_empty (Stats 0 0 0 0))
        as (f1 & Hc & Hcopies).
      exists f1. split; [exact Hc|].
      destruct (Hcopies (Sample.pth "/work/app/App.tsx") [lit "App.tsx"])
        as (d & Hsrc & Hdst).
      * vm_compute. now left.
      * reflexivity.
      * vm_compute in Hsrc. inversion Hsrc; subst d. exact Hdst.
    + apply (B (map lit ["convex"; "schema.ts"]%string)).
      * vm_compute. tauto.
      * reflexivity.
      * intros [d Hd]. vm_compute in Hd. discriminate.
      * intros c Hc Ha. unfold Sample.plan in Hc. cbn [In] in Hc.
        repeat (destruct Hc as [<-|Hc];
                [try discriminate Ha; vm_compute; discriminate|]).
        contradiction.
Defined.

(** What the kept [..] of C1 leads to: with the path of
    [traversal_response], the apply step writes outside the target root. *)
Lemma traversal_writes_outside :
  let f := snd (step_apply_changes Sample.source_root Sample.target_root []
                  (parse_file_blocks traversal_response) false Sample.disk) in
  f (Sample.pth "/work/outside.txt") = Some (File (lit "x")) /\
  ~ under Sample.target_root (Sample.pth "/work/outside.txt").
Proof.
  split; [vm_compute; reflexivity|].
  intros [q E]. vm_compute in E. discriminate E.
Qed.

End ApplierFacts.

(* ------------------------------------------------------------------ *)
(** ** Substrings *)

Module TextFacts.

Lemma starts_with_spec : forall needle hay,
  starts_with needle hay = true <-> exists post, hay = needle ++ post.
Proof.
  induction needle as [|c n IH]; intros hay; simpl.
  - split; eauto.
  - destruct hay as [|d h].
    + split; [discriminate|]. intros [post E]. discriminate E.
    + rewrite andb_true_iff, IH. unfold char_eqb. rewrite N.eqb_eq. split.
      * intros [-> [post ->]]. eauto.
      * intros [post E]. inversion E; subst. eauto.
Qed.

(** The test [needle in hay] holds exactly when [needle] lies in [hay]. *)
Lemma contains_spec needle : forall hay,
  contains needle hay = true <-> occurs needle hay.
Proof.
  induction hay as [|d h IH]; cbn [contains].
  - rewrite starts_with_spec. split.
    + intros [post E]. now exists [], post.
    + intros (pre & post & E). symmetry in E.
      apply app_eq_nil in E. destruct E as [-> E]. eauto.
  - rewrite orb_true_iff, starts_with_spec, IH. split.
    + intros [[post E]|(pre & post & E)].
      * now exists [], post.
      * exists (d :: pre), post. now rewrite E.
    + intros ([|x pre] & post & E).
      * left. eauto.
      * right. inversion E; subst. now exists pre, post.
Qed.

Lemma contains_false needle hay :
  contains needle hay = false -> ~ occurs needle hay.
Proof.
  intros H Ho. apply contains_spec in Ho. congruence.
Qed.

Lemma occurs_app needle pre s post :
  occurs needle s -> occurs needle (pre ++ s ++ post).
Proof.
  intros (a & b & ->). exists (pre ++ a), (b ++ post).
  now rewrite <- !app_assoc.
Qed.

End TextFacts.
(* ------------------------------------------------------------------ *)
(** ** More on the parser: the shape of what it returns *)

Module ParserShape.
Import ReFacts ParserFacts TextFacts.

Lemma lstrip_by_suffix p (s : pystr) : exists ws, s = ws ++ lstrip_by p s.
Proof.
  induction s as [|c s [ws IH]]; [now exists []|]. simpl.
  destruct (p c); [|now exists []].
  exists (c :: ws). simpl. now rewrite <- IH.
Qed.

Lemma rstrip_by_prefix p (s : pystr) : exists ws, s = rstrip_by p s ++ ws.
Proof.
  unfold rstrip_by. destruct (lstrip_by_suffix p (rev s)) as [ws E].
  exists (rev ws). rewrite <- rev_app_distr, <- E. now rewrite rev_involutive.
Qed.

Lemma strip_infix (s : pystr) : exists a b, s = a ++ strip s ++ b.
Proof.
  unfold strip. destruct (lstrip_by_suffix is_space s) as [a Ea].
  destruct (rstrip_by_prefix is_space (lstrip_by is_space s)) as [b Eb].
  exists a, b. now rewrite <- Eb.
Qed.

Lemma occurs_strip n (s : pystr) : occurs n (strip s) -> occurs n s.
Proof.
  intros (pre & post & E). destruct (strip_infix s) as (a & b & Es).
  exists (a ++ pre), (post ++ b). rewrite Es, E.
  now rewrite <- !app_assoc.
Qed.

Lemma strip_trimmed (s : pystr) : trimmed (strip s).
Proof.
  unfold trimmed, strip. split.
  - pose proof (lstrip_by_head is_space s) as Hh.
    destruct (rstrip_by_prefix is_space (lstrip_by is_space s)) as [ws E].
    destruct (rstrip_by is_space (lstrip_by is_space s)) as [|c t]; auto.
    rewrite E in Hh. exact Hh.
  - unfold rstrip_by. rewrite rev_involutive. apply lstrip_by_head.
Qed.

(** The lazy repetition stops at the first place where the rest of the
    pattern matches. *)
Lemma lazily_first k kont : forall s acc res,
  lazily k kont acc s = Some res ->
  exists taken rest,
    s = taken ++ rest /\ kont (rev acc ++ taken) rest = Some res /\
    forall t1 t2, taken = t1 ++ t2 -> t2 <> [] ->
                  kont (rev acc ++ t1) (t2 ++ rest) = None.
Proof.
  induction s as [|c s IH]; intros acc res H; simpl in H.
  - destruct (kont (rev acc) []) eqn:Ek; [|discriminate].
    inversion H; subst. exists [], []. rewrite !app_nil_r.
    repeat split; auto. intros t1 t2 E Hne.
    symmetry in E. apply app_eq_nil in E. now destruct E.
  - destruct (kont (rev acc) (c :: s)) eqn:Ek.
    + inversion H; subst. exists [], (c :: s). rewrite !app_nil_r.
      repeat split; auto. intros t1 t2 E Hne.
      symmetry in E. apply app_eq_nil in E. now destruct E.
    + destruct (cls_ok k c) eqn:Ec; [|discriminate].
      apply IH in H. destruct H as (taken & rest & -> & Hk & Hmin).
      exists (c :: taken), rest. cbn [rev] in Hk. rewrite <- app_assoc in Hk.
      repeat split; auto.
      intros [|d t1] t2 E Hne.
      * cbn [app] in E. subst t2. now rewrite app_nil_r.
      * cbn [app] in E. inversion E; subst.
        specialize (Hmin t1 t2 eq_refl Hne).
        cbn [rev] in Hmin. now rewrite <- app_assoc in Hmin.
Qed.

(** A run of a pattern in two parts is a run of the first and then a run of
    the second. *)
Lemma run_app_sound : forall r1 r2 cs s res,
  run (r1 ++ r2) cs s = Some res ->
  exists pieces s2,
    spells r1 pieces /\ s = concat pieces ++ s2 /\
    run r2 (cs ++ captured r1 pieces) s2 = Some res.
Proof.
  induction r1 as [|it r1 IH]; intros r2 cs s res H.
  - exists [], s. rewrite app_nil_r. repeat split; auto. constructor.
  - cbn [app run] in H.
    assert (Hstep : exists w rest0,
              s = w ++ rest0 /\ takes it w /\
              run (r1 ++ r2) (if it_group it then cs ++ [w] else cs) rest0
              = Some res).
    { unfold takes. destruct (it_quant it) eqn:Eq.
      - destruct s as [|c s]; [discriminate|].
        destruct (cls_ok (it_cls it) c) eqn:Ec; [|discriminate].
        exists [c], s. simpl. rewrite Ec. auto.
      - apply greedy_sound in H. destruct H as (w & rest0 & -> & Hall & Hne & Hk).
        exists w, rest0. auto.
      - apply greedy_sound in H. destruct H as (w & rest0 & -> & Hall & Hne & Hk).
        exists w, rest0. auto.
      - apply lazily_sound in H. destruct H as (w & rest0 & -> & Hall & Hk).
        exists w, rest0. auto. }
    destruct Hstep as (w & rest0 & -> & Hw & Hrun).
    apply IH in Hrun. destruct Hrun as (pieces & s2 & Hsp & -> & Hr2).
    exists (w :: pieces), s2. split; [now constructor|]. simpl.
    split; [now rewrite app_assoc|].
    destruct (it_group it); auto. now rewrite <- app_assoc in Hr2.
Qed.

Lemma run_chars_inv : forall l cs s res,
  run (map (fun c => Item (Chr c) Once false) l) cs s = Some res ->
  s = l ++ snd res /\ fst res = cs.
Proof.
  induction l as [|c l IH]; intros cs s res H; simpl in H.
  - inversion H; subst. auto.
  - destruct s as [|d s]; [discriminate|].
    destruct (char_eqb c d) eqn:E; [|discriminate].
    apply N.eqb_eq in E. subst d. apply IH in H. destruct H as [-> ->]. auto.
Qed.

(** The second group of a match of the write pattern has no closing tag
    in it: the content ends at the first one. *)
Lemma file_pattern_body s cs rest :
  run file_pattern [] s = Some (cs, rest) ->
  ~ occurs closing_tag (nth 1 cs []).
Proof.
  intros H.
  destruct (file_pattern_sound _ _ _ H) as (ws & p & body & _ & Ecs & _).
  change file_pattern with
    ((chars "<FILE" ++ plus Space ++ chars "path=" ++ one (Chr dquote)
      ++ group (plus (NotChr dquote)) ++ one (Chr dquote) ++ chars ">")
     ++ (Item Any StarLazy true :: chars "</FILE>")) in H.
  apply run_app_sound in H. destruct H as (pieces & s2 & _ & _ & H).
  cbn [run it_quant it_cls it_group] in H.
  apply lazily_first in H.
  destruct H as (taken & rest0 & _ & Hk & Hmin). cbn [rev app] in Hk, Hmin.
  apply run_chars_inv in Hk. cbn [fst snd] in Hk. destruct Hk as [_ Hcs].
  rewrite Ecs in Hcs.
  change [p; body] with ([p] ++ [body]) in Hcs.
  apply app_inj_tail in Hcs. destruct Hcs as [_ <-].
  rewrite Ecs. cbn [nth].
  intros (pre & post & E).
  specialize (Hmin pre (closing_tag ++ post) E).
  assert (Hne : closing_tag ++ post <> []) by (unfold closing_tag; discriminate).
  specialize (Hmin Hne).
  unfold closing_tag, chars in Hmin. rewrite <- app_assoc in Hmin.
  rewrite <- (app_nil_r (map _ (lit "</FILE>"))) in Hmin.
  rewrite run_chars in Hmin. discriminate Hmin.
Qed.

Lemma lstrip_slash_suffix (p : pystr) c : In c (lstrip_slash p) -> In c p.
Proof.
  intros H. destruct (lstrip_by_suffix (char_eqb slash) p) as [ws E].
  rewrite E. apply in_or_app. now right.
Qed.

Lemma path_text_no_quote p : path_text p -> ~ In dquote p.
Proof.
  intros [_ H] Hin. rewrite forallb_forall in H. apply H in Hin.
  unfold char_eqb in Hin. now rewrite N.eqb_refl in Hin.
Qed.

(** X1.  Every operation that [parse_file_blocks] returns has a path
    without a double quote; the content of a write is trimmed of white
    space at both ends, and the content of a delete is empty. *)
Theorem parsed_operations_shape (s : pystr) (c : change) :
  In c (parse_file_blocks s) ->
  ~ In dquote (c_path c) /\
  match c_action c with
  | write => trimmed (c_content c)
  | delete => c_content c = []
  end.
Proof.
  unfold parse_file_blocks. cbn [app]. intros H.
  apply in_app_or in H. destruct H as [H|H]; apply in_map_iff in H;
    destruct H as (m & <- & Hm).
  - pose proof (finditer_file_markers s) as Hall.
    rewrite Forall_forall in Hall. destruct (Hall m Hm) as (ws & _ & _ & Hp & _).
    cbn [write_change c_path c_action c_content]. split.
    + intros Hin. apply lstrip_slash_suffix in Hin.
      now apply (path_text_no_quote _ Hp).
    + apply strip_trimmed.
  - pose proof (finditer_delete_markers s) as Hall.
    rewrite Forall_forall in Hall. destruct (Hall m Hm) as (ws & ws' & _ & _ & Hp & _).
    cbn [delete_change c_path c_action c_content]. split; auto.
    intros Hin. apply lstrip_slash_suffix in Hin.
    now apply (path_text_no_quote _ Hp).
Qed.

Lemma parsed_operations_shape_witness :
  In (Change write (lit "src/a.ts") (lit "let x = 1"))
     (parse_file_blocks
        (write_marker (lit " ") (lit "/src/a.ts") (lit "  let x = 1  "))) /\
  ~ In dquote (lit "src/a.ts") /\ trimmed (lit "let x = 1").
Proof.
  assert (Hin : In (Change write (lit "src/a.ts") (lit "let x = 1"))
     (parse_file_blocks
        (write_marker (lit " ") (lit "/src/a.ts") (lit "  let x = 1  "))))
    by (vm_compute; auto).
  split; [exact Hin|].
  exact (parsed_operations_shape _ _ Hin).
Defined.

(** X2.  The content of a write never contains the closing tag: the
    lazy group ends at the first [</FILE>] after the opening tag, so a
    file whose own text holds that tag is cut there. *)
Theorem parsed_content_stops_at_closing_tag (s : pystr) (c : change) :
  In c (parse_file_blocks s) -> ~ occurs closing_tag (c_content c).
Proof.
  unfold parse_file_blocks. cbn [app]. intros H.
  apply in_app_or in H. destruct H as [H|H]; apply in_map_iff in H;
    destruct H as (m & <- & Hm).
  - cbn [write_change c_content]. intros Hocc. apply occurs_strip in Hocc.
    apply scan_sound in Hm. destruct Hm as (pre & mid & rest & _ & _ & _ & Hr).
    apply file_pattern_body in Hr. now apply Hr.
  - cbn [delete_change c_content]. intros (pre & post & E).
    destruct pre; discriminate E.
Qed.

Lemma parsed_content_stops_at_closing_tag_witness :
  In (Change write (lit "a.md") (lit "one"))
     (parse_file_blocks
        (write_marker (lit " ") (lit "a.md") (lit "one</FILE>two"))) /\
  ~ occurs closing_tag (lit "one").
Proof.
  assert (Hin : In (Change write (lit "a.md") (lit "one"))
     (parse_file_blocks
        (write_marker (lit " ") (lit "a.md") (lit "one</FILE>two"))))
    by (vm_compute; auto).
  split; [exact Hin|].
  exact (parsed_content_stops_at_closing_tag _ _ Hin).
Defined.

(** X3.  A response without any closing tag, such as one cut short
    inside its last file, yields no write at all. *)
Theorem unclosed_marker_yields_no_write (s : pystr) (c : change) :
  ~ occurs closing_tag s -> In c (parse_file_blocks s) -> c_action c = delete.
Proof.
  intros Hno H. unfold parse_file_blocks in H. cbn [app] in H.
  apply in_app_or in H. destruct H as [H|H]; apply in_map_iff in H;
    destruct H as (m & <- & Hm); [|reflexivity].
  exfalso. apply Hno.
  pose proof (finditer_file_markers s) as Hall.
  rewrite Forall_forall in Hall.
  destruct (Hall m Hm) as (ws & _ & _ & _ & pre & post & -> & _).
  unfold write_marker, quoted, closing_tag.
  exists (pre ++ lit "<FILE" ++ ws ++ lit "path=" ++ dquote :: mgroup 1 m
          ++ [dquote] ++ lit ">" ++ mgroup 2 m), post.
  repeat (rewrite <- ?app_assoc; cbn [app]). reflexivity.
Qed.

Lemma unclosed_marker_yields_no_write_witness :
  let s := lit "<FILE path=" ++ quoted (lit "a.ts") ++ lit ">const a = 1"
           ++ delete_marker (lit " ") (lit "b.ts") (lit " ") in
  let c := Change delete (lit "b.ts") [] in
  (~ occurs closing_tag s) /\ In c (parse_file_blocks s) /\ c_action c = delete.
Proof.
  cbv zeta.
  assert (Hno : ~ occurs closing_tag
                  (lit "<FILE path=" ++ quoted (lit "a.ts") ++ lit ">const a = 1"
                   ++ delete_marker (lit " ") (lit "b.ts") (lit " ")))
    by (apply contains_false; vm_compute; reflexivity).
  assert (Hin : In (Change delete (lit "b.ts") [])
                  (parse_file_blocks
                     (lit "<FILE path=" ++ quoted (lit "a.ts") ++ lit ">const a = 1"
                      ++ delete_marker (lit " ") (lit "b.ts") (lit " "))))
    by (vm_compute; auto).
  split; [exact Hno|]. split; [exact Hin|].
  exact (unclosed_marker_yields_no_write _ _ Hno Hin).
Defined.

End ParserShape.
(* ------------------------------------------------------------------ *)
(** ** The order and the completeness of the parser's result *)

Module ParserOrder.
Import ReFacts ParserFacts TextFacts ParserShape.

(** [finditer] misses nothing: a place where the pattern matches is the
    start of a reported match or lies inside one that started before. *)
Lemma scan_covers r :
  (forall t cs rest, run r [] t = Some (cs, rest) -> length rest < length t) ->
  forall s pos skip pre suf,
    s = pre ++ suf -> skip <= length pre -> suf <> [] -> run r [] suf <> None ->
    exists m, In m (scan r pos skip s) /\
              m_start m <= pos + length pre < m_end m.
Proof.
  intros Hne. induction s as [|c s IH]; intros pos skip pre suf E Hskip Hsuf Hrun.
  - symmetry in E. apply app_eq_nil in E. destruct E as [_ E]. congruence.
  - assert (Hnext : forall k pre', pre = c :: pre' -> k <= length pre' ->
              exists m, In m (scan r (S pos) k s) /\
                        m_start m <= pos + length pre < m_end m).
    { intros k pre' -> Hk. cbn [app] in E. injection E as Es.
      destruct (IH (S pos) k pre' suf Es Hk Hsuf Hrun) as (m & Hin & Hb).
      exists m. split; [exact Hin|]. cbn [length]. lia. }
    destruct skip as [|k].
    + rewrite scan_try.
      destruct (run r [] (c :: s)) as [[cs rest]|] eqn:Er.
      * pose proof (Hne _ _ _ Er) as Hlen. cbv zeta.
        set (len := length (c :: s) - length rest) in *.
        assert (Hpos : 1 <= len) by (unfold len; lia).
        destruct (Nat.lt_ge_cases (length pre) len) as [Hin|Hout].
        -- exists (Match pos (pos + len) cs). split; [now left|].
           cbn [m_start m_end]. lia.
        -- destruct pre as [|c' pre']; [cbn [length] in Hout; lia|].
           cbn [app] in E. injection E as Ec Es. subst c'.
           destruct (Hnext (pred len) pre' eq_refl) as (m & Hm & Hb).
           { cbn [length] in Hout. lia. }
           exists m. split; [now right|exact Hb].
      * destruct pre as [|c' pre'].
        -- cbn [app] in E. subst suf. congruence.
        -- cbn [app] in E. injection E as Ec Es. subst c'.
           apply (Hnext 0 pre' eq_refl). lia.
    + destruct pre as [|c' pre']; [cbn [length] in Hskip; lia|].
      cbn [app] in E. injection E as Ec Es. subst c'.
      cbn [scan]. apply (Hnext k pre' eq_refl). cbn [length] in Hskip. lia.
Qed.

Lemma file_pattern_takes t cs rest :
  run file_pattern [] t = Some (cs, rest) -> length rest < length t.
Proof.
  intros H. destruct (file_pattern_sound _ _ _ H) as (ws & p & body & -> & _).
  unfold write_marker. rewrite !length_app. cbn [lit length]. cbn. lia.
Qed.

Lemma delete_pattern_takes t cs rest :
  run delete_pattern [] t = Some (cs, rest) -> length rest < length t.
Proof.
  intros H. destruct (delete_pattern_sound _ _ _ H) as (ws & p & ws' & -> & _).
  unfold delete_marker. rewrite !length_app. cbn [lit length]. cbn. lia.
Qed.

(** Every write-marker of the text starts in a reported match. *)
Lemma finditer_file_covers s ws p body i j :
  ws <> [] -> blank ws -> path_text p ->
  occurs_at (write_marker ws p body) s i j ->
  exists m, In m (finditer file_pattern s) /\ m_start m <= i < m_end m.
Proof.
  intros Hne Hws Hp (pre & post & E & <- & _).
  destruct (scan_covers file_pattern file_pattern_takes s 0 0 pre
              (write_marker ws p body ++ post)) as (m & Hin & Hb).
  - exact E.
  - lia.
  - unfold write_marker. discriminate.
  - now apply file_pattern_complete.
  - exists m. split; [exact Hin|]. lia.
Qed.

Lemma finditer_delete_covers s ws p ws' i j :
  ws <> [] -> blank ws -> path_text p -> blank ws' ->
  occurs_at (delete_marker ws p ws') s i j ->
  exists m, In m (finditer delete_pattern s) /\ m_start m <= i < m_end m.
Proof.
  intros Hne Hws Hp Hws' (pre & post & E & <- & _).
  destruct (scan_covers delete_pattern delete_pattern_takes s 0 0 pre
              (delete_marker ws p ws' ++ post)) as (m & Hin & Hb).
  - exact E.
  - lia.
  - unfold delete_marker. discriminate.
  - now apply delete_pattern_complete.
  - exists m. split; [exact Hin|]. lia.
Qed.

(** The body of a reported write-marker ends at the first closing tag. *)
Lemma finditer_file_lazy s :
  Forall (fun m => ~ occurs closing_tag (mgroup 2 m)) (finditer file_pattern s).
Proof.
  apply Forall_forall. intros m Hm. apply scan_sound in Hm.
  destruct Hm as (pre & mid & rest & _ & _ & _ & Hr).
  exact (file_pattern_body _ _ _ Hr).
Qed.

(** C8.  For every text, the result is a list of writes followed by a
    list of deletes.  The writes are those of the write-markers found in
    the text, one after the other: the markers found are in increasing,
    non-overlapping offsets; each is a write-marker of the text at its
    offsets, whose content ends at the first closing tag; and none is
    missed, since every write-marker of the text starts in one of those
    found.  The operation of a marker has its path without the leading
    slashes and its content stripped.  The same holds for the deletes and
    the delete-markers.  So the order of the result is that of the text
    within each kind, with the writes first wherever the deletes lie. *)
Theorem parse_writes_then_deletes (s : pystr) :
  exists fm dm,
    parse_file_blocks s
    = map (fun m => Change write (lstrip_slash (mgroup 1 m)) (strip (mgroup 2 m))) fm
      ++ map (fun m => Change delete (lstrip_slash (mgroup 1 m)) []) dm /\
    (in_document_order fm /\
     Forall (write_marker_at s) fm /\
     Forall (fun m => ~ occurs closing_tag (mgroup 2 m)) fm /\
     forall ws p body i j,
       ws <> [] -> blank ws -> path_text p ->
       occurs_at (write_marker ws p body) s i j ->
       exists m, In m fm /\ m_start m <= i < m_end m) /\
    (in_document_order dm /\
     Forall (delete_marker_at s) dm /\
     forall ws p ws' i j,
       ws <> [] -> blank ws -> path_text p -> blank ws' ->
       occurs_at (delete_marker ws p ws') s i j ->
       exists m, In m dm /\ m_start m <= i < m_end m).
Proof.
  exists (finditer file_pattern s), (finditer delete_pattern s).
  split; [reflexivity|]. split.
  - split; [apply scan_ordered|]. split; [apply finditer_file_markers|].
    split; [apply finditer_file_lazy|]. apply finditer_file_covers.
  - split; [apply scan_ordered|]. split; [apply finditer_delete_markers|].
    apply finditer_delete_covers.
Qed.

(** A text in which the markers of the two kinds alternate: the result
    has the two writes first, then the two deletes. *)
Lemma interleaved_markers_sorted_by_kind :
  parse_file_blocks
    (delete_marker (lit " ") (lit "d1") (lit " ")
     ++ write_marker (lit " ") (lit "w1") (lit "one")
     ++ delete_marker (lit " ") (lit "d2") []
     ++ write_marker (lit " ") (lit "w2") (lit "two"))
  = [ Change write (lit "w1") (lit "one"); Change write (lit "w2") (lit "two");
      Change delete (lit "d1") []; Change delete (lit "d2") [] ].
Proof. vm_compute. reflexivity. Qed.

End ParserOrder.
(* ------------------------------------------------------------------ *)
(** ** More on the retry loop *)

Module ClientBudget.

Lemma sleeps_post w : sleeps (post w) = sleeps w.
Proof. unfold sleeps, post. cbn [trace]. rewrite flat_map_app. cbn. apply app_nil_r. Qed.

Lemma sleeps_sleep n w : sleeps (sleep n w) = sleeps w ++ [n].
Proof. unfold sleeps, sleep. cbn [trace]. now rewrite flat_map_app. Qed.

Lemma posts_post w : posts (post w) = S (posts w).
Proof.
  unfold posts, post. cbn [trace]. rewrite filter_app, length_app. cbn. lia.
Qed.

Lemma posts_sleep n w : posts (sleep n w) = posts w.
Proof.
  unfold posts, sleep. cbn [trace]. rewrite filter_app, length_app. cbn. lia.
Qed.

Lemma within_refl retries budget w : within retries budget w w.
Proof.
  split; [lia|]. split; [lia|]. split.
  - exists []. now rewrite app_nil_r.
  - exists []. rewrite app_nil_r. split; [reflexivity|]. split; [cbn; lia|constructor].
Qed.

Lemma within_post retries budget w : within retries (S budget) w (post w).
Proof.
  unfold within. rewrite posts_post, sleeps_post. cbn [post issued trace].
  split; [lia|]. split; [lia|]. split.
  - eauto.
  - exists []. rewrite app_nil_r. split; [reflexivity|]. split; [cbn; lia|constructor].
Qed.

Lemma within_step retries budget w n w' :
  (3 <= n <= 10 * retries)%Z ->
  within retries budget (sleep n (post w)) w' ->
  within retries (S budget) w w'.
Proof.
  intros Hn ([Hi0 Hi] & Hp & [evs He] & new & Hs & Hl & Hall).
  rewrite posts_sleep, posts_post in Hp.
  rewrite sleeps_sleep, sleeps_post in Hs.
  cbn [sleep post issued trace] in *.
  split; [lia|]. split; [lia|]. split.
  - exists ([Post] ++ [Sleep n] ++ evs). rewrite He. now rewrite <- !app_assoc.
  - exists (n :: new). rewrite Hs, <- app_assoc. split; [reflexivity|].
    split; [cbn [length]; lia|now constructor].
Qed.

Lemma attempts_within svc retries : forall todo w,
  Forall (fun a => (0 <= a < retries)%Z) todo ->
  within retries (length todo) w (snd (attempts svc retries todo w)).
Proof.
  induction todo as [|a todo IH]; intros w Hall; cbn [attempts length].
  - apply within_refl.
  - inversion Hall as [|? ? Ha Hrest]; subst.
    destruct (svc (issued w)) as [txt|code|]; cbn [snd].
    + apply within_post.
    + destruct (code =? 429)%Z.
      * apply (within_step retries _ w (10 * (a + 1))%Z); [lia|]. now apply IH.
      * destruct (a <? retries - 1)%Z; cbn [snd].
        -- apply (within_step retries _ w 3%Z); [lia|]. now apply IH.
        -- apply within_post.
    + destruct (a <? retries - 1)%Z; cbn [snd].
      * apply (within_step retries _ w 5%Z); [lia|]. now apply IH.
      * apply within_post.
Qed.

Lemma range_bounds retries : Forall (fun a => (0 <= a < retries)%Z) (range retries).
Proof.
  unfold range. apply Forall_forall. intros a Ha.
  apply in_map_iff in Ha. destruct Ha as (i & <- & Hi).
  apply in_seq in Hi. lia.
Qed.

Lemma range_length retries : length (range retries) = Z.to_nat retries.
Proof. unfold range. now rewrite length_map, length_seq. Qed.

(** X4.  Whatever the service answers, a call issues at most [retries]
    requests, sleeps at most once per request, and never sleeps less than
    3 or more than [10 * retries] seconds at a time; what happened before
    the call stays in the record. *)
Theorem requests_within_budget (svc : service) (retries : Z) (w : world) :
  let w' := snd (call_cursor_api svc retries w) in
  issued w <= issued w' <= issued w + Z.to_nat retries /\
  posts w' = posts w + (issued w' - issued w) /\
  (exists evs, trace w' = trace w ++ evs) /\
  exists new, sleeps w' = sleeps w ++ new /\
              length new <= issued w' - issued w /\
              Forall (fun n => (3 <= n <= 10 * retries)%Z) new.
Proof.
  cbv zeta. unfold call_cursor_api.
  pose proof (attempts_within svc retries (range retries) w (range_bounds retries)) as H.
  rewrite range_length in H. exact H.
Qed.

(** X5.  With a budget that is zero or negative no request is made and
    the call returns the empty text. *)
Theorem no_budget_no_request (svc : service) (retries : Z) (w : world) :
  (retries <= 0)%Z -> call_cursor_api svc retries w = (Returned [], w).
Proof.
  intros H. unfold call_cursor_api, range.
  replace (Z.to_nat retries) with 0 by lia. reflexivity.
Qed.

Lemma no_budget_no_request_witness :
  call_cursor_api (script [] (Completed (lit "never read"))) 0 fresh
  = (Returned [], fresh).
Proof. apply no_budget_no_request. lia. Defined.

(** The loop up to the first completion. *)
Lemma attempts_first_completion svc retries text : forall k n a w,
  Z.of_nat (a + n) = retries -> k < n ->
  (forall j, j < k -> failed (svc (issued w + j))) ->
  svc (issued w + k) = Completed text ->
  let (out, w') := attempts svc retries (map Z.of_nat (seq a n)) w in
  out = Returned text /\ issued w' = issued w + S k /\
  length (sleeps w') = length (sleeps w) + k.
Proof.
  induction k as [|k IH]; intros n a w Hr Hk Hfail Hok;
    (destruct n as [|n]; [lia|]); rewrite ClientFacts.range_unfold; cbn [attempts].
  - rewrite Nat.add_0_r in Hok. rewrite Hok.
    rewrite sleeps_post. cbn [post issued]. repeat split; lia.
  - assert (Hlt : (Z.of_nat a <? retries - 1)%Z = true) by (apply Z.ltb_lt; lia).
    assert (Hnext : forall x,
              let (out, w') := attempts svc retries (map Z.of_nat (seq (S a) n))
                                        (sleep x (post w)) in
              out = Returned text /\ issued w' = issued w + S (S k) /\
              length (sleeps w') = length (sleeps w) + S k).
    { intros x.
      specialize (IH n (S a) (sleep x (post w)) ltac:(lia) ltac:(lia)).
      cbn [sleep post issued] in IH.
      assert (H1 : forall j, j < k -> failed (svc (S (issued w) + j))).
      { intros j Hj. replace (S (issued w) + j) with (issued w + S j) by lia.
        apply Hfail. lia. }
      assert (H2 : svc (S (issued w) + k) = Completed text).
      { now replace (S (issued w) + k) with (issued w + S k) by lia. }
      specialize (IH H1 H2).
      change (World (S (issued w)) ((trace w ++ [Post]) ++ [Sleep x]))
        with (sleep x (post w)) in IH.
      destruct (attempts svc retries (map Z.of_nat (seq (S a) n)) (sleep x (post w)))
        as [out w'].
      destruct IH as (Ho & Hi & Hs).
      rewrite sleeps_sleep, sleeps_post, length_app in Hs. cbn [length] in Hs.
      repeat split; auto; lia. }
    pose proof (Hfail 0 ltac:(lia)) as Hf. rewrite Nat.add_0_r in Hf.
    destruct (svc (issued w)) as [txt|code|]; [contradiction| |].
    + destruct (code =? 429)%Z; [|rewrite Hlt]; apply Hnext.
    + rewrite Hlt. apply Hnext.
Qed.

(** X6.  When each attempt before the [k]-th ends in one of the two
    failures that the loop catches, an HTTP error (of any status, 429
    included) or a timeout, and the [k]-th gets a completion within the
    budget, the call returns the text of that completion after [k + 1]
    requests and [k] sleeps: caught failures that are followed by a
    success never surface.  (An attempt that raises anything else is not
    caught and is no answer of the scripted service.) *)
Theorem first_completion_returned
        (svc : service) (retries : Z) (w : world) (k : nat) (text : pystr) :
  k < Z.to_nat retries ->
  (forall j, j < k ->
     (exists status_code, svc (issued w + j) = HttpError status_code) \/
     svc (issued w + j) = TimedOut) ->
  svc (issued w + k) = Completed text ->
  let (out, w') := call_cursor_api svc retries w in
  out = Returned text /\ issued w' = issued w + S k /\
  length (sleeps w') = length (sleeps w) + k.
Proof.
  intros Hk Hfail Hok. unfold call_cursor_api, range.
  apply attempts_first_completion with (k := k); auto; [lia|].
  intros j Hj. destruct (Hfail j Hj) as [[code ->]| ->]; exact I.
Qed.

Lemma first_completion_returned_witness :
  let (out, w') :=
    call_cursor_api (script [TimedOut; HttpError 500] (Completed (lit "done")))
                    default_retries fresh in
  out = Returned (lit "done") /\ issued w' = issued fresh + 3 /\
  length (sleeps w') = length (sleeps fresh) + 2.
Proof.
  apply (first_completion_returned
           (script [TimedOut; HttpError 500] (Completed (lit "done")))
           default_retries fresh 2 (lit "done")).
  - vm_compute. lia.
  - intros j Hj. destruct j as [|[|j]]; [right; reflexivity| |lia].
    left. exists 500%Z. reflexivity.
  - reflexivity.
Defined.

(** The loop when every remaining attempt fails and the last one is
    rate limited. *)
Lemma attempts_rate_limited_last svc retries : forall n a w,
  Z.of_nat (a + S n) = retries ->
  (forall k, k < n -> failed (svc (issued w + k))) ->
  svc (issued w + n) = HttpError 429 ->
  let (out, w') := attempts svc retries (map Z.of_nat (seq a (S n))) w in
  out = Returned [] /\ issued w' = issued w + S n /\
  exists evs, trace w' = evs ++ [Sleep (10 * retries)].
Proof.
  induction n as [|n IH]; intros a w Hr Hfail Hlast; rewrite ClientFacts.range_unfold;
    cbn [attempts].
  - rewrite Nat.add_0_r in Hlast. rewrite Hlast. cbn [Z.eqb Pos.eqb seq map attempts].
    cbn [sleep post issued trace]. repeat split; [lia|].
    exists (trace w ++ [Post]). repeat f_equal. lia.
  - assert (Hlt : (Z.of_nat a <? retries - 1)%Z = true) by (apply Z.ltb_lt; lia).
    assert (Hnext : forall x,
              let (out, w') := attempts svc retries (map Z.of_nat (seq (S a) (S n)))
                                        (sleep x (post w)) in
              out = Returned [] /\ issued w' = issued w + S (S n) /\
              exists evs, trace w' = evs ++ [Sleep (10 * retries)]).
    { intros x.
      specialize (IH (S a) (sleep x (post w)) ltac:(lia)).
      cbn [sleep post issued] in IH.
      assert (H1 : forall j, j < n -> failed (svc (S (issued w) + j))).
      { intros j Hj. replace (S (issued w) + j) with (issued w + S j) by lia.
        apply Hfail. lia. }
      assert (H2 : svc (S (issued w) + n) = HttpError 429).
      { now replace (S (issued w) + n) with (issued w + S n) by lia. }
      specialize (IH H1 H2).
      change (World (S (issued w)) ((trace w ++ [Post]) ++ [Sleep x]))
        with (sleep x (post w)) in IH.
      destruct (attempts svc retries (map Z.of_nat (seq (S a) (S n))) (sleep x (post w)))
        as [out w'].
      destruct IH as (Ho & Hi & Hs). repeat split; auto; lia. }
    pose proof (Hfail 0 ltac:(lia)) as Hf. rewrite Nat.add_0_r in Hf.
    destruct (svc (issued w)) as [txt|code|]; [contradiction| |].
    + destruct (code =? 429)%Z; [|rewrite Hlt]; apply Hnext.
    + rewrite Hlt. apply Hnext.
Qed.

(** X7.  When no attempt gets a completion and the last one is rate
    limited, the call does not raise: it uses up the budget, sleeps
    [10 * retries] seconds after the last answer, and returns the empty
    text. *)
Theorem rate_limited_last_returns_empty (svc : service) (retries : Z) (w : world) :
  (0 < retries)%Z ->
  (forall k, k < Z.to_nat retries - 1 -> failed (svc (issued w + k))) ->
  svc (issued w + (Z.to_nat retries - 1)) = HttpError 429 ->
  let (out, w') := call_cursor_api svc retries w in
  out = Returned [] /\ issued w' = issued w + Z.to_nat retries /\
  exists evs, trace w' = evs ++ [Sleep (10 * retries)].
Proof.
  intros Hpos Hfail Hlast. unfold call_cursor_api, range.
  destruct (Z.to_nat retries) as [|n] eqn:En; [lia|].
  replace (S n - 1) with n in * by lia.
  apply attempts_rate_limited_last; auto. lia.
Qed.

Lemma rate_limited_last_returns_empty_witness :
  let (out, w') :=
    call_cursor_api (script [HttpError 500; TimedOut] (HttpError 429))
                    default_retries fresh in
  out = Returned [] /\ issued w' = issued fresh + Z.to_nat default_retries /\
  exists evs, trace w' = evs ++ [Sleep (10 * default_retries)].
Proof.
  apply (rate_limited_last_returns_empty
           (script [HttpError 500; TimedOut] (HttpError 429)) default_retries fresh).
  - reflexivity.
  - intros k Hk. change (Z.to_nat default_retries - 1) with 2 in Hk.
    destruct k as [|[|k]]; cbn; auto. lia.
  - reflexivity.
Defined.

End ClientBudget.
(* ------------------------------------------------------------------ *)
(** ** Batches *)

Module BatchFacts.

Lemma firstn_skipn_add {A} : forall a b (l : list A),
  firstn a l ++ firstn b (skipn a l) = firstn (a + b) l.
Proof.
  induction a as [|a IH]; intros b l; [reflexivity|].
  destruct l as [|x l]; cbn [firstn skipn app plus].
  - now rewrite firstn_nil.
  - now rewrite IH.
Qed.

(** The batches as cuts of [s] elements each. *)
Lemma batch_cuts {A} (items : list A) (size : Z) :
  (0 < size)%Z ->
  batch items size =
  inr (map (fun k => firstn (Z.to_nat size) (skipn (k * Z.to_nat size) items))
           (seq 0 (Z.to_nat ((Z.of_nat (length items) + size - 1) / size)))).
Proof.
  intros Hs. unfold batch, range3.
  destruct (Z.eqb_spec size 0); [lia|].
  destruct (Z.ltb_spec 0 size); [|lia].
  rewrite Z.sub_0_r. f_equal. rewrite map_map. apply map_ext. intros k.
  unfold slice. f_equal; [|f_equal]; nia.
Qed.

Lemma concat_cuts {A} (items : list A) (s : nat) : forall m,
  concat (map (fun k => firstn s (skipn (k * s) items)) (seq 0 m))
  = firstn (m * s) items.
Proof.
  induction m as [|m IH]; [reflexivity|].
  rewrite seq_S, map_app, concat_app, IH. cbn [map concat plus].
  rewrite app_nil_r, firstn_skipn_add. f_equal. lia.
Qed.

(** The number of batches: the least [m] with [length items <= m * size]. *)
Lemma count_bounds (n size : Z) :
  (0 <= n)%Z -> (0 < size)%Z ->
  let m := ((n + size - 1) / size)%Z in
  (0 <= m /\ n <= m * size < n + size)%Z.
Proof.
  intros Hn Hs m.
  pose proof (Z.div_mod (n + size - 1) size ltac:(lia)) as E.
  pose proof (Z.mod_pos_bound (n + size - 1) size Hs) as B.
  fold m in E. split; [apply Z.div_pos; lia|]. nia.
Qed.

(** X8.  For a positive size the batches, put end to end, are the list
    itself: every item is in exactly one batch, in its place; and no batch
    is empty. *)
Theorem batch_partitions {A} (items : list A) (size : Z) :
  (0 < size)%Z ->
  exists bs, batch items size = inr bs /\ concat bs = items /\
             Forall (fun b => b <> []) bs.
Proof.
  intros Hs. rewrite (batch_cuts items size Hs).
  eexists. split; [reflexivity|].
  destruct (count_bounds (Z.of_nat (length items)) size ltac:(lia) Hs) as [Hm Hb].
  set (m := ((Z.of_nat (length items) + size - 1) / size)%Z) in *.
  split.
  - rewrite concat_cuts. apply firstn_all2. nia.
  - apply Forall_forall. intros b Hb'. apply in_map_iff in Hb'.
    destruct Hb' as (k & <- & Hk). apply in_seq in Hk.
    intros E. apply (f_equal (@length A)) in E.
    rewrite length_firstn, length_skipn in E. cbn [length] in E.
    assert (Hlt : k * Z.to_nat size < length items) by nia.
    lia.
Qed.

Lemma batch_partitions_witness :
  exists bs, batch [1; 2; 3; 4; 5; 6; 7] 3 = inr bs /\
             concat bs = [1; 2; 3; 4; 5; 6; 7] /\ Forall (fun b => b <> []) bs.
Proof. apply (batch_partitions [1; 2; 3; 4; 5; 6; 7] 3). lia. Defined.

(** X9.  For a positive size there are as many batches as it takes to
    hold the items, and not one more; every batch before the last holds
    exactly [size] items, and none holds more. *)
Theorem batch_sizes {A} (items : list A) (size : Z) (bs : list (list A)) :
  (0 < size)%Z -> batch items size = inr bs ->
  (Z.of_nat (length items) <= Z.of_nat (length bs) * size
   < Z.of_nat (length items) + size)%Z /\
  Forall (fun b => (Z.of_nat (length b) <= size)%Z) bs /\
  forall i, S i < length bs -> Z.of_nat (length (nth i bs [])) = size.
Proof.
  intros Hs E. rewrite (batch_cuts items size Hs) in E. inversion E as [Ebs]. clear E.
  destruct (count_bounds (Z.of_nat (length items)) size ltac:(lia) Hs) as [Hm Hb].
  set (m := ((Z.of_nat (length items) + size - 1) / size)%Z) in *.
  rewrite length_map, length_seq. split; [lia|]. split.
  - apply Forall_forall. intros b Hb'. apply in_map_iff in Hb'.
    destruct Hb' as (k & <- & _). rewrite length_firstn. lia.
  - intros i Hi.
    rewrite (nth_indep _ [] (firstn (Z.to_nat size) (skipn (0 * Z.to_nat size) items)))
      by (rewrite length_map, length_seq; lia).
    rewrite (map_nth (fun k => firstn (Z.to_nat size) (skipn (k * Z.to_nat size) items))).
    rewrite seq_nth by lia. cbn [plus].
    rewrite length_firstn, length_skipn.
    assert (Hlt : (i + 1) * Z.to_nat size <= length items) by nia.
    nia.
Qed.

Lemma batch_sizes_witness :
  let items := [1; 2; 3; 4; 5; 6; 7; 8; 9; 10; 11; 12] in
  let bs := [[1; 2; 3; 4; 5]; [6; 7; 8; 9; 10]; [11; 12]] in
  batch items 5 = inr bs /\
  (Z.of_nat (length items) <= Z.of_nat (length bs) * 5
   < Z.of_nat (length items) + 5)%Z /\
  Forall (fun b => (Z.of_nat (length b) <= 5)%Z) bs /\
  forall i, S i < length bs -> Z.of_nat (length (nth i bs [])) = 5%Z.
Proof.
  cbv zeta. split; [reflexivity|].
  apply (batch_sizes [1; 2; 3; 4; 5; 6; 7; 8; 9; 10; 11; 12] 5); [lia|reflexivity].
Defined.

(** X10.  A size of zero raises [ValueError]; a negative size raises nothing
    and yields no batch at all, whatever the list holds. *)
Theorem batch_without_positive_size {A} (items : list A) (size : Z) :
  (size <= 0)%Z ->
  batch items size = if (size =? 0)%Z then inl ValueError else inr [].
Proof.
  intros Hs. unfold batch, range3.
  destruct (Z.eqb_spec size 0); [reflexivity|].
  destruct (Z.ltb_spec 0 size); [lia|].
  rewrite Z.sub_0_l.
  assert (Hq : ((- Z.of_nat (length items) - size - 1) / (- size) <= 0)%Z).
  { assert (H1 : ((- Z.of_nat (length items) - size - 1) / (- size)
                  <= (- size - 1) / (- size))%Z)
      by (apply Z.div_le_mono; lia).
    rewrite (Z.div_small (- size - 1) (- size)) in H1 by lia. exact H1. }
  replace (Z.to_nat _) with 0 by lia. reflexivity.
Qed.

Lemma batch_without_positive_size_witness :
  batch [1; 2; 3] (-2) = inr [] /\ batch [1; 2; 3] 0 = inl ValueError.
Proof.
  split.
  - apply (batch_without_positive_size [1; 2; 3] (-2)). lia.
  - apply (batch_without_positive_size [1; 2; 3] 0). lia.
Defined.

End BatchFacts.
(* ------------------------------------------------------------------ *)
(** ** Reading files and looking for the markers *)

Module ReaderFacts.
Import TextFacts OsFacts.

Lemma digits_are_digits u : Forall (fun c => (48 <= c <= 57)%N) (digits u).
Proof. induction u; cbn [digits]; constructor; auto; lia. Qed.

Lemma occurs_in needle hay c : occurs needle hay -> In c needle -> In c hay.
Proof.
  intros (pre & post & ->) H. apply in_or_app. right. apply in_or_app. now left.
Qed.

(** The characters of the sentinel for a file that is too large. *)
Lemma too_large_chars n c :
  In c (too_large n) ->
  In c (lit "[FILE TOO LARGE: ") \/ (48 <= c <= 57)%N \/ In c (lit " bytes, skipped]").
Proof.
  unfold too_large. intros H. apply in_app_or in H. destruct H as [H|H]; auto.
  apply in_app_or in H. destruct H as [H|H]; auto.
  right. left. pose proof (digits_are_digits (N.to_uint n)) as Hd.
  rewrite Forall_forall in Hd. now apply Hd.
Qed.

Lemma too_large_lacks n c :
  ~ In c (lit "[FILE TOO LARGE: ") -> ~ (48 <= c <= 57)%N ->
  ~ In c (lit " bytes, skipped]") -> ~ In c (too_large n).
Proof. intros H1 H2 H3 H. apply too_large_chars in H. tauto. Qed.

Ltac not_listed := cbn; intuition (try discriminate; try lia).

Lemma marker_not_in_too_large n marker :
  In marker convex_markers -> contains marker (too_large n) = false.
Proof.
  intros Hm. destruct (contains marker (too_large n)) eqn:E; [|reflexivity].
  exfalso. apply contains_spec in E.
  assert (Hc : exists c, In c marker /\ ~ In c (too_large n)).
  { cbn [convex_markers In] in Hm.
    repeat (destruct Hm as [<-|Hm]); [..|contradiction].
    - exists 102%N. split; [not_listed|apply too_large_lacks; not_listed].
    - exists 102%N. split; [not_listed|apply too_large_lacks; not_listed].
    - exists 117%N. split; [not_listed|apply too_large_lacks; not_listed].
    - exists 117%N. split; [not_listed|apply too_large_lacks; not_listed].
    - exists 117%N. split; [not_listed|apply too_large_lacks; not_listed].
    - exists 67%N. split; [not_listed|apply too_large_lacks; not_listed].
    - exists 67%N. split; [not_listed|apply too_large_lacks; not_listed].
    - exists 46%N. split; [not_listed|apply too_large_lacks; not_listed].
    - exists 99%N. split; [not_listed|apply too_large_lacks; not_listed]. }
  destruct Hc as (c & Hin & Hout). apply Hout. now apply (occurs_in marker).
Qed.

Lemma uses_convex_too_large n : uses_convex (too_large n) = false.
Proof.
  unfold uses_convex. destruct (existsb _ convex_markers) eqn:E; [|reflexivity].
  apply existsb_exists in E. destruct E as (m & Hm & Hc).
  rewrite (marker_not_in_too_large n m Hm) in Hc. discriminate.
Qed.

(** X11.  The text that stands for a file over the size limit is never
    taken for a use of Convex, whatever the size it reports. *)
Theorem oversized_sentinel_not_flagged (size : N) :
  uses_convex (too_large size) = false.
Proof. apply uses_convex_too_large. Qed.

(** X12.  [uses_convex] holds exactly for the texts in which one of the
    nine markers lies; so a text stays flagged when more text is put around
    it. *)
Theorem uses_convex_iff_marker (content : pystr) :
  (uses_convex content = true <->
   exists marker, In marker convex_markers /\ occurs marker content) /\
  (forall pre post, uses_convex content = true ->
                    uses_convex (pre ++ content ++ post) = true).
Proof.
  assert (Hiff : forall s, uses_convex s = true <->
                 exists marker, In marker convex_markers /\ occurs marker s).
  { intros s. unfold uses_convex. rewrite existsb_exists.
    split; intros (m & Hm & Hc); exists m; split; auto; now apply contains_spec. }
  split; [apply Hiff|].
  intros pre post H. apply Hiff in H. destruct H as (m & Hm & Ho).
  apply Hiff. exists m. split; auto. now apply occurs_app.
Qed.

(** *** [read_file_safe] *)

Lemma read_file_safe_inr pf p max_bytes f :
  exists text, read_file_safe pf p max_bytes f = (inr text, f).
Proof.
  unfold read_file_safe, bind, stat_size, read_text, bind, read, ret.
  destruct (resolve f [] p) as [e|l] eqn:Hr; [eauto|].
  destruct (node_at f l) as [[d|]|] eqn:Hn; [| |eauto];
    (destruct (max_bytes <? _)%Z; [eauto|]); rewrite Hr, Hn; eauto.
Qed.

(** What is returned for a regular file. *)
Lemma read_file_safe_file pf p max_bytes f d :
  read p f = (inr d, f) ->
  read_file_safe pf p max_bytes f
  = (inr (if (max_bytes <? Z.of_N (utf8_size d))%Z then too_large (utf8_size d)
          else universal_newlines d), f).
Proof.
  intros H. apply read_inr in H. destruct H as (_ & l & Hr & Hn).
  unfold read_file_safe, bind, stat_size, read_text, bind, read, ret.
  rewrite Hr, Hn. destruct (max_bytes <? _)%Z; [reflexivity|].
  now rewrite Hr, Hn.
Qed.

End ReaderFacts.
(* ------------------------------------------------------------------ *)
(** ** The analysis step *)

Module AnalysisFacts.
Import TextFacts OsFacts ReaderFacts.

Lemma filterM_inr {A} (test : A -> M bool) :
  (forall x f r f', test x f = (r, f') -> f' = f) ->
  forall l f r f',
    filterM test l f = (inr r, f') ->
    f' = f /\ r = filter (fun x => holds (test x) f) l.
Proof.
  intros Hpure. induction l as [|x l IH]; intros f r f' H.
  - inversion H; subst. auto.
  - cbn [filterM] in H. unfold bind in H.
    destruct (test x f) as [[e|b] f1] eqn:Et; [discriminate|].
    pose proof (Hpure _ _ _ _ Et) as ->.
    assert (Hh : holds (test x) f = b) by (unfold holds; now rewrite Et).
    destruct (filterM test l f) as [[e|rest] f2] eqn:Er; [discriminate|].
    destruct (IH _ _ _ Er) as [E2 ->]. subst f2.
    unfold ret in H. inversion H; subst. split; reflexivity.
Qed.

Lemma filterM_total {A} (test : A -> M bool) f : forall l,
  (forall x, In x l -> exists b, test x f = (inr b, f)) ->
  exists r, filterM test l f = (inr r, f).
Proof.
  induction l as [|x l IH]; intros H; [now exists []|].
  destruct (H x (or_introl eq_refl)) as [b Eb].
  destruct IH as [r Er]; [intros y Hy; apply H; now right|].
  cbn [filterM]. unfold bind, ret. rewrite Eb, Er. eauto.
Qed.

Lemma is_backend_pure src x f r f' : is_backend src x f = (r, f') -> f' = f.
Proof.
  unfold is_backend, bind, relative_to, ret, raise.
  destruct (strip_prefix src x); intros H; now inversion H.
Qed.

Lemma is_candidate_inr pf x f : exists b, is_candidate pf x f = (inr b, f).
Proof.
  unfold is_candidate. destruct (mem (suffix x) CODE_EXTENSIONS); [|unfold ret; eauto].
  unfold bind, ret. destruct (read_file_safe_inr pf x default_max_bytes f) as [t ->].
  eauto.
Qed.

Lemma is_candidate_pure pf x f r f' : is_candidate pf x f = (r, f') -> f' = f.
Proof.
  destruct (is_candidate_inr pf x f) as [b E]. rewrite E. intros H. now inversion H.
Qed.

(** What a run of the analysis that does not raise returns. *)
Lemma step_analyze_inr pf src listing f a f' :
  step_analyze pf src listing f = (inr a, f') ->
  f' = f /\
  all_files a = iter_source_files listing f /\
  convex_files a = filter (fun e => holds (is_backend src e) f) (all_files a) /\
  convex_using a = filter (fun e => holds (is_candidate pf e) f) (all_files a).
Proof.
  unfold step_analyze, bind. intros H.
  destruct (filterM (is_backend src) _ f) as [[e|cf] f1] eqn:E1; [discriminate|].
  destruct (filterM_inr _ (is_backend_pure src) _ _ _ _ E1) as [-> ->].
  destruct (filterM (is_candidate pf) _ f) as [[e|cu] f2] eqn:E2; [discriminate|].
  destruct (filterM_inr _ (is_candidate_pure pf) _ _ _ _ E2) as [-> ->].
  unfold ret in H. inversion H; subst. cbn. auto.
Qed.

(** *** The first component of a relative path *)

Lemma split_on_no_sep sep : forall s,
  ~ In sep s -> split_on sep s = [s].
Proof.
  induction s as [|c s IH]; intros H; [reflexivity|]. cbn [split_on].
  unfold char_eqb. destruct (N.eqb_spec sep c) as [->|Hne].
  - exfalso. apply H. now left.
  - rewrite IH; [reflexivity|]. intros Hin. apply H. now right.
Qed.

Lemma split_on_first sep : forall s t,
  ~ In sep s -> hd [] (split_on sep (s ++ sep :: t)) = s.
Proof.
  induction s as [|c s IH]; intros t H; cbn [app split_on].
  - unfold char_eqb. now rewrite N.eqb_refl.
  - unfold char_eqb. destruct (N.eqb_spec sep c) as [->|Hne].
    + exfalso. apply H. now left.
    + assert (Hs : ~ In sep s) by (intros Hin; apply H; now right).
      specialize (IH t Hs).
      destruct (split_on sep (s ++ sep :: t)) as [|seg segs]; cbn in *; congruence.
Qed.

Lemma first_component_cons part0 rest :
  ~ In slash part0 -> first_component (part0 :: rest) = part0.
Proof.
  intros H. unfold first_component, path_str. cbn [join].
  destruct rest as [|r rest].
  - now rewrite split_on_no_sep.
  - cbn [app]. now apply split_on_first.
Qed.

Lemma is_backend_below src rel f :
  is_backend src (src ++ rel) f
  = (inr (contains convex (first_component rel)), f).
Proof.
  unfold is_backend, bind, relative_to.
  now rewrite ApplierFacts.strip_prefix_app.
Qed.

Lemma convex_no_slash : ~ In slash convex.
Proof. cbn. intuition discriminate. Qed.

(** On a listing of paths below the root the analysis does not raise. *)
Lemma step_analyze_total pf src listing f :
  listed_below src listing ->
  exists a, step_analyze pf src listing f = (inr a, f).
Proof.
  intros Hl.
  assert (Hsub : forall e, In e (iter_source_files listing f) ->
                 exists rel, e = src ++ rel).
  { intros e He. unfold iter_source_files in He. apply filter_In in He.
    destruct He as [He _]. unfold listed_below in Hl. rewrite Forall_forall in Hl.
    destruct (Hl e He) as (rel & -> & _). eauto. }
  destruct (filterM_total (is_backend src) f (iter_source_files listing f))
    as [cf Ecf].
  { intros e He. destruct (Hsub e He) as [rel ->]. rewrite is_backend_below. eauto. }
  destruct (filterM_total (is_candidate pf) f (iter_source_files listing f))
    as [cu Ecu].
  { intros e _. apply is_candidate_inr. }
  exists (Analysis (iter_source_files listing f) cf cu).
  unfold step_analyze, bind, ret. now rewrite Ecf, Ecu.
Qed.

Lemma read_fst p f d : fst (read p f) = inr d -> read p f = (inr d, f).
Proof.
  unfold read. destruct (resolve f [] p) as [e|l]; [discriminate|].
  destruct (node_at f l) as [[d0|]|]; cbn [fst]; intros H; inversion H; reflexivity.
Qed.

Lemma project_listed : listed_below Sample.source_root project_listing.
Proof. apply ApplierFacts.listed_belowb_ok. vm_compute. reflexivity. Qed.

Lemma utf8_size_app a b : utf8_size (a ++ b) = (utf8_size a + utf8_size b)%N.
Proof.
  induction a as [|c a IH]; [reflexivity|].
  change (utf8_size ((c :: a) ++ b)) with (utf8_len c + utf8_size (a ++ b))%N.
  change (utf8_size (c :: a)) with (utf8_len c + utf8_size a)%N.
  rewrite IH. lia.
Qed.

Lemma utf8_size_blanks n : utf8_size (repeat 32%N n) = N.of_nat n.
Proof.
  induction n as [|n IH]; [reflexivity|].
  change (utf8_size (repeat 32%N (S n)))
    with (utf8_len 32%N + utf8_size (repeat 32%N n))%N.
  rewrite IH. change (utf8_len 32%N) with 1%N. lia.
Qed.

(** X13.  The analysis of a listing of paths below the source root does
    not raise and leaves the tree as it is.  A file counts as a backend file
    exactly when the first component of its relative path contains the word
    [convex]: this covers every file that the copy step leaves out, and also
    files in a top-level entry whose name only contains the word, which the
    copy step does copy. *)
Theorem backend_files_by_substring
        (pf : platform) (source_root : path) (listing : list path) (f : fs) :
  listed_below source_root listing ->
  exists a,
    step_analyze pf source_root listing f = (inr a, f) /\
    forall rel, In (source_root ++ rel) (all_files a) ->
      (In (source_root ++ rel) (convex_files a) <->
       contains convex (first_component rel) = true) /\
      (under_convex rel = true -> In (source_root ++ rel) (convex_files a)) /\
      (forall part0 rest, rel = part0 :: rest -> ~ In slash part0 ->
         occurs convex part0 -> part0 <> convex ->
         In (source_root ++ rel) (convex_files a) /\ under_convex rel = false).
Proof.
  intros Hl. destruct (step_analyze_total pf source_root listing f Hl) as [a Hrun].
  exists a. split; [exact Hrun|].
  destruct (step_analyze_inr _ _ _ _ _ _ Hrun) as (_ & _ & Hcf & _).
  intros rel Hin.
  assert (Hiff : In (source_root ++ rel) (convex_files a) <->
                 contains convex (first_component rel) = true).
  { rewrite Hcf, filter_In. unfold holds. rewrite is_backend_below. cbn [fst].
    tauto. }
  split; [exact Hiff|]. split.
  - intros Hu. apply Hiff. destruct rel as [|part0 rest]; [discriminate|].
    cbn [under_convex] in Hu. unfold pystr_eqb in Hu.
    destruct (pystr_eq_dec part0 convex) as [->|]; [|discriminate].
    rewrite first_component_cons by apply convex_no_slash. reflexivity.
  - intros part0 rest -> Hns Hocc Hne. split.
    + apply Hiff. rewrite first_component_cons by exact Hns.
      now apply contains_spec.
    + cbn [under_convex]. unfold pystr_eqb.
      destruct (pystr_eq_dec part0 convex); [contradiction|reflexivity].
Qed.

Lemma backend_files_by_substring_witness :
  listed_below Sample.source_root project_listing /\
  exists a,
    step_analyze posix Sample.source_root project_listing project = (inr a, project) /\
    In (Sample.pth "/work/app/myconvex/util.ts") (convex_files a) /\
    under_convex [lit "myconvex"; lit "util.ts"] = false.
Proof.
  pose proof project_listed as Hl.
  split; [exact Hl|].
  destruct (backend_files_by_substring posix Sample.source_root project_listing
              project Hl) as (a & Hrun & Hall).
  exists a. split; [exact Hrun|].
  assert (Hin : In (Sample.source_root ++ [lit "myconvex"; lit "util.ts"])
                   (all_files a)).
  { destruct (step_analyze_inr _ _ _ _ _ _ Hrun) as (_ & -> & _).
    vm_compute. auto 10. }
  destruct (Hall [lit "myconvex"; lit "util.ts"] Hin) as (_ & _ & H3).
  apply (H3 (lit "myconvex") [lit "util.ts"] eq_refl).
  - cbn. intuition discriminate.
  - apply contains_spec. vm_compute. reflexivity.
  - discriminate.
Defined.

(** The condition of the second comprehension on a regular file. *)
Lemma is_candidate_file pf e f d :
  read e f = (inr d, f) ->
  holds (is_candidate pf e) f
  = mem (suffix e) CODE_EXTENSIONS
    && (Z.of_N (utf8_size d) <=? default_max_bytes)%Z
    && uses_convex (universal_newlines d).
Proof.
  intros Hr. unfold holds, is_candidate.
  destruct (mem (suffix e) CODE_EXTENSIONS); [|reflexivity].
  unfold bind, ret. rewrite (read_file_safe_file pf e default_max_bytes f d Hr).
  cbn [fst andb]. rewrite Z.leb_antisym.
  destruct (default_max_bytes <? Z.of_N (utf8_size d))%Z; cbn [negb andb]; auto.
  apply uses_convex_too_large.
Qed.

(** X14.  Among the enumerated files that can be read, the candidates
    for migration are exactly those with a code suffix, of at most 80,000
    bytes, whose text (line ends normalised) holds one of the markers.  A
    larger file is never a candidate, whatever it contains. *)
Theorem candidates_characterised
        (pf : platform) (source_root : path) (listing : list path)
        (f f' : fs) (a : analysis) (e : path) (d : pystr) :
  step_analyze pf source_root listing f = (inr a, f') ->
  In e (all_files a) -> read e f = (inr d, f) ->
  (In e (convex_using a) <->
   mem (suffix e) CODE_EXTENSIONS = true /\
   (Z.of_N (utf8_size d) <= default_max_bytes)%Z /\
   uses_convex (universal_newlines d) = true).
Proof.
  intros Hrun Hin Hr.
  destruct (step_analyze_inr _ _ _ _ _ _ Hrun) as (_ & _ & _ & ->).
  rewrite filter_In, (is_candidate_file pf e f d Hr), !andb_true_iff, Z.leb_le.
  tauto.
Qed.

Lemma candidates_characterised_witness :
  exists a,
    step_analyze posix Sample.source_root project_listing project = (inr a, project) /\
    In (Sample.pth "/work/app/App.tsx") (convex_using a) /\
    ~ In (Sample.pth "/work/app/notes.md") (convex_using a).
Proof.
  destruct (step_analyze_total posix Sample.source_root project_listing project
              project_listed) as [a Hrun].
  exists a. split; [exact Hrun|].
  destruct (step_analyze_inr _ _ _ _ _ _ Hrun) as (_ & Hall & _).
  split.
  - apply (candidates_characterised posix Sample.source_root project_listing
             project project a (Sample.pth "/work/app/App.tsx")
             (lit "import { useQuery } from 'convex/react'") Hrun).
    + rewrite Hall. vm_compute. auto.
    + apply read_fst. vm_compute. reflexivity.
    + vm_compute. repeat split; discriminate.
  - intros Hin.
    apply (candidates_characterised posix Sample.source_root project_listing
             project project a (Sample.pth "/work/app/notes.md")
             (lit "useQuery" ++ padding) Hrun) in Hin.
    + destruct Hin as (_ & Hsize & _).
      unfold padding in Hsize. rewrite utf8_size_app, utf8_size_blanks in Hsize.
      vm_compute in Hsize. now apply Hsize.
    + rewrite Hall. vm_compute. auto 10.
    + apply read_fst. cbv -[padding]. reflexivity.
Defined.

Lemma rfind_dot_none : forall s i, ~ In 46%N s -> rfind_dot s i = None.
Proof.
  induction s as [|c s IH]; intros i H; [reflexivity|]. cbn [rfind_dot].
  rewrite IH by (intros Hin; apply H; now right).
  unfold char_eqb. destruct (N.eqb_spec 46%N c) as [<-|]; [|reflexivity].
  exfalso. apply H. now left.
Qed.

Lemma suffix_no_later_dot e c stem :
  name e = c :: stem -> ~ In 46%N stem -> suffix e = [].
Proof.
  intros En Hs. unfold suffix. rewrite En. cbn [rfind_dot].
  rewrite rfind_dot_none by exact Hs.
  destruct (char_eqb 46%N c); reflexivity.
Qed.

(** X15.  A file whose name has no dot after its first character, such
    as [.env] or [Makefile], has no suffix and is never a candidate for
    migration: the entry [.env] of [CODE_EXTENSIONS] only matches longer
    names. *)
Theorem dotfiles_never_candidates
        (pf : platform) (source_root : path) (listing : list path)
        (f f' : fs) (a : analysis) (e : path) (c : char) (stem : pystr) :
  step_analyze pf source_root listing f = (inr a, f') ->
  name e = c :: stem -> ~ In 46%N stem ->
  ~ In e (convex_using a).
Proof.
  intros Hrun En Hs Hin.
  destruct (step_analyze_inr _ _ _ _ _ _ Hrun) as (_ & _ & _ & Hcu).
  rewrite Hcu in Hin. apply filter_In in Hin. destruct Hin as [_ Hh].
  unfold holds, is_candidate in Hh.
  rewrite (suffix_no_later_dot e c stem En Hs) in Hh. discriminate Hh.
Qed.

Lemma dotfiles_never_candidates_witness :
  exists a,
    step_analyze posix Sample.source_root project_listing project = (inr a, project) /\
    In (Sample.pth "/work/app/.env") (all_files a) /\
    uses_convex (lit "URL=https://api.example.dev") = true /\
    ~ In (Sample.pth "/work/app/.env") (convex_using a).
Proof.
  destruct (step_analyze_total posix Sample.source_root project_listing project
              project_listed) as [a Hrun].
  exists a. split; [exact Hrun|].
  destruct (step_analyze_inr _ _ _ _ _ _ Hrun) as (_ & Hall & _).
  split; [rewrite Hall; vm_compute; auto|]. split; [vm_compute; reflexivity|].
  apply (dotfiles_never_candidates posix Sample.source_root project_listing
           project project a (Sample.pth "/work/app/.env") 46%N (lit "env") Hrun).
  - vm_compute. reflexivity.
  - cbn. intuition discriminate.
Defined.

End AnalysisFacts.
(* ------------------------------------------------------------------ *)
(** ** The project context *)

Module ContextFacts.
Import ReaderFacts ApplierFacts.

Lemma clip_length limit mark content :
  length (clip limit mark content) <= limit + length mark.
Proof.
  unfold clip. destruct (Nat.ltb_spec limit (length content)).
  - rewrite length_app, length_firstn. lia.
  - lia.
Qed.

Lemma clip_prefix limit content :
  exists rest, content = clip limit [] content ++ rest /\
               (rest <> [] -> length (clip limit [] content) = limit).
Proof.
  unfold clip. destruct (Nat.ltb_spec limit (length content)).
  - exists (skipn limit content). rewrite app_nil_r, firstn_skipn. split; auto.
    intros _. rewrite length_firstn. lia.
  - exists []. rewrite app_nil_r. split; auto. congruence.
Qed.

(** The parts that the loop builds: one per file that exists, in the
    order of the names, each file's text cut after 2000 code points. *)
Lemma context_parts_shape pf src f : forall names,
  exists parts,
    context_parts pf src names f = (inr parts, f) /\
    length parts <= length names /\
    Forall (fun part => exists name content,
              In name names /\ part = section name content /\
              length content <= 2000 + length truncated_mark) parts.
Proof.
  induction names as [|name more (parts & E & Hlen & Hall)].
  - exists []. repeat split; auto.
  - cbn [context_parts]. unfold bind.
    destruct (exists_inr (joinpath src name) f) as [b ->].
    assert (Hmore : Forall (fun part => exists name0 content,
              In name0 (name :: more) /\ part = section name0 content /\
              length content <= 2000 + length truncated_mark) parts).
    { eapply Forall_impl; [|exact Hall].
      intros part (n & c & Hn & Hp & Hc). exists n, c. repeat split; auto.
      now right. }
    destruct b.
    + destruct (read_file_safe_inr pf (joinpath src name) default_max_bytes f)
        as [text ->].
      rewrite E. exists (section name (clip 2000 truncated_mark text) :: parts).
      split; [reflexivity|]. split; [cbn [length]; lia|].
      constructor; auto.
      exists name, (clip 2000 truncated_mark text).
      split; [now left|]. split; [reflexivity|]. apply clip_length.
    + rewrite E. exists parts. split; [reflexivity|]. split; [cbn [length]; lia|auto].
Qed.

Lemma build_context_summary_inr pf src f :
  exists text, build_context_summary pf src f = (inr text, f).
Proof.
  destruct (context_parts_shape pf src f priority_files) as (parts & E & _).
  unfold build_context_summary, bind. rewrite E. unfold ret. eauto.
Qed.

(** X16.  The context summary never raises and leaves the tree as it
    is.  It has at most 4000 code points and is the beginning of the
    sections joined by blank lines, cut only when these are longer; there
    is at most one section per priority file, and a section holds at most
    2000 code points of its file followed by the truncation mark. *)
Theorem context_summary_bounded (pf : platform) (source_root : path) (f : fs) :
  exists parts text,
    context_parts pf source_root priority_files f = (inr parts, f) /\
    build_context_summary pf source_root f = (inr text, f) /\
    length text <= 4000 /\
    (exists rest, join [newline; newline] parts = text ++ rest /\
                  (rest <> [] -> length text = 4000)) /\
    length parts <= 6 /\
    Forall (fun part => exists name content,
              In name priority_files /\ part = section name content /\
              length content <= 2015) parts.
Proof.
  destruct (context_parts_shape pf source_root f priority_files)
    as (parts & E & Hlen & Hall).
  exists parts, (clip 4000 [] (join [newline; newline] parts)).
  split; [exact E|]. split.
  { unfold build_context_summary, bind. rewrite E. reflexivity. }
  split.
  { pose proof (clip_length 4000 [] (join [newline; newline] parts)) as H.
    cbn [length] in H. lia. }
  split; [apply clip_prefix|]. split; [exact Hlen|exact Hall].
Qed.

End ContextFacts.
(* ------------------------------------------------------------------ *)
(** ** The apply step stays inside the target *)

Module SafetyFacts.
Import OsFacts ApplierFacts.

Lemma confined_refl root f : confined root f f.
Proof. split; auto. Qed.

Lemma confined_trans root f g h :
  confined root f g -> confined root g h -> confined root f h.
Proof.
  intros [H1 D1] [H2 D2]. split.
  - intros l Hl. rewrite (H2 l Hl). now apply H1.
  - auto.
Qed.

Lemma rooted_confined root f f' : rooted root f -> confined root f f' -> rooted root f'.
Proof.
  intros Hr [_ Hd] q x E. specialize (Hr q x E).
  destruct q as [|s q]; [reflexivity|]. cbn [node_at] in *. auto.
Qed.

Lemma rooted_start root f :
  clean root -> fst (is_dir root f) = inr true -> rooted root f.
Proof.
  intros Hc Hd q x E. destruct (is_dir_true _ _ Hc Hd) as [Hres Hn].
  destruct x as [|s x].
  - rewrite app_nil_r in E. now subst.
  - subst root. apply clean_app_inv in Hc. destruct Hc as [Hq _].
    apply (resolve_through f q (s :: x) [] (q ++ s :: x)); auto. discriminate.
Qed.

(** The directories that [mkdirs] creates lie where the beginnings of the
    path lead. *)
Lemma mkdirs_footprint : forall p cur f r f',
  mkdirs cur p f = (r, f') ->
  forall l, f' l = f l \/
            (f l = None /\ exists q q', p = q ++ q' /\ q <> [] /\ l = norm cur q).
Proof.
  induction p as [|seg p IH]; intros cur f r f' H l; cbn [mkdirs] in H.
  - inversion H; auto.
  - destruct (pystr_eq_dec seg dotdot) as [Es|Es].
    + destruct (IH _ _ _ _ H l) as [E|(E & q & q' & -> & Hq & ->)]; auto.
      right. split; auto. exists (seg :: q), q'. repeat split; [discriminate|].
      cbn [norm]. now destruct (pystr_eq_dec seg dotdot).
    + destruct (node_at f (cur ++ [seg])) as [[d|]|] eqn:En.
      * inversion H; auto.
      * destruct (IH _ _ _ _ H l) as [E|(E & q & q' & -> & Hq & ->)]; auto.
        right. split; auto. exists (seg :: q), q'. repeat split; [discriminate|].
        cbn [norm]. now destruct (pystr_eq_dec seg dotdot).
      * assert (Hnone : f (cur ++ [seg]) = None).
        { unfold node_at in En. now destruct (cur ++ [seg]). }
        destruct (IH _ _ _ _ H l) as [E|(E & q & q' & -> & Hq & ->)].
        -- unfold update in E.
           destruct (path_eq_dec (cur ++ [seg]) l) as [<-|]; auto.
           right. split; auto. exists [seg], p. repeat split; [discriminate|].
           cbn [norm]. now destruct (pystr_eq_dec seg dotdot).
        -- unfold update in E.
           destruct (path_eq_dec (cur ++ [seg]) (norm (cur ++ [seg]) q));
             [discriminate|].
           right. split; auto. exists (seg :: q), q'.
           repeat split; [discriminate|].
           cbn [norm]. now destruct (pystr_eq_dec seg dotdot).
Qed.

Lemma norm_app : forall a b cur, norm cur (a ++ b) = norm (norm cur a) b.
Proof. induction a as [|s a IH]; intros b cur; cbn [app norm]; auto. Qed.

Lemma climbs_out_app_l : forall a b d,
  climbs_out d (a ++ b) = false -> climbs_out d a = false.
Proof.
  induction a as [|s a IH]; intros b d H; [reflexivity|].
  cbn [app climbs_out] in *.
  destruct (pystr_eq_dec s dotdot); [destruct d; [discriminate|]|]; eauto.
Qed.

Lemma clean_climbs_out : forall p d, clean p -> climbs_out d p = false.
Proof.
  induction p as [|s p IH]; intros d Hc; [reflexivity|]. cbn [climbs_out].
  destruct (pystr_eq_dec s dotdot) as [->|]; [exfalso; apply Hc; now left|].
  apply IH. intros Hin. apply Hc. now right.
Qed.

(** A path that does not climb out leads to a place under the root. *)
Lemma norm_inside root : forall a r,
  climbs_out (length r) a = false -> exists r', norm (root ++ r) a = root ++ r'.
Proof.
  induction a as [|s a IH]; intros r H; [now exists r|].
  cbn [climbs_out norm] in *. destruct (pystr_eq_dec s dotdot).
  - destruct (exists_last (l := r)) as (r0 & x & ->).
    { intros ->. discriminate H. }
    rewrite length_app in H. cbn [length] in H.
    replace (length r0 + 1) with (S (length r0)) in H by lia.
    rewrite app_assoc, removelast_last. now apply IH.
  - rewrite <- app_assoc. apply IH. rewrite length_app. cbn [length].
    now replace (length r + 1) with (S (length r)) by lia.
Qed.

Lemma locate_inside root parts :
  clean root -> climbs_out 0 parts = false ->
  under root (locate (root ++ parts)).
Proof.
  intros Hc H. unfold locate. rewrite norm_app.
  change (norm [] root) with (locate root). rewrite locate_clean by exact Hc.
  destruct (norm_inside root parts [] H) as [r' E].
  rewrite app_nil_r in E. exists r'. exact E.
Qed.

(** Where the beginnings of such a path lead: to a directory that
    exists, or under the root. *)
Lemma prefix_cases root parts f q q' :
  clean root -> rooted root f -> climbs_out 0 parts = false ->
  root ++ parts = q ++ q' -> q <> [] ->
  f (norm [] q) <> None \/ under root (norm [] q).
Proof.
  intros Hc Hr Hp E Hq. apply app_eq_app in E.
  destruct E as [x [[E1 E2]|[E1 E2]]].
  - left. assert (Hcq : clean q).
    { rewrite E1 in Hc. now apply clean_app_inv in Hc. }
    change (norm [] q) with (locate q). rewrite locate_clean by exact Hcq.
    specialize (Hr q x E1). destruct q as [|s q]; [congruence|].
    cbn [node_at] in Hr. congruence.
  - right. subst q. apply locate_inside; auto.
    rewrite E2 in Hp. now apply climbs_out_app_l in Hp.
Qed.

Lemma mkdir_parents_confined root parts f r f' :
  clean root -> rooted root f -> climbs_out 0 parts = false ->
  mkdir_parents (parent (root ++ parts)) f = (r, f') ->
  confined root f f'.
Proof.
  intros Hc Hr Hp H. unfold mkdir_parents in H. split.
  - intros l Hl.
    destruct (mkdirs_footprint _ _ _ _ _ H l) as [E|(E & q & q' & Eq & Hq & ->)];
      auto.
    exfalso.
    assert (Hpre : exists q'', root ++ parts = q ++ q'').
    { unfold parent in Eq. destruct (root ++ parts) as [|s t] eqn:Ert.
      - cbn in Eq. symmetry in Eq. apply app_eq_nil in Eq. now destruct Eq.
      - rewrite (app_removelast_last [] (l := s :: t)) by discriminate.
        rewrite Eq, <- app_assoc. eauto. }
    destruct Hpre as [q'' Eq''].
    destruct (prefix_cases root parts f q q'' Hc Hr Hp Eq'' Hq); auto.
  - intros l Hl.
    destruct (mkdirs_grows _ _ _ _ _ H l) as [E|[E _]]; congruence.
Qed.

Lemma update_confined root f l n :
  under root l -> node_at f l <> Some Dir -> confined root f (update f l n).
Proof.
  intros Hu Hn. split; intros l0 H0; unfold update;
    destruct (path_eq_dec l l0) as [<-|]; auto.
  - contradiction.
  - exfalso. apply Hn. destruct l; [reflexivity|exact H0].
Qed.

Lemma write_text_confined root parts d f r f' :
  clean root -> climbs_out 0 parts = false ->
  write_text (root ++ parts) d f = (r, f') -> confined root f f'.
Proof.
  intros Hc Hp H. apply write_text_cases in H.
  destruct H as [[-> _]|[_ (l & Hl & Hn & ->)]]; [apply confined_refl|].
  apply update_confined; auto.
  rewrite (resolve_locate _ _ _ Hl). now apply locate_inside.
Qed.

Lemma unlink_at p f r f' :
  unlink p f = (r, f') ->
  f' = f \/ exists l d, resolve f [] p = inr l /\ node_at f l = Some (File d) /\
                        f' = update f l None.
Proof.
  unfold unlink. destruct (resolve f [] p) as [e|l]; [intros H; inversion H; auto|].
  destruct (node_at f l) as [[d|]|] eqn:En; intros H; inversion H; auto.
  right. exists l, d. auto.
Qed.

Lemma unlink_confined root parts f r f' :
  clean root -> climbs_out 0 parts = false ->
  unlink (root ++ parts) f = (r, f') -> confined root f f'.
Proof.
  intros Hc Hp H. apply unlink_at in H.
  destruct H as [->|(l & d & Hl & Hn & ->)]; [apply confined_refl|].
  apply update_confined; [|congruence].
  rewrite (resolve_locate _ _ _ Hl). now apply locate_inside.
Qed.

Lemma joinpath_relative root s :
  leading_separator s = false -> joinpath root s = root ++ parts_of s.
Proof.
  unfold joinpath, leading_separator. destruct s as [|c s]; intros H.
  - cbn. now rewrite app_nil_r.
  - now rewrite H.
Qed.

Lemma apply_loop_confined root : forall changes st f r f',
  clean root -> rooted root f -> Forall stays_inside changes ->
  apply_loop root changes st f = (r, f') -> confined root f f'.
Proof.
  induction changes as [|c more IH]; intros st f r f' Hc Hr Hall H.
  - inversion H; subst. apply confined_refl.
  - inversion Hall as [|? ? [Hrel Hin] Hmore]; subst.
    cbn [apply_loop] in H. rewrite (joinpath_relative root _ Hrel) in H.
    unfold escapes_root in Hin. destruct (c_action c).
    + unfold Fs.bind in H.
      destruct (mkdir_parents _ f) as [r1 f1] eqn:Hm.
      pose proof (mkdir_parents_confined _ _ _ _ _ Hc Hr Hin Hm) as C1.
      destruct r1 as [err|[]]; [inversion H; now subst|].
      destruct (write_text _ _ f1) as [r2 f2] eqn:Hw.
      pose proof (write_text_confined _ _ _ _ _ _ Hc Hin Hw) as C2.
      pose proof (confined_trans _ _ _ _ C1 C2) as C12.
      destruct r2 as [err|[]]; [inversion H; now subst|].
      apply (confined_trans _ _ _ _ C12).
      apply (IH _ _ _ _ Hc (rooted_confined _ _ _ Hr C12) Hmore H).
    + unfold Fs.bind in H.
      destruct (exists_inr (root ++ parts_of (c_path c)) f) as [b Hb].
      rewrite Hb in H. destruct b; [|now apply (IH _ _ _ _ Hc Hr Hmore H)].
      destruct (unlink _ f) as [r1 f1] eqn:Hu.
      pose proof (unlink_confined _ _ _ _ _ Hc Hin Hu) as C1.
      destruct r1 as [err|[]]; [inversion H; now subst|].
      apply (confined_trans _ _ _ _ C1).
      apply (IH _ _ _ _ Hc (rooted_confined _ _ _ Hr C1) Hmore H).
Qed.

Lemma copy_one_confined src root e f r f' :
  clean root -> rooted root f ->
  (exists rel, e = src ++ rel /\ rel <> [] /\ clean rel) ->
  copy_one src root e f = (r, f') -> confined root f f'.
Proof.
  intros Hc Hr (rel & -> & Hne & Hrel) H. unfold copy_one, Fs.bind in H.
  destruct (is_dir_inr (src ++ rel) f) as [d Hd]. rewrite Hd in H.
  destruct (d || ignored (src ++ rel)); [inversion H; subst; apply confined_refl|].
  unfold relative_to in H. rewrite strip_prefix_app in H. unfold ret at 1 in H.
  destruct (under_convex rel); [inversion H; subst; apply confined_refl|].
  pose proof (clean_climbs_out rel 0 Hrel) as Hin.
  destruct (mkdir_parents _ f) as [r1 f1] eqn:Hm.
  pose proof (mkdir_parents_confined _ _ _ _ _ Hc Hr Hin Hm) as C1.
  destruct r1 as [err|[]]; [inversion H; now subst|].
  destruct (copy2 _ _ f1) as [r2 f2] eqn:Hcp.
  assert (C2 : confined root f1 f2).
  { apply copy2_cases in Hcp.
    destruct Hcp as [[-> _]|[_ (dst' & l & d0 & Hdst & _ & Hl & Hn & ->)]];
      [apply confined_refl|].
    apply update_confined; auto.
    rewrite (resolve_locate _ _ _ Hl).
    destruct Hdst as [[_ ->]|[_ ->]].
    - now apply locate_inside.
    - rewrite <- app_assoc. apply locate_inside; auto.
      apply clean_climbs_out. apply clean_app; auto.
      rewrite name_app by exact Hne. now apply clean_last. }
  pose proof (confined_trans _ _ _ _ C1 C2) as C12.
  destruct r2 as [err|[]]; inversion H; now subst.
Qed.

Lemma copy_loop_confined src root : forall listing st f r f',
  clean root -> rooted root f -> listed_below src listing ->
  copy_loop src root listing st f = (r, f') -> confined root f f'.
Proof.
  induction listing as [|e more IH]; intros st f r f' Hc Hr Hl H.
  - inversion H; subst. apply confined_refl.
  - inversion Hl as [|? ? He Hmore]; subst.
    rewrite copy_loop_cons in H.
    destruct (copy_one src root e f) as [r1 f1] eqn:H1.
    pose proof (copy_one_confined _ _ _ _ _ _ Hc Hr He H1) as C1.
    destruct r1 as [err|b]; [inversion H; now subst|].
    apply (confined_trans _ _ _ _ C1).
    apply (IH _ _ _ _ Hc (rooted_confined _ _ _ Hr C1) Hmore H).
Qed.

(** X17.  On a tree without symbolic links, as the trees of [Fs] are:
    when the target root is an existing directory and no path of the plan
    is absolute or climbs out of it, the apply step changes nothing
    outside the target root, whether it completes or stops on an error,
    and it never removes or replaces a directory.  (A symbolic link inside
    the target would be followed by [mkdir], [write_text], [unlink] and
    [copy2], and could lead outside; such trees are not covered.) *)
Theorem apply_confined_to_target
        (source_root target_root : path) (listing : list path)
        (all_changes : list change) (dry_run : bool)
        (f f' : fs) (r : exn + stats) :
  clean target_root -> fst (is_dir target_root f) = inr true ->
  listed_below source_root listing ->
  Forall stays_inside all_changes ->
  step_apply_changes source_root target_root listing all_changes dry_run f
  = (r, f') ->
  (forall l, ~ under target_root l -> f' l = f l) /\
  (forall l, f l = Some Dir -> f' l = Some Dir).
Proof.
  intros Hc Hd Hl Hall H.
  pose proof (rooted_start _ _ Hc Hd) as Hr.
  unfold step_apply_changes in H. destruct dry_run.
  - inversion H; subst. apply confined_refl.
  - unfold Fs.bind in H.
    destruct (copy_loop _ _ _ _ f) as [r1 f1] eqn:H1.
    pose proof (copy_loop_confined _ _ _ _ _ _ _ Hc Hr Hl H1) as C1.
    destruct r1 as [err|st1]; [inversion H; now subst|].
    apply (confined_trans _ _ _ _ C1).
    apply (apply_loop_confined _ _ _ _ _ _ Hc (rooted_confined _ _ _ Hr C1) Hall H).
Qed.

Lemma apply_confined_to_target_witness :
  let f' := snd (step_apply_changes Sample.source_root Sample.target_root
                   Sample.listing Sample.plan false Sample.disk) in
  Forall stays_inside Sample.plan /\
  (forall l, ~ under Sample.target_root l -> f' l = Sample.disk l) /\
  (forall l, Sample.disk l = Some Dir -> f' l = Some Dir).
Proof.
  cbv zeta.
  assert (Hall : Forall stays_inside Sample.plan)
    by (repeat constructor; vm_compute; reflexivity).
  split; [exact Hall|].
  apply (apply_confined_to_target Sample.source_root Sample.target_root
           Sample.listing Sample.plan false Sample.disk _
           (fst (step_apply_changes Sample.source_root Sample.target_root
                   Sample.listing Sample.plan false Sample.disk))).
  - apply cleanb_ok. vm_compute. reflexivity.
  - vm_compute. reflexivity.
  - apply listed_belowb_ok. vm_compute. reflexivity.
  - exact Hall.
  - apply surjective_pairing.
Defined.

End SafetyFacts.
(* ------------------------------------------------------------------ *)
(** ** More on the apply step *)

Module ApplierMore.
Import OsFacts ApplierFacts SafetyFacts.

Lemma apply_loop_counts tgt : forall changes st f st' f',
  apply_loop tgt changes st f = (inr st', f') ->
  copied st' = copied st /\
  written st' = written st + length (filter (is_action write) changes) /\
  deleted st' + skipped st'
  = deleted st + skipped st + length (filter (is_action delete) changes).
Proof.
  induction changes as [|c more IH]; intros st f st' f' H.
  - inversion H; subst. cbn. lia.
  - cbn [apply_loop] in H. cbn [filter].
    replace (is_action write c)
      with (match c_action c with write => true | delete => false end)
      by (unfold is_action; now destruct (c_action c)).
    replace (is_action delete c)
      with (match c_action c with write => false | delete => true end)
      by (unfold is_action; now destruct (c_action c)).
    destruct (c_action c); unfold Fs.bind in H.
    + destruct (mkdir_parents _ f) as [[err|[]] f1]; [discriminate|].
      destruct (write_text _ _ f1) as [[err|[]] f2]; [discriminate|].
      apply IH in H. cbn [length inc_written copied written deleted skipped] in *. lia.
    + destruct (exists_ _ f) as [[err|[|]] f1]; [discriminate| |].
      * destruct (unlink _ f1) as [[err|[]] f2]; [discriminate|].
        apply IH in H. cbn [length inc_deleted copied written deleted skipped] in *. lia.
      * apply IH in H. cbn [length inc_skipped copied written deleted skipped] in *. lia.
Qed.

Lemma copy_loop_copied src tgt : forall listing st f st' f',
  copy_loop src tgt listing st f = (inr st', f') ->
  copied st <= copied st' <= copied st + length listing.
Proof.
  induction listing as [|e more IH]; intros st f st' f' H.
  - inversion H; subst. cbn. lia.
  - rewrite copy_loop_cons in H.
    destruct (copy_one src tgt e f) as [[err|b] f1]; [discriminate|].
    apply IH in H. destruct b; cbn [length inc_copied copied] in *; lia.
Qed.

(** X18.  When a live run completes, every write of the plan was
    counted as written and every delete either as deleted or as skipped;
    at most one copy is counted per listed path.  The dry run reports
    the same number of writes, and as deleted what the live run splits
    between deleted and skipped. *)
Theorem live_run_accounts_for_plan
        (source_root target_root : path) (listing : list path)
        (all_changes : list change) (f f' : fs) (st : stats) :
  step_apply_changes source_root target_root listing all_changes false f
  = (inr st, f') ->
  let dry := fst (step_apply_changes source_root target_root listing
                    all_changes true f) in
  written st = length (filter (is_action write) all_changes) /\
  deleted st + skipped st = length (filter (is_action delete) all_changes) /\
  copied st <= length listing /\
  dry = inr (Stats 0 (written st) (deleted st + skipped st) 0).
Proof.
  intros H. cbv zeta. unfold step_apply_changes in *. unfold Fs.bind in H.
  destruct (copy_loop _ _ _ _ f) as [[err|st1] f1] eqn:H1; [discriminate|].
  destruct (copy_loop_written _ _ _ _ _ _ _ H1) as (Hw & Hd & Hs).
  pose proof (copy_loop_copied _ _ _ _ _ _ _ H1) as Hc.
  destruct (apply_loop_counts _ _ _ _ _ _ H) as (Hc2 & Hw2 & Hd2).
  cbn [copied written deleted skipped] in *.
  assert (E1 : written st = length (filter (is_action write) all_changes)) by lia.
  assert (E2 : deleted st + skipped st
               = length (filter (is_action delete) all_changes)) by lia.
  repeat split; try lia. cbn [fst ret]. unfold ret. cbn [fst].
  now rewrite E1, E2.
Qed.

Lemma live_run_accounts_for_plan_witness :
  exists st f',
    step_apply_changes Sample.source_root Sample.target_root Sample.listing
                       Sample.plan false Sample.disk = (inr st, f') /\
    written st = 2 /\ deleted st = 1 /\ skipped st = 1 /\
    fst (step_apply_changes Sample.source_root Sample.target_root Sample.listing
                            Sample.plan true Sample.disk)
    = inr (Stats 0 2 2 0).
Proof.
  pose (run := step_apply_changes Sample.source_root Sample.target_root
                 Sample.listing Sample.plan false Sample.disk).
  assert (Ef : fst run = inr (Stats 2 2 1 1)) by (vm_compute; reflexivity).
  assert (E : run = (inr (Stats 2 2 1 1), snd run)).
  { rewrite <- Ef. apply surjective_pairing. }
  exists (Stats 2 2 1 1), (snd run). split; [exact E|].
  pose proof (live_run_accounts_for_plan _ _ _ _ _ _ _ E) as H.
  cbv zeta in H. destruct H as (_ & _ & _ & H).
  split; [reflexivity|]. split; [reflexivity|]. split; [reflexivity|]. exact H.
Defined.

(** *** The last write to a place *)

Lemma resolve_dirs_kept f f' :
  (forall l, f l = Some Dir -> f' l = Some Dir) ->
  forall p cur l, resolve f cur p = inr l -> resolve f' cur p = inr l.
Proof.
  intros Hk. induction p as [|seg p IH]; intros cur l H; cbn [resolve] in *; auto.
  destruct (node_at f cur) as [[d|]|] eqn:En; try discriminate.
  assert (En' : node_at f' cur = Some Dir).
  { destruct cur; [reflexivity|]. cbn [node_at] in *. auto. }
  rewrite En'. now apply IH.
Qed.

(** A file stays as it is while no operation points at it; directories
    stay in any case. *)
Lemma apply_loop_keeps tgt L d : forall changes st f r f',
  (forall c, In c changes -> locate (joinpath tgt (c_path c)) <> L) ->
  apply_loop tgt changes st f = (r, f') ->
  (f L = Some (File d) -> f' L = Some (File d)) /\
  (forall l, f l = Some Dir -> f' l = Some Dir).
Proof.
  induction changes as [|c more IH]; intros st f r f' Hno H.
  - inversion H; subst. auto.
  - assert (Hmore : forall c', In c' more ->
                               locate (joinpath tgt (c_path c')) <> L).
    { intros c' Hin. apply Hno. now right. }
    assert (Hc : locate (joinpath tgt (c_path c)) <> L) by (apply Hno; now left).
    assert (Hupd : forall g l n, resolve g [] (joinpath tgt (c_path c)) = inr l ->
                     node_at g l <> Some Dir ->
                     (g L = Some (File d) -> update g l n L = Some (File d)) /\
                     (forall l0, g l0 = Some Dir -> update g l n l0 = Some Dir)).
    { intros g l n Hl Hn. rewrite (resolve_locate _ _ _ Hl) in *.
      split; [intros HL|intros l0 H0]; unfold update;
        destruct (path_eq_dec _ _) as [E|]; auto; [contradiction|].
      exfalso. apply Hn. rewrite E. destruct l0; [reflexivity|exact H0]. }
    cbn [apply_loop] in H. destruct (c_action c); unfold Fs.bind in H.
    + destruct (mkdir_parents _ f) as [r1 f1] eqn:Hm. unfold mkdir_parents in Hm.
      assert (K1 : (f L = Some (File d) -> f1 L = Some (File d)) /\
                   (forall l, f l = Some Dir -> f1 l = Some Dir)).
      { split; [intros HL; destruct (mkdirs_grows _ _ _ _ _ Hm L) as [E|[E _]]
                 |intros l HL; destruct (mkdirs_grows _ _ _ _ _ Hm l) as [E|[E _]]];
          congruence. }
      destruct r1 as [err|[]]; [inversion H; now subst|].
      destruct (write_text _ _ f1) as [r2 f2] eqn:Hw.
      apply write_text_cases in Hw.
      assert (K2 : (f1 L = Some (File d) -> f2 L = Some (File d)) /\
                   (forall l, f1 l = Some Dir -> f2 l = Some Dir)).
      { destruct Hw as [[-> _]|[_ (l & Hl & Hn & ->)]]; auto. }
      destruct r2 as [err|[]];
        [inversion H; subst; split; [tauto|intros; apply K2, K1; auto]|].
      destruct (IH _ _ _ _ Hmore H) as [K3 K4].
      split; [tauto|intros; apply K4, K2, K1; auto].
    + destruct (exists_inr (joinpath tgt (c_path c)) f) as [b Hb].
      rewrite Hb in H. destruct b; [|now apply (IH _ _ _ _ Hmore H)].
      destruct (unlink _ f) as [r1 f1] eqn:Hu. apply unlink_at in Hu.
      assert (K1 : (f L = Some (File d) -> f1 L = Some (File d)) /\
                   (forall l, f l = Some Dir -> f1 l = Some Dir)).
      { destruct Hu as [->|(l & d0 & Hl & Hn & ->)]; auto.
        apply Hupd; auto. congruence. }
      destruct r1 as [err|[]]; [inversion H; now subst|].
      destruct (IH _ _ _ _ Hmore H) as [K3 K4].
      split; [tauto|intros; apply K4, K1; auto].
Qed.

(** X19.  After a run of the apply loop that completes, the file at
    the destination of a write holds the content of that write, provided
    no later operation of the plan points at the same place: among
    several writes to one place the last one wins. *)
Theorem last_write_wins
        (target_root : path) (a b : list change) (p v : pystr)
        (st st' : stats) (f f' : fs) :
  apply_loop target_root (a ++ Change write p v :: b) st f = (inr st', f') ->
  (forall c, In c b ->
     locate (joinpath target_root (c_path c)) <> locate (joinpath target_root p)) ->
  read (joinpath target_root p) f' = (inr v, f').
Proof.
  intros H Hno. rewrite apply_loop_app in H.
  destruct (apply_loop target_root a st f) as [[err|st1] f1]; [discriminate|].
  cbn [apply_loop c_action c_path c_content] in H. unfold Fs.bind in H.
  destruct (mkdir_parents _ f1) as [[err|[]] f2]; [discriminate|].
  destruct (write_text _ _ f2) as [[err|[]] f3] eqn:Hw; [discriminate|].
  apply write_text_inr in Hw. destruct Hw as (l & Hl & Hn & ->).
  pose proof (resolve_update _ l (Some (File v)) _ _ _ Hn Hl) as Hl3.
  pose proof (resolve_locate _ _ _ Hl) as El.
  assert (Hne : l <> []) by (intros ->; now apply Hn).
  assert (HL : update f2 l (Some (File v)) l = Some (File v)).
  { unfold update. now destruct (path_eq_dec l l). }
  rewrite <- El in Hno.
  destruct (apply_loop_keeps target_root l v _ _ _ _ _ Hno H) as [K1 K2].
  unfold read. rewrite (resolve_dirs_kept _ _ K2 _ _ _ Hl3).
  destruct l as [|s l]; [congruence|]. cbn [node_at]. now rewrite (K1 HL).
Qed.

Lemma last_write_wins_witness :
  let run := apply_loop Sample.target_root
               ([Change write (lit "supabase/config.ts") (lit "v1")]
                ++ Change write (lit "supabase/config.ts") (lit "v2")
                   :: [Change delete (lit "App.tsx") []])
               (Stats 0 0 0 0) Sample.disk in
  exists st, fst run = inr st /\
  read (joinpath Sample.target_root (lit "supabase/config.ts")) (snd run)
  = (inr (lit "v2"), snd run).
Proof.
  cbv zeta.
  set (run := apply_loop _ _ _ _).
  assert (Ef : fst run = inr (Stats 0 2 0 1)) by (vm_compute; reflexivity).
  assert (E : run = (inr (Stats 0 2 0 1), snd run)).
  { rewrite <- Ef. apply surjective_pairing. }
  exists (Stats 0 2 0 1). split; [now rewrite E|].
  apply (last_write_wins Sample.target_root _ _ _ _ _ _ _ _ E).
  intros c [<-|[]]. vm_compute. discriminate.
Defined.

(** *** From the response to the file *)

(** X20.  A response that holds one write-marker and no other [<],
    once parsed and applied, leaves at the marker's path (leading slashes
    dropped) a file that holds the marker's body without the white space
    around it; one write is counted. *)
Theorem marker_body_reaches_file
        (target_root : path) (pre post ws p body : pystr)
        (st st' : stats) (f f' : fs) :
  no_langle pre -> no_langle post ->
  ws <> [] -> blank ws -> path_text p -> no_langle p -> no_langle body ->
  apply_loop target_root
             (parse_file_blocks (pre ++ write_marker ws p body ++ post)) st f
  = (inr st', f') ->
  read (joinpath target_root (lstrip_slash p)) f' = (inr (strip body), f') /\
  st' = inc_written st.
Proof.
  intros Hpre Hpost Hne Hws Hp Hpl Hb.
  rewrite (ParserFacts.parse_single_write pre post ws p body Hpre Hpost Hne Hws Hp Hpl Hb).
  cbn [apply_loop c_action c_path c_content]. intros H.
  apply bind_inr in H. destruct H as ([] & f1 & _ & H).
  apply bind_inr in H. destruct H as ([] & f2 & Hw & H).
  inversion H; subst. split; [|reflexivity].
  exact (write_then_read _ _ _ _ Hw).
Qed.

Lemma marker_body_reaches_file_witness :
  let response := lit "Here it is: "
                  ++ write_marker (lit " ") (lit "/src/a.ts") (lit "  let x = 1  ")
                  ++ lit " Done." in
  let run := apply_loop Sample.target_root (parse_file_blocks response)
                        (Stats 0 0 0 0) Sample.disk in
  fst run = inr (Stats 0 1 0 0) /\
  read (Sample.pth "/work/out/src/a.ts") (snd run) = (inr (lit "let x = 1"), snd run).
Proof.
  cbv zeta.
  set (run := apply_loop _ _ _ _).
  assert (Ef : fst run = inr (Stats 0 1 0 0)) by (vm_compute; reflexivity).
  split; [exact Ef|].
  assert (E : run = (inr (Stats 0 1 0 0), snd run)).
  { rewrite <- Ef. apply surjective_pairing. }
  assert (Hpath : path_text (lit "/src/a.ts")) by (split; [discriminate|reflexivity]).
  assert (Hws : lit " " <> []) by discriminate.
  exact (proj1 (marker_body_reaches_file Sample.target_root (lit "Here it is: ")
           (lit " Done.") (lit " ") (lit "/src/a.ts") (lit "  let x = 1  ")
           (Stats 0 0 0 0) (Stats 0 1 0 0) Sample.disk (snd run)
           eq_refl eq_refl Hws eq_refl Hpath eq_refl eq_refl E)).
Defined.

(** *** Paths that lead nowhere below the root *)

Lemma mkdirs_existing f : forall p cur x l,
  resolve f cur (p ++ [x]) = inr l -> mkdirs cur p f = (inr tt, f).
Proof.
  induction p as [|seg p IH]; intros cur x l H; [reflexivity|].
  cbn [app resolve] in H. cbn [mkdirs].
  destruct (node_at f cur) as [[d|]|]; try discriminate.
  destruct (pystr_eq_dec seg dotdot); [now apply (IH _ x l)|].
  assert (Hn : node_at f (cur ++ [seg]) = Some Dir).
  { destruct p as [|s p]; cbn [app resolve] in H;
      destruct (node_at f (cur ++ [seg])) as [[d|]|]; try discriminate; reflexivity. }
  rewrite Hn. now apply (IH _ x l).
Qed.

Lemma mkdir_parent_of_directory p f :
  fst (is_dir p f) = inr true -> mkdir_parents (parent p) f = (inr tt, f).
Proof.
  unfold is_dir. intros H.
  destruct (resolve f [] p) as [e|l] eqn:Hr; [discriminate|].
  unfold mkdir_parents, parent.
  destruct p as [|s p]; [reflexivity|].
  rewrite (app_removelast_last [] (l := s :: p)) in Hr by discriminate.
  exact (mkdirs_existing f _ [] _ l Hr).
Qed.

(** X21.  An operation whose path has no component (the empty path,
    [.], or what is left of a path made of slashes) points at the target
    root itself: when that is a directory, a write or a delete there
    raises [IsADirectoryError] and the rest of the plan is not applied. *)
Theorem root_path_raises
        (target_root : path) (c : change) (more : list change)
        (st : stats) (f : fs) :
  parts_of (c_path c) = [] -> leading_separator (c_path c) = false ->
  fst (is_dir target_root f) = inr true ->
  apply_loop target_root (c :: more) st f = (inl IsADirectoryError, f).
Proof.
  intros Hp Hl Hd. cbn [apply_loop].
  rewrite (joinpath_relative _ _ Hl), Hp, app_nil_r.
  pose proof (mkdir_parent_of_directory _ _ Hd) as Hm.
  unfold is_dir in Hd.
  destruct (resolve f [] target_root) as [e|l] eqn:Hr; [discriminate|].
  destruct (node_at f l) as [[d|]|] eqn:Hn; try discriminate.
  destruct (c_action c); unfold Fs.bind.
  - rewrite Hm. unfold write_text. now rewrite Hr, Hn.
  - unfold exists_. rewrite Hr, Hn. unfold unlink. now rewrite Hr, Hn.
Qed.

Lemma root_path_raises_witness :
  parse_file_blocks (delete_marker (lit " ") (lit "/") (lit " "))
  = [Change delete [] []] /\
  apply_loop Sample.target_root
             (Change delete [] [] :: [Change write (lit "a.ts") (lit "x")])
             (Stats 0 0 0 0) Sample.disk
  = (inl IsADirectoryError, Sample.disk).
Proof.
  split; [vm_compute; reflexivity|].
  apply (root_path_raises Sample.target_root (Change delete [] [])).
  - reflexivity.
  - reflexivity.
  - vm_compute. reflexivity.
Defined.

(** *** A source root below an ignored directory *)

Lemma ignored_below (src rel : path) :
  existsb (fun part => mem part IGNORE_DIRS) src = true -> ignored (src ++ rel) = true.
Proof.
  intros H. unfold ignored. rewrite existsb_app.
  apply orb_true_iff. left. apply orb_true_iff. left. exact H.
Qed.

(** X22.  The directory test looks at every component of the path,
    those of the source root too: when the source root itself lies in or
    below a directory with an ignored name, no file is enumerated and the
    copy step copies nothing. *)
Theorem ignored_root_hides_everything
        (source_root target_root : path) (listing : list path)
        (st : stats) (f : fs) :
  existsb (fun part => mem part IGNORE_DIRS) source_root = true ->
  Forall (fun e => exists rel, e = source_root ++ rel) listing ->
  iter_source_files listing f = [] /\
  copy_loop source_root target_root listing st f = (inr st, f).
Proof.
  intros Hi Hl. induction listing as [|e more IH].
  - split; reflexivity.
  - inversion Hl as [|? ? [rel ->] Hmore]; subst.
    destruct (IH Hmore) as [IH1 IH2].
    pose proof (ignored_below source_root rel Hi) as Hig. split.
    + unfold iter_source_files in *. cbn [filter]. unfold enumerated at 1.
      rewrite Hig, andb_false_r. exact IH1.
    + cbn [copy_loop]. unfold Fs.bind.
      destruct (is_dir_inr (source_root ++ rel) f) as [d ->].
      rewrite Hig, orb_true_r. exact IH2.
Qed.

Lemma ignored_root_hides_everything_witness :
  let root := Sample.pth "/work/build/app" in
  let listing := [Sample.pth "/work/build/app/App.tsx";
                  Sample.pth "/work/build/app/package.json"] in
  let f := Sample.tree [ (Sample.pth "/work", Dir); (Sample.pth "/work/build", Dir);
                         (Sample.pth "/work/build/app", Dir);
                         (Sample.pth "/work/build/app/App.tsx", File (lit "x"));
                         (Sample.pth "/work/build/app/package.json", File (lit "{}")) ] in
  iter_source_files listing f = [] /\
  copy_loop root Sample.target_root listing (Stats 0 0 0 0) f = (inr (Stats 0 0 0 0), f).
Proof.
  cbv zeta. apply ignored_root_hides_everything.
  - vm_compute. reflexivity.
  - repeat constructor.
    + exists [lit "App.tsx"]. vm_compute. reflexivity.
    + exists [lit "package.json"]. vm_compute. reflexivity.
Defined.

End ApplierMore.
(* ------------------------------------------------------------------ *)
(** ** The migration step *)

Module MigrationFacts.
Import OsFacts ApplierFacts ReaderFacts BatchFacts.

Lemma files_content_total pf (src : path) f : forall file_batch,
  Forall (fun e => exists rel, e = src ++ rel) file_batch ->
  exists files, files_content pf src file_batch f = (inr files, f).
Proof.
  induction file_batch as [|e more IH]; intros H; [now exists []|].
  inversion H as [|? ? [rel ->] Hmore]; subst.
  destruct (IH Hmore) as [rest Er].
  cbn [files_content]. unfold Fs.bind, relative_to.
  rewrite strip_prefix_app. unfold ret at 1.
  destruct (read_file_safe_inr pf (src ++ rel) default_max_bytes f) as [text ->].
  rewrite Er. unfold ret. eauto.
Qed.

Lemma in_firstn_skipn {A} (x : A) n k (l : list A) :
  In x (firstn n (skipn k l)) -> In x l.
Proof.
  intros H. rewrite <- (firstn_skipn k l). apply in_or_app. right.
  rewrite <- (firstn_skipn n (skipn k l)). apply in_or_app. now left.
Qed.

(** Every batch is made of items of the list. *)
Lemma batch_members {A} (P : A -> Prop) (items : list A) (size : Z) bs :
  (0 < size)%Z -> batch items size = inr bs ->
  Forall P items -> Forall (Forall P) bs.
Proof.
  intros Hs E Hall. rewrite (batch_cuts items size Hs) in E. inversion E; subst.
  apply Forall_forall. intros b Hb. apply in_map_iff in Hb.
  destruct Hb as (k & <- & _). apply Forall_forall. intros x Hx.
  rewrite Forall_forall in Hall. apply Hall. now apply in_firstn_skipn in Hx.
Qed.

Lemma call_answered (svc : service) w text :
  svc (issued w) = Completed text ->
  call_cursor_api svc default_retries w = (Returned text, post w).
Proof.
  intros H. unfold call_cursor_api.
  change (range default_retries) with [0%Z; 1%Z; 2%Z]. cbn [attempts]. now rewrite H.
Qed.

Lemma call_rate_limited (svc : service) w :
  (forall n, svc n = HttpError 429) ->
  call_cursor_api svc default_retries w
  = (Returned [],
     World (issued w + 3)
           (trace w ++ [Post; Sleep 10; Post; Sleep 20; Post; Sleep 30])).
Proof.
  intros H. unfold call_cursor_api.
  change (range default_retries) with [0%Z; 1%Z; 2%Z]. cbn [attempts].
  rewrite !H. cbn [Z.eqb Pos.eqb]. unfold sleep, post. cbn [issued trace].
  repeat rewrite <- app_assoc. cbn [app].
  f_equal. apply f_equal2; [lia|reflexivity].
Qed.

Section Batches.

Variables (svc : prompted_service) (pf : platform) (SYSTEM_PROMPT : pystr)
          (source_root : path) (context_summary : pystr) (f : fs).

Lemma migrate_batches_answered : forall file_batches acc w,
  Forall (Forall (fun e => exists rel, e = source_root ++ rel)) file_batches ->
  (forall n s u, exists text, svc n s u = Completed text) ->
  exists changes,
    migrate_batches svc pf SYSTEM_PROMPT source_root context_summary
                    file_batches acc f w
    = (inr (acc ++ changes),
       World (issued w + length file_batches)
             (trace w ++ concat (repeat answered_round (length file_batches)))).
Proof.
  induction file_batches as [|b more IH]; intros acc w Hall Hsvc.
  - exists []. cbn. rewrite !app_nil_r, Nat.add_0_r. now destruct w.
  - inversion Hall as [|? ? Hb Hmore]; subst. cbn [migrate_batches].
    destruct (files_content_total pf source_root f b Hb) as [files ->]. cbn [fst].
    destruct (Hsvc (issued w) SYSTEM_PROMPT (migrate_prompt context_summary files))
      as [text Ht].
    rewrite (call_answered _ w text Ht).
    destruct (IH (acc ++ parse_file_blocks text)
                 (sleep REQUEST_DELAY_SECONDS (post w)) Hmore Hsvc)
      as [changes ->].
    exists (parse_file_blocks text ++ changes). rewrite app_assoc.
    f_equal. cbn [sleep post issued trace length repeat concat].
    f_equal; [lia|]. unfold answered_round.
    repeat rewrite <- app_assoc. reflexivity.
Qed.

Lemma migrate_batches_rate_limited : forall file_batches acc w,
  Forall (Forall (fun e => exists rel, e = source_root ++ rel)) file_batches ->
  (forall n s u, svc n s u = HttpError 429) ->
  migrate_batches svc pf SYSTEM_PROMPT source_root context_summary
                  file_batches acc f w
  = (inr acc,
     World (issued w + 3 * length file_batches)
           (trace w ++ concat (repeat rate_limited_round (length file_batches)))).
Proof.
  induction file_batches as [|b more IH]; intros acc w Hall Hsvc.
  - cbn. rewrite !app_nil_r, Nat.add_0_r. now destruct w.
  - inversion Hall as [|? ? Hb Hmore]; subst. cbn [migrate_batches].
    destruct (files_content_total pf source_root f b Hb) as [files ->]. cbn [fst].
    rewrite call_rate_limited by (intros n; apply Hsvc).
    change (parse_file_blocks []) with (@nil change). rewrite app_nil_r.
    rewrite (IH acc _ Hmore Hsvc).
    f_equal. cbn [sleep issued trace length repeat concat].
    f_equal; [lia|]. unfold rate_limited_round.
    repeat rewrite <- app_assoc. reflexivity.
Qed.

(** The batches before the [k]-th are answered and then every request is
    refused. *)
Lemma migrate_batches_refused code : forall k file_batches acc w,
  Forall (Forall (fun e => exists rel, e = source_root ++ rel)) file_batches ->
  k < length file_batches -> code <> 429%Z ->
  (forall j s u, j < k -> exists text, svc (issued w + j) s u = Completed text) ->
  (forall j s u, k <= j -> svc (issued w + j) s u = HttpError code) ->
  exists w',
    migrate_batches svc pf SYSTEM_PROMPT source_root context_summary
                    file_batches acc f w
    = (inl (ApiError (RuntimeError 3 (HTTPError code))), w') /\
    issued w' = issued w + k + 3.
Proof.
  induction k as [|k IH]; intros file_batches acc w Hall Hk Hc Hok Hbad;
    (destruct file_batches as [|b more]; [cbn in Hk; lia|]);
    inversion Hall as [|? ? Hb Hmore]; subst; cbn [migrate_batches];
    destruct (files_content_total pf source_root f b Hb) as [files ->]; cbn [fst].
  - set (prompt := migrate_prompt context_summary files).
    assert (Hall429 : forall n, (fun n => svc n SYSTEM_PROMPT prompt) (issued w + n)
                                = HttpError code)
      by (intros n; apply Hbad; lia).
    assert (Hcall : forall n, svc (issued w + n) SYSTEM_PROMPT prompt = HttpError code)
      by exact Hall429.
    unfold call_cursor_api.
    change (range default_retries) with [0%Z; 1%Z; 2%Z]. cbn [attempts].
    apply Z.eqb_neq in Hc.
    pose proof (Hcall 0) as H0. rewrite Nat.add_0_r in H0. rewrite H0, Hc.
    change (0 <? default_retries - 1)%Z with true. cbv iota.
    cbn [sleep post issued].
    replace (S (issued w)) with (issued w + 1) by lia. rewrite (Hcall 1), Hc.
    change (1 <? default_retries - 1)%Z with true. cbv iota.
    cbn [sleep post issued].
    replace (S (issued w + 1)) with (issued w + 2) by lia. rewrite (Hcall 2), Hc.
    change (2 <? default_retries - 1)%Z with false. cbv iota.
    eexists. split; [reflexivity|]. cbn [sleep post issued]. lia.
  - destruct (Hok 0 SYSTEM_PROMPT (migrate_prompt context_summary files) ltac:(lia))
      as [text Ht].
    rewrite Nat.add_0_r in Ht. rewrite (call_answered _ w text Ht).
    destruct (IH more (acc ++ parse_file_blocks text)
                 (sleep REQUEST_DELAY_SECONDS (post w)) Hmore) as (w' & -> & Hi).
    + cbn [length] in Hk. lia.
    + exact Hc.
    + intros j s u Hj. cbn [sleep post issued].
      replace (S (issued w) + j) with (issued w + S j) by lia. apply Hok. lia.
    + intros j s u Hj. cbn [sleep post issued].
      replace (S (issued w) + j) with (issued w + S j) by lia. apply Hbad. lia.
    + exists w'. split; [reflexivity|]. cbn [sleep post issued] in Hi. lia.
Qed.

End Batches.

Lemma batches_of_five (P : path -> Prop) (files : list path) :
  Forall P files ->
  exists bs, batch files 5 = inr bs /\ Forall (Forall P) bs /\
             (Z.of_nat (length files) <= Z.of_nat (length bs) * 5
              < Z.of_nat (length files) + 5)%Z.
Proof.
  intros H. assert (H5 : (0 < 5)%Z) by lia.
  pose proof (batch_cuts files 5 H5) as E.
  eexists. split; [exact E|]. split.
  - exact (batch_members P files 5 _ H5 E H).
  - rewrite length_map, length_seq.
    destruct (count_bounds (Z.of_nat (length files)) 5 ltac:(lia) H5) as [Hm Hb].
    lia.
Qed.

(** X23.  When every request is answered at once, the migration step
    makes one request per batch of five files and sleeps one second after
    each: as many requests as it takes batches of five to hold the files.
    It returns without raising. *)
Theorem migration_one_request_per_batch
        (svc : prompted_service) (pf : platform) (SYSTEM_PROMPT : pystr)
        (source_root : path) (convex_using : list path)
        (context_summary : pystr) (f : fs) (w : world) :
  Forall (fun e => exists rel, e = source_root ++ rel) convex_using ->
  (forall n s u, exists text, svc n s u = Completed text) ->
  exists changes m,
    step_migrate_files svc pf SYSTEM_PROMPT source_root convex_using
                       context_summary f w
    = (inr changes,
       World (issued w + m) (trace w ++ concat (repeat answered_round m))) /\
    (Z.of_nat (length convex_using) <= Z.of_nat m * 5
     < Z.of_nat (length convex_using) + 5)%Z.
Proof.
  intros Hfiles Hsvc.
  destruct (batches_of_five _ convex_using Hfiles) as (bs & E & Hbs & Hm).
  destruct (migrate_batches_answered svc pf SYSTEM_PROMPT source_root
              context_summary f bs [] w Hbs Hsvc) as [changes Hrun].
  exists changes, (length bs). split; [|exact Hm].
  unfold step_migrate_files. rewrite E. exact Hrun.
Qed.

Lemma migration_one_request_per_batch_witness :
  let files := map (fun k => Sample.source_root ++ [lit "src"; decimal (N.of_nat k)])
                   (seq 0 12) in
  exists changes,
    step_migrate_files (fun _ _ _ => Completed (lit "nothing to do")) posix []
                       Sample.source_root files [] project fresh
    = (inr changes, World 3 (concat (repeat answered_round 3))).
Proof.
  cbv zeta.
  destruct (migration_one_request_per_batch
              (fun _ _ _ => Completed (lit "nothing to do")) posix []
              Sample.source_root
              (map (fun k => Sample.source_root ++ [lit "src"; decimal (N.of_nat k)])
                   (seq 0 12))
              [] project fresh) as (changes & m & Hrun & Hm).
  - apply Forall_forall. intros e He. apply in_map_iff in He.
    destruct He as (k & <- & _). eauto.
  - intros n s u. eauto.
  - exists changes. rewrite Hrun.
    assert (Em : m = 3) by (rewrite length_map, length_seq in Hm; lia).
    subst m. reflexivity.
Defined.

(** X24.  When every request is rate limited, the migration step does
    not raise: each batch uses up its three attempts and their waits, and
    the step returns an empty list of changes. *)
Theorem rate_limited_migration_returns_nothing
        (svc : prompted_service) (pf : platform) (SYSTEM_PROMPT : pystr)
        (source_root : path) (convex_using : list path)
        (context_summary : pystr) (f : fs) (w : world) :
  Forall (fun e => exists rel, e = source_root ++ rel) convex_using ->
  (forall n s u, svc n s u = HttpError 429) ->
  exists m,
    step_migrate_files svc pf SYSTEM_PROMPT source_root convex_using
                       context_summary f w
    = (inr [],
       World (issued w + 3 * m)
             (trace w ++ concat (repeat rate_limited_round m))) /\
    (Z.of_nat (length convex_using) <= Z.of_nat m * 5
     < Z.of_nat (length convex_using) + 5)%Z.
Proof.
  intros Hfiles Hsvc.
  destruct (batches_of_five _ convex_using Hfiles) as (bs & E & Hbs & Hm).
  exists (length bs). split; [|exact Hm].
  unfold step_migrate_files. rewrite E.
  exact (migrate_batches_rate_limited svc pf SYSTEM_PROMPT source_root
           context_summary f bs [] w Hbs Hsvc).
Qed.

Lemma rate_limited_migration_returns_nothing_witness :
  step_migrate_files (fun _ _ _ => HttpError 429) posix [] Sample.source_root
                     [Sample.pth "/work/app/App.tsx"] [] project fresh
  = (inr [], World 3 rate_limited_round).
Proof.
  destruct (rate_limited_migration_returns_nothing
              (fun _ _ _ => HttpError 429) posix [] Sample.source_root
              [Sample.pth "/work/app/App.tsx"] [] project fresh)
    as (m & Hrun & Hm).
  - repeat constructor. exists [lit "App.tsx"]. vm_compute. reflexivity.
  - reflexivity.
  - rewrite Hrun. assert (Em : m = 1) by (cbn [length] in Hm; lia).
    subst m. reflexivity.
Defined.

(** X25.  When the first [k] requests are answered and every later one
    is refused with an HTTP error other than 429, and there are more than
    [k] batches, the step raises after three more requests: the changes
    parsed from the [k] answers are not returned, and the remaining
    batches are not tried. *)
Theorem migration_discards_earlier_batches
        (svc : prompted_service) (pf : platform) (SYSTEM_PROMPT : pystr)
        (source_root : path) (convex_using : list path)
        (context_summary : pystr) (f : fs) (w : world) (k : nat) (code : Z) :
  Forall (fun e => exists rel, e = source_root ++ rel) convex_using ->
  5 * k < length convex_using -> code <> 429%Z ->
  (forall j s u, j < k -> exists text, svc (issued w + j) s u = Completed text) ->
  (forall j s u, k <= j -> svc (issued w + j) s u = HttpError code) ->
  exists w',
    step_migrate_files svc pf SYSTEM_PROMPT source_root convex_using
                       context_summary f w
    = (inl (ApiError (RuntimeError 3 (HTTPError code))), w') /\
    issued w' = issued w + k + 3.
Proof.
  intros Hfiles Hk Hc Hok Hbad.
  destruct (batches_of_five _ convex_using Hfiles) as (bs & E & Hbs & Hm).
  unfold step_migrate_files. rewrite E.
  apply (migrate_batches_refused svc pf SYSTEM_PROMPT source_root
           context_summary f code k bs [] w Hbs);
    [unfold path, segment in *; lia | exact Hc | exact Hok | exact Hbad].
Qed.

Lemma migration_discards_earlier_batches_witness :
  let files := map (fun k => Sample.source_root ++ [lit "src"; decimal (N.of_nat k)])
                   (seq 0 7) in
  let svc : prompted_service :=
    fun n _ _ => match n with
                 | 0 => Completed (write_marker (lit " ") (lit "a.ts") (lit "x"))
                 | _ => HttpError 503
                 end in
  exists w',
    step_migrate_files svc posix [] Sample.source_root files [] project fresh
    = (inl (ApiError (RuntimeError 3 (HTTPError 503))), w') /\
    issued w' = 4.
Proof.
  cbv zeta.
  apply (migration_discards_earlier_batches _ posix [] Sample.source_root
           (map (fun k => Sample.source_root ++ [lit "src"; decimal (N.of_nat k)])
                (seq 0 7)) [] project fresh 1 503%Z).
  - apply Forall_forall. intros e He. apply in_map_iff in He.
    destruct He as (k & <- & _). eauto.
  - rewrite length_map, length_seq. lia.
  - discriminate.
  - intros j s u Hj. assert (j = 0) by lia. subst j. cbn. eauto.
  - intros j s u Hj. destruct j as [|j]; [lia|]. reflexivity.
Defined.

End MigrationFacts.
(* ------------------------------------------------------------------ *)
(** ** The whole run *)

Module MainFacts.
Import OsFacts ApplierFacts ReaderFacts AnalysisFacts ContextFacts MigrationFacts
       ApplierMore ClientBudget.
Import Report Main.

(** The run up to the apply step does not look at the flag. *)
Lemma main_flag b s f w :
  main (with_dry_run b s) f w =
  match api_key s with
  | [] => (Exited 1, f, w)
  | _ :: _ =>
      match fst (step_analyze (pf s) (source_root s) (listing s) f) with
      | inl e => (Crashed (OsError e), f, w)
      | inr analysis =>
          match convex_files analysis, convex_using analysis with
          | [], [] => (Exited 0, f, w)
          | _, _ =>
              match fst (build_context_summary (pf s) (source_root s) f) with
              | inl e => (Crashed (OsError e), f, w)
              | inr context_summary =>
                  match gather_changes s (convex_using analysis)
                                       context_summary f w with
                  | (inl e, w') => (Crashed e, f, w')
                  | (inr all_changes, w') =>
                      let (r, f') :=
                        apply_and_report (with_dry_run b s) all_changes f in
                      (r, f', w')
                  end
              end
          end
      end
  end.
Proof. reflexivity. Qed.

Lemma dry_report_only s all_changes f r f' :
  apply_and_report (with_dry_run true s) all_changes f = (r, f') ->
  forall l, l <> locate (report_path (cwd s)) -> f' l = f l.
Proof.
  unfold apply_and_report, step_apply_changes, write_report. cbn [with_dry_run
    Main.dry_run Main.cwd Main.source_root Main.target_root Main.listing].
  unfold ret at 1.
  destruct (write_text _ _ f) as [r1 f1] eqn:Hw. intros H l Hl.
  assert (E : f' = f1) by (destruct r1; inversion H; reflexivity). subst f'.
  apply write_text_cases in Hw.
  destruct Hw as [[-> _]|[_ (l0 & Hr & _ & ->)]]; [reflexivity|].
  rewrite (resolve_locate _ _ _ Hr). unfold update.
  destruct (path_eq_dec _ l); congruence.
Qed.

(** X26.  A dry run makes exactly the requests and the sleeps of a live
    run: the flag is looked at only once the service has answered.  On the
    tree a dry run changes at most the report file. *)
Theorem dry_run_spares_no_request (s : setting) (f : fs) (w : world) :
  snd (main (with_dry_run true s) f w) = snd (main (with_dry_run false s) f w) /\
  forall l, l <> locate (report_path (cwd s)) ->
            snd (fst (main (with_dry_run true s) f w)) l = f l.
Proof.
  rewrite !main_flag.
  destruct (api_key s); [split; reflexivity|].
  destruct (fst (step_analyze _ _ _ f)) as [e|a]; [split; reflexivity|].
  assert (Hgo :
    snd match fst (build_context_summary (pf s) (source_root s) f) with
        | inl e => (Crashed (OsError e), f, w)
        | inr ctx =>
            match gather_changes s (convex_using a) ctx f w with
            | (inl e, w') => (Crashed e, f, w')
            | (inr all_changes, w') =>
                let (r, f') := apply_and_report (with_dry_run true s) all_changes f in
                (r, f', w')
            end
        end
    = snd match fst (build_context_summary (pf s) (source_root s) f) with
          | inl e => (Crashed (OsError e), f, w)
          | inr ctx =>
              match gather_changes s (convex_using a) ctx f w with
              | (inl e, w') => (Crashed e, f, w')
              | (inr all_changes, w') =>
                  let (r, f') := apply_and_report (with_dry_run false s) all_changes f in
                  (r, f', w')
              end
          end /\
    forall l, l <> locate (report_path (cwd s)) ->
      snd (fst match fst (build_context_summary (pf s) (source_root s) f) with
               | inl e => (Crashed (OsError e), f, w)
               | inr ctx =>
                   match gather_changes s (convex_using a) ctx f w with
                   | (inl e, w') => (Crashed e, f, w')
                   | (inr all_changes, w') =>
                       let (r, f') :=
                         apply_and_report (with_dry_run true s) all_changes f in
                       (r, f', w')
                   end
               end) l = f l).
  { destruct (fst (build_context_summary _ _ f)) as [e|ctx]; [split; reflexivity|].
    destruct (gather_changes s _ ctx f w) as [[e|all_changes] w'];
      [split; reflexivity|].
    destruct (apply_and_report (with_dry_run true s) all_changes f)
      as [r1 f1] eqn:E1.
    destruct (apply_and_report (with_dry_run false s) all_changes f) as [r2 f2].
    split; [reflexivity|]. cbn [fst snd].
    exact (dry_report_only _ _ _ _ _ E1). }
  destruct (convex_files a), (convex_using a) eqn:Eu;
    try exact Hgo; split; reflexivity.
Qed.

(** *** The reads of the schema step *)

Lemma schema_inputs_inr pf (src : path) ts_listing f :
  Forall (fun e => exists rel, e = src ++ rel) ts_listing ->
  exists prompt, schema_inputs pf src ts_listing f = (inr prompt, f).
Proof.
  intros Hts. unfold schema_inputs, convex_content, Fs.bind.
  destruct (exists_inr (joinpath src (lit "convex")) f) as [b ->].
  assert (Hc : exists c,
            (if negb b then ret (lit "(No convex/ directory found)")
             else fun f0 =>
                    let (s, f') := files_content pf src ts_listing f0 in
                    match s with
                    | inl e => (inl e, f')
                    | inr a =>
                        ret match a with
                            | [] => lit "(convex/ is empty)"
                            | _ :: _ => join [newline; newline] a
                            end f'
                    end) f = (inr c, f)).
  { destruct b; cbn [negb]; [|unfold ret; eauto].
    destruct (files_content_total pf src f ts_listing Hts) as [parts ->].
    unfold ret. eauto. }
  destruct Hc as [c ->].
  destruct (read_file_safe_inr pf (joinpath src (lit "package.json"))
              default_max_bytes f) as [pkg ->].
  destruct (exists_inr (joinpath src (lit "app.json")) f) as [e ->].
  destruct e.
  - destruct (read_file_safe_inr pf (joinpath src (lit "app.json"))
                default_max_bytes f) as [app ->].
    unfold ret. eauto.
  - unfold ret. eauto.
Qed.

Lemma analysis_files_below pf (src : path) listing f a :
  listed_below src listing ->
  fst (step_analyze pf src listing f) = inr a ->
  Forall (fun e => exists rel, e = src ++ rel) (convex_using a).
Proof.
  intros Hl Ha.
  assert (Hrun : step_analyze pf src listing f = (inr a, snd (step_analyze pf src listing f)))
    by (rewrite <- Ha; apply surjective_pairing).
  destruct (step_analyze_inr _ _ _ _ _ _ Hrun) as (_ & Hall & _ & Hcu).
  apply Forall_forall. intros e He. rewrite Hcu, Hall in He.
  apply filter_In in He. destruct He as [He _].
  unfold iter_source_files in He. apply filter_In in He. destruct He as [He _].
  unfold listed_below in Hl. rewrite Forall_forall in Hl.
  destruct (Hl e He) as (rel & -> & _). eauto.
Qed.

(** With an empty plan nothing is counted as written, deleted or
    skipped. *)
Lemma empty_plan_counts s f st f' :
  apply_and_report s [] f = (Finished st, f') ->
  written st = 0 /\ deleted st = 0 /\ skipped st = 0.
Proof.
  unfold apply_and_report, step_apply_changes.
  destruct (Main.dry_run s).
  - unfold ret. destruct (write_report _ _ _ _ _ f) as [[e|[]] f2]; intros H;
      inversion H; subst; cbn; auto.
  - unfold Fs.bind.
    destruct (copy_loop _ _ _ _ f) as [[e|st1] f1] eqn:Hc; [discriminate|].
    cbn [apply_loop]. unfold ret.
    destruct (write_report _ _ _ _ _ f1) as [[e|[]] f2]; intros H;
      inversion H; subst.
    destruct (copy_loop_written _ _ _ _ _ _ _ Hc) as (Hw & Hd & Hs).
    cbn in *. auto.
Qed.

(** X27.  When the service rate limits every request, a run with a key
    does not fail: unless it exits at once for lack of anything to migrate,
    it spends three requests on the schema and three on each batch, and
    goes on to the apply step with an empty plan, so that nothing is
    written or deleted. *)
Theorem rate_limited_run_applies_nothing
        (s : setting) (f f' : fs) (w w' : world) (out : ending) :
  api_key s <> [] ->
  listed_below (Main.source_root s) (Main.listing s) ->
  Forall (fun e => exists rel, e = Main.source_root s ++ rel) (ts_listing s) ->
  (forall n a b, Main.svc s n a b = HttpError 429) ->
  main s f w = (out, f', w') ->
  (out = Exited 0 /\ f' = f /\ w' = w) \/
  (exists m,
     w' = World (issued w + 3 * S m)
                (trace w ++ concat (repeat rate_limited_round (S m))) /\
     apply_and_report s [] f = (out, f') /\
     forall st, out = Finished st ->
                written st = 0 /\ deleted st = 0 /\ skipped st = 0).
Proof.
  intros Hkey Hl Hts Hsvc H. unfold main in H.
  destruct (api_key s) as [|k key]; [congruence|].
  destruct (step_analyze_total (Main.pf s) _ _ f Hl) as [a Ha].
  assert (Hfa : fst (step_analyze (Main.pf s) (Main.source_root s) (Main.listing s) f)
                = inr a) by now rewrite Ha.
  pose proof (analysis_files_below _ _ _ _ _ Hl Hfa) as Hcu.
  rewrite Hfa in H.
  assert (Hgo : forall ctx,
            exists m,
              gather_changes s (convex_using a) ctx f w
              = (inr [], World (issued w + 3 * S m)
                               (trace w ++ concat (repeat rate_limited_round (S m))))).
  { intros ctx. unfold gather_changes, step_generate_schema.
    destruct (schema_inputs_inr (Main.pf s) _ _ f Hts) as [prompt ->]. cbn [fst].
    rewrite call_rate_limited by (intros n; apply Hsvc).
    change (parse_file_blocks []) with (@nil change).
    destruct (batches_of_five _ (convex_using a) Hcu) as (bs & E & Hbs & _).
    exists (length bs). unfold step_migrate_files. rewrite E.
    rewrite (migrate_batches_rate_limited _ _ _ _ _ f bs [] _ Hbs Hsvc).
    cbn [app sleep issued trace repeat concat]. f_equal.
    f_equal; [unfold path, segment in *; lia|].
    unfold rate_limited_round. repeat rewrite <- app_assoc. reflexivity. }
  assert (Hrest :
    match fst (build_context_summary (Main.pf s) (Main.source_root s) f) with
    | inl e => (Crashed (OsError e), f, w)
    | inr ctx =>
        match gather_changes s (convex_using a) ctx f w with
        | (inl e, w'0) => (Crashed e, f, w'0)
        | (inr all_changes, w'0) =>
            let (r, f'0) := apply_and_report s all_changes f in (r, f'0, w'0)
        end
    end = (out, f', w') ->
    exists m,
      w' = World (issued w + 3 * S m)
                 (trace w ++ concat (repeat rate_limited_round (S m))) /\
      apply_and_report s [] f = (out, f') /\
      forall st, out = Finished st ->
                 written st = 0 /\ deleted st = 0 /\ skipped st = 0).
  { destruct (build_context_summary_inr (Main.pf s) (Main.source_root s) f)
      as [ctx ->]. cbn [fst].
    destruct (Hgo ctx) as [m ->].
    destruct (apply_and_report s [] f) as [r f1] eqn:Ear.
    intros E. inversion E; subst. exists m.
    split; [reflexivity|]. split; [reflexivity|].
    intros st ->. exact (empty_plan_counts _ _ _ _ Ear). }
  destruct (convex_files a), (convex_using a);
    [left; inversion H; auto|right; auto..].
Qed.

Lemma rate_limited_run_applies_nothing_witness :
  let r := main rate_limited_setting project fresh in
  (fst (fst r) = Exited 0 /\ snd (fst r) = project /\ snd r = fresh) \/
  (exists m,
     snd r = World (issued fresh + 3 * S m)
                   (trace fresh ++ concat (repeat rate_limited_round (S m))) /\
     apply_and_report rate_limited_setting [] project = (fst (fst r), snd (fst r)) /\
     forall st, fst (fst r) = Finished st ->
                written st = 0 /\ deleted st = 0 /\ skipped st = 0).
Proof.
  cbv zeta.
  apply (rate_limited_run_applies_nothing rate_limited_setting project).
  - discriminate.
  - exact project_listed.
  - repeat constructor. exists [lit "convex"; lit "schema.ts"]. vm_compute. reflexivity.
  - reflexivity.
  - rewrite <- !surjective_pairing. reflexivity.
Defined.

(** *** Requests come before changes *)

Lemma call_posts (sv : service) w :
  S (issued w) <= issued (snd (call_cursor_api sv default_retries w)).
Proof.
  unfold call_cursor_api. change (range default_retries) with [0%Z; 1%Z; 2%Z].
  assert (Hrest : forall x,
            S (issued w)
            <= issued (snd (attempts sv default_retries [1%Z; 2%Z]
                                     (sleep x (post w))))).
  { intros x.
    destruct (attempts_within sv default_retries [1%Z; 2%Z] (sleep x (post w)))
      as [[Hi _] _].
    - repeat constructor; unfold default_retries; lia.
    - exact Hi. }
  cbn [attempts]. destruct (sv (issued w)) as [txt|code|].
  - cbn. lia.
  - destruct (code =? 429)%Z; [apply Hrest|].
    change (0 <? default_retries - 1)%Z with true. apply Hrest.
  - change (0 <? default_retries - 1)%Z with true. apply Hrest.
Qed.

Lemma migrate_batches_monotone sv pf0 sys src ctx f : forall bs acc w,
  issued w <= issued (snd (migrate_batches sv pf0 sys src ctx bs acc f w)).
Proof.
  induction bs as [|b more IH]; intros acc w; cbn [migrate_batches]; [cbn; lia|].
  destruct (fst (files_content pf0 src b f)) as [e|files]; [cbn; lia|].
  pose proof (call_posts (fun n => sv n sys (migrate_prompt ctx files)) w) as Hp.
  destruct (call_cursor_api _ default_retries w) as [[text|e] w1]; cbn [snd] in *.
  - specialize (IH (acc ++ parse_file_blocks text) (sleep REQUEST_DELAY_SECONDS w1)).
    cbn [sleep issued] in IH. lia.
  - lia.
Qed.

Lemma gather_changes_posts s files ctx f w r w' :
  gather_changes s files ctx f w = (r, w') ->
  issued w <= issued w' /\ (forall all_changes, r = inr all_changes ->
                             S (issued w) <= issued w').
Proof.
  unfold gather_changes, step_generate_schema.
  destruct (fst (schema_inputs _ _ _ f)) as [e|prompt].
  { intros H. inversion H; subst. split; [lia|discriminate]. }
  pose proof (call_posts (fun n => Main.svc s n (Main.SYSTEM_PROMPT s) prompt) w) as Hp.
  destruct (call_cursor_api _ default_retries w) as [[text|e] w1]; cbn [snd] in Hp.
  - unfold step_migrate_files.
    destruct (batch files 5) as [e|bs].
    { intros H. inversion H; subst. cbn [sleep issued]. split; [lia|discriminate]. }
    pose proof (migrate_batches_monotone (Main.svc s) (Main.pf s)
                  (Main.SYSTEM_PROMPT s) (Main.source_root s) ctx f bs []
                  (sleep REQUEST_DELAY_SECONDS w1)) as Hm.
    destruct (migrate_batches _ _ _ _ _ bs [] f _) as [[e|app] w3];
      cbn [snd sleep issued] in Hm; intros H; inversion H; subst;
      split; intros; lia.
  - intros H. inversion H; subst. split; [lia|discriminate].
Qed.

(** X28.  A run never touches the tree before the service has been
    asked: when it ends without having made a request, and whenever it
    ends by [sys.exit], the tree is as it was; the count of requests never
    goes down. *)
Theorem no_change_before_first_request
        (s : setting) (f f' : fs) (w w' : world) (out : ending) :
  main s f w = (out, f', w') ->
  issued w <= issued w' /\
  (issued w' = issued w -> f' = f) /\
  (forall code, out = Exited code -> f' = f /\ w' = w).
Proof.
  unfold main. intros H.
  destruct (api_key s);
    [inversion H; subst; repeat split; auto; lia|].
  destruct (fst (step_analyze _ _ _ f)) as [e|a];
    [inversion H; subst; repeat split; auto; try lia; discriminate|].
  assert (Hrest :
    match fst (build_context_summary (Main.pf s) (Main.source_root s) f) with
    | inl e => (Crashed (OsError e), f, w)
    | inr ctx =>
        match gather_changes s (convex_using a) ctx f w with
        | (inl e, w'0) => (Crashed e, f, w'0)
        | (inr all_changes, w'0) =>
            let (r, f'0) := apply_and_report s all_changes f in (r, f'0, w'0)
        end
    end = (out, f', w') ->
    issued w <= issued w' /\
    (issued w' = issued w -> f' = f) /\
    (forall code, out = Exited code -> f' = f /\ w' = w)).
  { clear H. destruct (fst (build_context_summary _ _ f)) as [e|ctx].
    { intros H. inversion H; subst. repeat split; auto; try lia; discriminate. }
    destruct (gather_changes s (convex_using a) ctx f w) as [r w1] eqn:Eg.
    destruct (gather_changes_posts _ _ _ _ _ _ _ Eg) as [Hle Hlt].
    destruct r as [e|all_changes].
    { intros H. inversion H; subst. repeat split; auto; discriminate. }
    specialize (Hlt all_changes eq_refl).
    unfold apply_and_report.
    destruct (step_apply_changes _ _ _ _ _ f) as [[e|st] f1].
    { intros H. inversion H; subst. repeat split; try lia; discriminate. }
    destruct (write_report _ _ _ _ _ f1) as [[e|[]] f2];
      intros H; inversion H; subst; repeat split; try lia; discriminate. }
  destruct (convex_files a), (convex_using a); try (exact (Hrest H));
    inversion H; subst; repeat split; auto; lia.
Qed.

(** The two runs that end by [sys.exit]: without a key (status 1), and
    on a project without any use of Convex (status 0).  Neither makes a
    request, and the tree and the record of requests are as before. *)
Lemma no_change_before_first_request_witness :
  (let r := main no_key_setting project fresh in
   fst (fst r) = Exited 1 /\ issued (snd r) = issued fresh /\
   snd (fst r) = project /\ snd r = fresh) /\
  (let r := main plain_setting plain_project fresh in
   fst (fst r) = Exited 0 /\ issued (snd r) = issued fresh /\
   snd (fst r) = plain_project /\ snd r = fresh).
Proof.
  split; cbv zeta.
  - set (r := main no_key_setting project fresh).
    assert (Eout : fst (fst r) = Exited 1) by reflexivity.
    assert (Eiss : issued (snd r) = issued fresh) by reflexivity.
    assert (Erun : main no_key_setting project fresh
                   = (fst (fst r), snd (fst r), snd r))
      by (unfold r; rewrite <- !surjective_pairing; reflexivity).
    destruct (no_change_before_first_request no_key_setting project _ fresh _ _ Erun)
      as (_ & Hquiet & Hexit).
    destruct (Hexit 1%Z Eout) as [Hf Hw].
    split; [exact Eout|]. split; [exact Eiss|]. split; [exact (Hquiet Eiss)|exact Hw].
  - set (r := main plain_setting plain_project fresh).
    assert (Eout : fst (fst r) = Exited 0) by (vm_compute; reflexivity).
    assert (Eiss : issued (snd r) = issued fresh) by (vm_compute; reflexivity).
    assert (Erun : main plain_setting plain_project fresh
                   = (fst (fst r), snd (fst r), snd r))
      by (unfold r; rewrite <- !surjective_pairing; reflexivity).
    destruct (no_change_before_first_request plain_setting plain_project _ fresh _ _ Erun)
      as (_ & Hquiet & Hexit).
    destruct (Hexit 0%Z Eout) as [Hf Hw].
    split; [exact Eout|]. split; [exact Eiss|]. split; [exact (Hquiet Eiss)|exact Hw].
Defined.

End MainFacts.
